(** * four-fingers: the three video filters, embedded and verified

    The filters of [src/app.js] (MatrixFilter), [src/unnamed/part_001]
    (ArcherFilter, the spec's CelShadeFilter) and [src/unnamed/part_002]
    (WakingLifeFilter, the spec's RotoscopeFilter) are translated function by
    function: [Js] and [Rng] hold what the three share, [WakingLife],
    [Archer] and [Matrix] the filters, and the modules whose names end in
    [Facts], [More] or [Edges] the lemmas about each.

    Number model.  A JavaScript number is modelled by a real number ([R]):
    [+], [-], [*], [/], [Math.sqrt], [Math.floor], [Math.ceil],
    [Math.round], [Math.min]/[Math.max], [Math.pow], [Math.sin],
    [Math.cos] and [Math.atan2] are the exact operations, without the
    rounding of IEEE doubles (or of [Float32Array] stores).  [NaN] and
    the infinities have no counterpart: a division by zero or a read outside
    an array leaves the model, and where the code could reach one the
    theorems carry the hypothesis that keeps it away (a non-zero divisor,
    buffers of the size the canvas API hands out).  Integers that the code
    uses as indices or byte values are [Z].  Where the result of the code
    hangs on a rounding, the development says so: [Archer.settled] keeps a
    colour away from the comparisons that an error in the last bit can turn,
    and [WakingLife.generateNoiseTable32] writes out the rounding of the
    store into the noise table.

    Arrays.  Typed arrays are lists; [rd] reads at an integer index and [wr]
    stores at one.  A store outside the array is ignored, as in JavaScript.

    Randomness.  [Math.random] is a state monad over the sequence of values
    the generator is going to return. *)

From Stdlib Require Import Reals Lra Lia ZArith List.
From stdpp Require Import base list.
Import ListNotations.

Local Open Scope Z_scope.
Local Open Scope R_scope.

(** ** JavaScript numbers and typed arrays *)

Module Js.

(** [Math.floor] *)
Definition floor (x : R) : Z := Int_part x.

(** [Math.round]: nearest integer, halves towards [+Infinity]. *)
Definition round (x : R) : Z := floor (x + / 2).

(** [Math.max(lo, Math.min(hi, x))] *)
Definition clamp (lo hi x : R) : R := Rmax lo (Rmin hi x).

(** [a[i]] on a typed array.  Outside the array JavaScript yields
    [undefined]; the model yields [d] there and the theorems keep reads
    inside. *)
Definition rd {A} (d : A) (a : list A) (i : Z) : A :=
  if (i <? 0)%Z then d else nth (Z.to_nat i) a d.

(** [a[i] = v] on a typed array: ignored outside the array. *)
Definition wr {A} (a : list A) (i : Z) (v : A) : list A :=
  if (i <? 0)%Z then a else <[Z.to_nat i := v]> a.

(** [for (let i = lo; i < hi; i++)]: the values [i] takes. *)
Definition range (lo hi : Z) : list Z := seqZ lo (hi - lo).

(** [for (let i = lo; i < hi; i += step)] with [step > 0]. *)
Definition rangeStep (lo hi step : Z) : list Z :=
  map (fun k => (lo + step * k)%Z) (seqZ 0 ((hi - lo + step - 1) / step)).

(** The coordinates a loop over [ys] with a loop over [xs] inside visits,
    in the order it visits them. *)
Definition pairs (ys xs : list Z) : list (Z * Z) :=
  flat_map (fun y => map (fun x => (y, x)) xs) ys.

(** The conversion of a store into a [Uint8ClampedArray]: clamp to
    [[0, 255]], then round to the nearest integer, a tie to the even one. *)
Definition toUint8Clamp (x : R) : Z :=
  let c := Rmin (Rmax x 0) 255 in
  let f := floor c in
  if Rlt_dec (IZR f + 0.5) c then (f + 1)%Z
  else if Rlt_dec c (IZR f + 0.5) then f
  else if Z.even f then f else (f + 1)%Z.

(** The weighted sum both filters call luminance. *)
Definition luma (r g b : R) : R := r * 0.299 + g * 0.587 + b * 0.114.

(** Lines [const step = 255 / (levels - 1); v = Math.round(v / step) * step]
    of [ArcherFilter.draw] and [WakingLifeFilter.draw]. *)
Definition quantize (levels v : R) : R :=
  let step := 255 / (levels - 1) in
  IZR (round (v / step)) * step.

(** The quantization followed by the clamp both filters apply next:
    [Math.max(0, Math.min(255, v))]. *)
Definition quantizeClamp (levels v : R) : R :=
  clamp 0 255 (quantize levels v).

(** [Math.ceil] *)
Definition ceil (x : R) : Z := (- floor (- x))%Z.

(** [Math.atan2(y, x)] on numbers; the program calls it on differences of
    numbers, which are never the negative zero, and of which one is not
    zero. *)
Definition atan2 (y x : R) : R :=
  if Rlt_dec 0 x then atan (y / x)
  else if Rlt_dec x 0 then
    (if Rle_dec 0 y then atan (y / x) + PI else atan (y / x) - PI)
  else if Rlt_dec 0 y then PI / 2
  else if Rlt_dec y 0 then - (PI / 2)
  else 0.

End Js.

(** ** [Math.random]

    The generator is the sequence of values its future calls return; a call
    takes the first and leaves the rest.  The browser promises values in
    [[0, 1)], which [unit_rng] states. *)

Module Rng.

Definition t : Type := nat -> R.

Definition M (A : Type) : Type := t -> A * t.

Definition ret {A} (a : A) : M A := fun g => (a, g).

Definition bind {A B} (m : M A) (k : A -> M B) : M B :=
  fun g => let (a, g') := m g in k a g'.

(** [Math.random()] *)
Definition random : M R := fun g => (g O, fun n => g (S n)).

Definition unit_rng (g : t) : Prop := forall n, 0 <= g n < 1.

(** [g'] is what is left of [g] after some calls: each of its values is a
    value of [g]. *)
Definition later (g g' : t) : Prop := forall n, exists m, g' n = g m.

End Rng.

Declare Scope rng_scope.
Delimit Scope rng_scope with rng.
Notation "'let*' x ':=' m 'in' k" := (Rng.bind m (fun x => k))
  (at level 10, x name, m at level 100, k at level 200) : rng_scope.

(** ** WakingLifeFilter ([src/unnamed/part_002]) *)

Module WakingLife.

(** The fields of the filter that the modelled methods read or write: the
    clock, the frame counter and the motion history.  The three noise tables
    never change after the constructor and are passed to the sampling
    functions directly. *)
Record State : Type := mkState {
  time : R;
  frameCount : Z;
  prevFrame : option (list Z);
  motionMap : option (list R);
  globalMotion : R
}.

Definition size : Z := 512.

(** [generateNoiseTable] on exact numbers: [size * size] successive random
    values. *)
Definition generateNoiseTable : Rng.M (list R) :=
  fun g =>
    let n := Z.to_nat (size * size) in
    (map g (seq 0 n), fun i => g (i + n)%nat).

(** [generateNoiseTable] with the store into the [Float32Array] written
    out: [table[i] = Math.random()] keeps [fround] of the draw, the
    single-precision number nearest to it. *)
Definition generateNoiseTable32 (fround : R -> R) : Rng.M (list R) :=
  fun g =>
    let n := Z.to_nat (size * size) in
    (map (fun i => fround (g i)) (seq 0 n), fun i => g (i + n)%nat).

(** What is used of the rounding to single precision: it keeps the order,
    and [0] and [1], which are single-precision numbers, are stored as they
    are. *)
Definition rounding (fround : R -> R) : Prop :=
  (forall x y, x <= y -> fround x <= fround y) /\ fround 0 = 0 /\ fround 1 = 1.

(** Example: the rounding to the multiples of [2 ^ -24], which are the
    single-precision numbers between one half and one, and a generator that
    always returns [1 - 2 ^ -27]. *)
Definition fround24 (x : R) : R := IZR (Js.round (x * 16777216)) / 16777216.
Definition nearOne : Rng.t := fun _ => 1 - / 134217728.

(** What [generateNoiseTable] produces and the sampling code relies on. *)
Definition noise_table (table : list R) : Prop :=
  Z.of_nat (length table) = (size * size)%Z.

(** [noise2D(x, y, table)] *)
Definition noise2D (x y : R) (table : list R) : R :=
  let xi := Z.rem (Js.floor (Rabs x)) size in
  let yi := Z.rem (Js.floor (Rabs y)) size in
  let xf := x - IZR (Js.floor x) in
  let yf := y - IZR (Js.floor y) in
  let n00 := Js.rd 0 table (yi * size + xi) in
  let n10 := Js.rd 0 table (yi * size + Z.rem (xi + 1) size) in
  let n01 := Js.rd 0 table (Z.rem (yi + 1) size * size + xi) in
  let n11 := Js.rd 0 table (Z.rem (yi + 1) size * size + Z.rem (xi + 1) size) in
  let sx := xf * xf * (3 - 2 * xf) in
  let sy := yf * yf * (3 - 2 * yf) in
  let nx0 := n00 * (1 - sx) + n10 * sx in
  let nx1 := n01 * (1 - sx) + n11 * sx in
  nx0 * (1 - sy) + nx1 * sy.

(** The loop variables of [fbm]. *)
Record FbmAcc : Type := mkFbmAcc {
  value : R;
  amplitude : R;
  frequency : R;
  maxValue : R
}.

(** One turn of the loop of [fbm]. *)
Definition fbm_step (x y : R) (table : list R) (a : FbmAcc) : FbmAcc :=
  {| value := value a + amplitude a * noise2D (x * frequency a) (y * frequency a) table;
     maxValue := maxValue a + amplitude a;
     amplitude := amplitude a * 0.5;
     frequency := frequency a * 2 |}.

(** [for (let i = 0; i < octaves; i++)] *)
Fixpoint fbm_loop (n : nat) (x y : R) (table : list R) (a : FbmAcc) : FbmAcc :=
  match n with
  | O => a
  | S n' => fbm_loop n' x y table (fbm_step x y table a)
  end.

(** [fbm(x, y, table, octaves)] for an integer number of octaves. *)
Definition fbm (x y : R) (table : list R) (octaves : Z) : R :=
  let a := fbm_loop (Z.to_nat octaves) x y table
             {| value := 0; amplitude := 0.5; frequency := 1; maxValue := 0 |} in
  value a / maxValue a.

Definition gridSize : Z := 16.

(** [getMotionAt(x, y, width, height)] at a pixel. *)
Definition getMotionAt (st : State) (x y width height : Z) : R :=
  match motionMap st with
  | None => globalMotion st
  | Some m =>
      let gridW := (width / gridSize)%Z in
      let gridH := (height / gridSize)%Z in
      let gx := (x / gridSize)%Z in
      let gy := (y / gridSize)%Z in
      if ((gx <? 0) || (gx >=? gridW) || (gy <? 0) || (gy >=? gridH))%Z
      then globalMotion st
      else Js.rd 0 m (gy * gridW + gx)
  end.

(** [motionMultiplier] in the pixel loop of [draw]. *)
Definition motionMultiplier (st : State) (x y width height : Z) : R :=
  let localMotion := getMotionAt st x y width height in
  1 + localMotion * 15 + globalMotion st * 8.

(** How a call ends: normally, or by the [RangeError] of
    [TypedArray.prototype.set] on a source longer than the target.  Both
    carry the fields as the call left them. *)
Inductive outcome : Type :=
| Done (st : State)
| RangeError (st : State).

Definition set_motion (st : State) (m : list R) (g : R) : State :=
  {| time := time st; frameCount := frameCount st;
     prevFrame := prevFrame st; motionMap := Some m; globalMotion := g |}.

Definition set_prevFrame (st : State) (f : list Z) : State :=
  {| time := time st; frameCount := frameCount st;
     prevFrame := Some f; motionMap := motionMap st;
     globalMotion := globalMotion st |}.

(** A channel of a pixel buffer as a number. *)
Definition chan (a : list Z) (i : Z) : R := IZR (Js.rd 0%Z a i).

(** The index in a frame buffer of the centre of the block [(gx, gy)]. *)
Definition centreIdx (width gy gx : Z) : Z :=
  let x := (gx * gridSize + gridSize / 2)%Z in
  let y := (gy * gridSize + gridSize / 2)%Z in
  ((y * width + x) * 4)%Z.

(** [motion] of the block [(gx, gy)]: the three channel differences at the
    block's centre, summed and divided by [255 * 3].  The centre
    [gx * gridSize + gridSize / 2] is an integer, so the [Math.floor] around
    it changes nothing. *)
Definition blockMotion (src prev : list Z) (width gy gx : Z) : R :=
  let x := (gx * gridSize + gridSize / 2)%Z in
  let y := (gy * gridSize + gridSize / 2)%Z in
  let idx := ((y * width + x) * 4)%Z in
  let diffR := Rabs (chan src idx - chan prev idx) in
  let diffG := Rabs (chan src (idx + 1) - chan prev (idx + 1)) in
  let diffB := Rabs (chan src (idx + 2) - chan prev (idx + 2)) in
  (diffR + diffG + diffB) / (255 * 3).

(** The body of the two loops of [detectMotion], on the motion map and
    [totalMotion]. *)
Definition motion_cell (src prev : list Z) (width gridW : Z)
    (acc : list R * R) (c : Z * Z) : list R * R :=
  let '(gy, gx) := c in
  let motion := blockMotion src prev width gy gx in
  let gridIdx := (gy * gridW + gx)%Z in
  let m := Js.wr (fst acc) gridIdx (Js.rd 0 (fst acc) gridIdx * 0.7 + motion * 0.3) in
  (m, snd acc + Js.rd 0 m gridIdx).

(** The motion map [detectMotion] works on: the old one, or a fresh one of
    zeros when there is none or its length is not [gridW * gridH]. *)
Definition motion_map0 (st : State) (gridW gridH : Z) : list R :=
  match motionMap st with
  | Some m =>
      if (Z.of_nat (length m) =? gridW * gridH)%Z then m
      else replicate (Z.to_nat (gridW * gridH)) 0
  | None => replicate (Z.to_nat (gridW * gridH)) 0
  end.

(** [detectMotion(src, width, height)] *)
Definition detectMotion (st : State) (src : list Z) (width height : Z) : outcome :=
  let gridW := (width / gridSize)%Z in
  let gridH := (height / gridSize)%Z in
  let m0 := motion_map0 st gridW gridH in
  match prevFrame st with
  | None => Done (set_prevFrame (set_motion st m0 (globalMotion st)) src)
  | Some prev =>
      let acc := foldl (fun acc gy =>
                   foldl (fun acc gx => motion_cell src prev width gridW acc (gy, gx))
                         acc (Js.range 0 gridW))
                   (m0, 0) (Js.range 0 gridH) in
      let avgMotion := snd acc / IZR (gridW * gridH) in
      let st' := set_motion st (fst acc) (globalMotion st * 0.8 + avgMotion * 0.2) in
      if (length src <=? length prev)%nat
      then Done (set_prevFrame st' (src ++ drop (length src) prev))
      else RangeError st'
  end.

(** Following the spec's words for the motion of a block: the normalized
    magnitude of the difference of the two frames' luma at the block's
    centre. *)
Definition lumaMotion_spec (src prev : list Z) (width gy gx : Z) : R :=
  let x := (gx * gridSize + gridSize / 2)%Z in
  let y := (gy * gridSize + gridSize / 2)%Z in
  let idx := ((y * width + x) * 4)%Z in
  Rabs (Js.luma (chan src idx) (chan src (idx + 1)) (chan src (idx + 2))
        - Js.luma (chan prev idx) (chan prev (idx + 1)) (chan prev (idx + 2))) / 255.

(** Following the spec's words for the update of a block whose value was
    [old]: [0.7] of the old value plus [0.3] of that luma motion. *)
Definition smoothed_spec (old : R) (src prev : list Z) (width gy gx : Z) : R :=
  0.7 * old + 0.3 * lumaMotion_spec src prev width gy gx.

(** What the two loops have done to the motion map once they have visited
    the cells [seen]. *)
Definition visited (src prev : list Z) (width gridW gridH : Z) (m0 : list R)
    (seen : list (Z * Z)) (acc : list R * R) : Prop :=
  Z.of_nat (length (fst acc)) = (gridW * gridH)%Z /\
  forall gy gx, (0 <= gx < gridW)%Z -> (0 <= gy < gridH)%Z ->
    Js.rd 0 (fst acc) (gy * gridW + gx) =
    if decide ((gy, gx) ∈ seen)
    then Js.rd 0 m0 (gy * gridW + gx) * 0.7 + blockMotion src prev width gy gx * 0.3
    else Js.rd 0 m0 (gy * gridW + gx).

(** The motion history holds values of [[0, 1]] only. *)
Definition unit_motion (st : State) : Prop :=
  0 <= globalMotion st <= 1 /\
  forall m, motionMap st = Some m -> Forall (fun v => 0 <= v <= 1) m.

(** The motion map, if there is one, has an entry for each block of the
    canvas. *)
Definition motion_sized (st : State) (width height : Z) : Prop :=
  forall m, motionMap st = Some m ->
    Z.of_nat (length m) = (width / gridSize * (height / gridSize))%Z.

(** The fields as a call left them, however it ended. *)
Definition state_of (o : outcome) : State :=
  match o with
  | Done st => st
  | RangeError st => st
  end.

(** *** The pixel loop of [draw]

    The settings and the noise tables are fields of the filter that no
    method changes; they are passed to the methods that read them. *)

Record Settings : Type := mkSettings {
  wobbleIntensity : R;
  wobbleSpeed : R;
  colorLevels : R;
  edgeThickness : R;
  edgeOpacity : R;
  colorShiftAmount : R;
  colorShiftSpeed : R;
  breathingIntensity : R;
  breathingSpeed : R;
  painterliness : R;
  saturationBoost : R
}.

(** The settings of the constructor. *)
Definition defaults : Settings :=
  {| wobbleIntensity := 2.5; wobbleSpeed := 0.002; colorLevels := 8;
     edgeThickness := 1.5; edgeOpacity := 0.7; colorShiftAmount := 15;
     colorShiftSpeed := 0.0008; breathingIntensity := 2.5;
     breathingSpeed := 0.0015; painterliness := 0.6; saturationBoost := 1.3 |}.

Record Tables : Type := mkTables {
  noiseTableX : list R;
  noiseTableY : list R;
  noiseTableColor : list R
}.

(** [bilerp(v00, v10, v01, v11, xf, yf)] *)
Definition bilerp (v00 v10 v01 v11 xf yf : R) : R :=
  let v0 := v00 * (1 - xf) + v10 * xf in
  let v1 := v01 * (1 - xf) + v11 * xf in
  v0 * (1 - yf) + v1 * yf.

(** [src[i]] as a number; [None] is the [undefined] of a read outside the
    buffer, which the arithmetic that follows turns into [NaN]. *)
Definition at_index (src : list Z) (i : Z) : option R :=
  if (i <? 0)%Z then None else option_map IZR (src !! Z.to_nat i).

(** [breathScale] *)
Definition breathScale (p : Settings) (st : State) : R :=
  1 + sin (time st * breathingSpeed p) * 0.004 * breathingIntensity p.

(** [srcX] and [srcY] of the pixel [(x, y)] before the clamp: the breathing
    about the centre of the canvas and the wobble. *)
Definition sourceAt (p : Settings) (t : Tables) (st : State)
    (width height x y : Z) : R * R :=
  let tt := time st * wobbleSpeed p in
  let cx := IZR width / 2 in
  let cy := IZR height / 2 in
  let mm := motionMultiplier st x y width height in
  let wobbleX := (fbm (IZR x * 0.015 + tt) (IZR y * 0.015) (noiseTableX t) 3 - 0.5)
                 * wobbleIntensity p * 3 * mm in
  let wobbleY := (fbm (IZR x * 0.015) (IZR y * 0.015 + tt * 1.2) (noiseTableY t) 3 - 0.5)
                 * wobbleIntensity p * 3 * mm in
  ((IZR x - cx) / breathScale p st + cx + wobbleX,
   (IZR y - cy) / breathScale p st + cy + wobbleY).

(** The clamp of the source position into the frame and the bilinear
    sample of the channel [c] there. *)
Definition sample (src : list Z) (width height : Z) (srcX srcY : R) (c : Z)
    : option R :=
  let sX := Js.clamp 0 (IZR width - 1) srcX in
  let sY := Js.clamp 0 (IZR height - 1) srcY in
  let x0 := Js.floor sX in
  let y0 := Js.floor sY in
  let x1 := Z.min (x0 + 1) (width - 1) in
  let y1 := Z.min (y0 + 1) (height - 1) in
  let xf := sX - IZR x0 in
  let yf := sY - IZR y0 in
  let idx00 := ((y0 * width + x0) * 4)%Z in
  let idx10 := ((y0 * width + x1) * 4)%Z in
  let idx01 := ((y1 * width + x0) * 4)%Z in
  let idx11 := ((y1 * width + x1) * 4)%Z in
  match at_index src (idx00 + c), at_index src (idx10 + c),
        at_index src (idx01 + c), at_index src (idx11 + c) with
  | Some v00, Some v10, Some v01, Some v11 => Some (bilerp v00 v10 v01 v11 xf yf)
  | _, _, _, _ => None
  end.

(** From the sampled colour of the pixel [(x, y)] to the colour stored:
    saturation, colour shift, dithered quantization, clamp. *)
Definition finish (p : Settings) (t : Tables) (st : State) (x y : Z)
    (r g b : R) : R * R * R :=
  let gray := r * 0.299 + g * 0.587 + b * 0.114 in
  let r1 := gray + (r - gray) * saturationBoost p in
  let g1 := gray + (g - gray) * saturationBoost p in
  let b1 := gray + (b - gray) * saturationBoost p in
  let colorT := time st * colorShiftSpeed p in
  let colorNoise := fbm (IZR x * 0.008 + colorT) (IZR y * 0.008 + colorT * 0.7)
                        (noiseTableColor t) 2 in
  let shift := (colorNoise - 0.5) * colorShiftAmount p * 2 in
  let r2 := r1 + shift * 1.2 in
  let g2 := g1 + shift * 0.6 in
  let b2 := b1 - shift * 0.8 in
  let levels := colorLevels p in
  let step := 255 / (levels - 1) in
  let dither := (noise2D (IZR x * 0.5 + IZR (frameCount st) * 0.1) (IZR y * 0.5)
                         (noiseTableColor t) - 0.5) * step * 0.3 in
  (Js.quantizeClamp levels (r2 + dither),
   Js.quantizeClamp levels (g2 + dither),
   Js.quantizeClamp levels (b2 + dither)).

(** The body of the pixel loop of [draw] up to the stores: the colour of
    the pixel [(x, y)], or [None] when a sample was read outside [src]. *)
Definition drawPixel (p : Settings) (t : Tables) (st : State) (src : list Z)
    (width height x y : Z) : option (R * R * R) :=
  let s := sourceAt p t st width height x y in
  match sample src width height (fst s) (snd s) 0,
        sample src width height (fst s) (snd s) 1,
        sample src width height (fst s) (snd s) 2 with
  | Some r, Some g, Some b => Some (finish p t st x y r g b)
  | _, _, _ => None
  end.

(** A frame buffer of bytes of the size of the canvas. *)
Definition frame_ok (src : list Z) (width height : Z) : Prop :=
  Z.of_nat (length src) = (width * height * 4)%Z /\
  Forall (fun v => (0 <= v <= 255)%Z) src.


(** *** [applyPainterlySmooth] *)

Definition smoothRadius (p : Settings) : Z := Js.floor (1 + painterliness p * 2).

Definition colorThreshold (p : Settings) : R := 40 + (1 - painterliness p) * 60.

(** The sums and the count of the window of a pixel. *)
Record Sums : Type := mkSums {
  sumR : R;
  sumG : R;
  sumB : R;
  count : R
}.

(** The body of the two inner loops: the neighbour at [(dx, dy)] of the
    pixel [(x, y)] of [temp] enters the sums when its colour is close to
    the pixel's. *)
Definition smooth_add (temp : list Z) (width x y : Z) (threshold : R)
    (acc : Sums) (d : Z * Z) : Sums :=
  let '(dy, dx) := d in
  let idx := ((y * width + x) * 4)%Z in
  let nidx := (((y + dy) * width + (x + dx)) * 4)%Z in
  let nr := chan temp nidx in
  let ng := chan temp (nidx + 1) in
  let nb := chan temp (nidx + 2) in
  let diff := Rabs (nr - chan temp idx) + Rabs (ng - chan temp (idx + 1))
              + Rabs (nb - chan temp (idx + 2)) in
  if Rlt_dec diff threshold
  then {| sumR := sumR acc + nr; sumG := sumG acc + ng; sumB := sumB acc + nb;
          count := count acc + 1 |}
  else acc.

(** The window of a pixel: [dy] and [dx] from [-radius] to [radius]. *)
Definition window (radius : Z) : list (Z * Z) :=
  Js.pairs (Js.range (- radius) (radius + 1)) (Js.range (- radius) (radius + 1)).

Definition smooth_sums (p : Settings) (temp : list Z) (width x y : Z) : Sums :=
  foldl (smooth_add temp width x y (colorThreshold p))
        {| sumR := 0; sumG := 0; sumB := 0; count := 0 |}
        (window (smoothRadius p)).

(** The body of the two outer loops on the pixel [(x, y)]: [temp] is the
    copy made on entry, [data] the buffer being written. *)
Definition smooth_pixel (p : Settings) (temp : list Z) (width : Z)
    (data : list Z) (c : Z * Z) : list Z :=
  let '(y, x) := c in
  let idx := ((y * width + x) * 4)%Z in
  let s := smooth_sums p temp width x y in
  if Rgt_dec (count s) 0 then
    Js.wr (Js.wr (Js.wr data idx (Js.toUint8Clamp (sumR s / count s)))
                 (idx + 1) (Js.toUint8Clamp (sumG s / count s)))
          (idx + 2) (Js.toUint8Clamp (sumB s / count s))
  else data.

(** The pixels the smoothing visits: every second one, [radius] away from
    the sides. *)
Definition smooth_cells (p : Settings) (width height : Z) : list (Z * Z) :=
  Js.pairs (Js.rangeStep (smoothRadius p) (height - smoothRadius p) 2)
           (Js.rangeStep (smoothRadius p) (width - smoothRadius p) 2).

(** [applyPainterlySmooth(data, width, height)] *)
Definition applyPainterlySmooth (p : Settings) (data : list Z)
    (width height : Z) : list Z :=
  foldl (fun d y =>
     foldl (fun d x => smooth_pixel p data width d (y, x)) d
           (Js.rangeStep (smoothRadius p) (width - smoothRadius p) 2))
    data (Js.rangeStep (smoothRadius p) (height - smoothRadius p) 2).

(** Every pixel of the frame has the colour [(r, g, b)]. *)
Definition flat (data : list Z) (width height r g b : Z) : Prop :=
  forall y x, (0 <= x < width)%Z -> (0 <= y < height)%Z ->
    Js.rd 0%Z data ((y * width + x) * 4) = r /\
    Js.rd 0%Z data ((y * width + x) * 4 + 1) = g /\
    Js.rd 0%Z data ((y * width + x) * 4 + 2) = b.

(** *** [draw] *)

(** What the pixel loop stores for the pixel [(x, y)]: the conversion of a
    store into the [Uint8ClampedArray] rounds a number and turns [NaN] into
    zero; alpha is [255]. *)
Definition stored_pixel (p : Settings) (t : Tables) (st : State) (src : list Z)
    (width height x y : Z) : Z * Z * Z * Z :=
  match drawPixel p t st src width height x y with
  | Some (r, g, b) => (Js.toUint8Clamp r, Js.toUint8Clamp g, Js.toUint8Clamp b, 255%Z)
  | None => (0%Z, 0%Z, 0%Z, 255%Z)
  end.

(** The four stores of the pixel loop. *)
Definition store_pixel (p : Settings) (t : Tables) (st : State) (src : list Z)
    (width height : Z) (dst : list Z) (c : Z * Z) : list Z :=
  let '(y, x) := c in
  let dstIdx := ((y * width + x) * 4)%Z in
  let '(r, g, b, a) := stored_pixel p t st src width height x y in
  Js.wr (Js.wr (Js.wr (Js.wr dst dstIdx r) (dstIdx + 1) g) (dstIdx + 2) b)
        (dstIdx + 3) a.

(** The pixel loop on the zeroed buffer of [createImageData]. *)
Definition pixels (p : Settings) (t : Tables) (st : State) (src : list Z)
    (width height : Z) : list Z :=
  foldl (fun d y =>
     foldl (fun d x => store_pixel p t st src width height d (y, x)) d
           (Js.range 0 width))
    (replicate (Z.to_nat (width * height * 4)) 0%Z) (Js.range 0 height).

(** [this.time += 16; this.frameCount++] *)
Definition tick (st : State) : State :=
  {| time := time st + 16; frameCount := (frameCount st + 1)%Z;
     prevFrame := prevFrame st; motionMap := motionMap st;
     globalMotion := globalMotion st |}.

(** How [draw] ends: at its guard, with an image put on the canvas, or by
    the error of [detectMotion]. *)
Inductive drawn : Type :=
| Skipped
| Painted (st : State) (image : list Z)
| Thrown (st : State).

(** [draw()] up to [putImageData], from the pixels [src] that
    [getImageData] returned for the mirrored frame; the strokes that
    [detectAndDrawEdges] paints over the image are not part of it. *)
Definition draw (p : Settings) (t : Tables) (videoWidth : Z) (st : State)
    (src : list Z) (width height : Z) : drawn :=
  if (videoWidth =? 0)%Z then Skipped
  else
    match detectMotion st src width height with
    | RangeError st' => Thrown st'
    | Done st1 =>
        let st2 := tick st1 in
        let dst := pixels p t st2 src width height in
        Painted st2
          (if Rgt_dec (painterliness p) 0.2
           then applyPainterlySmooth p dst width height
           else dst)
    end.



(** *** [detectAndDrawEdges] and [addSketchyMarks] *)

(** A stroke of [detectAndDrawEdges]: the points of [moveTo] and [lineTo],
    the three colour numbers and the opacity of [strokeStyle], and the line
    width. *)
Record EdgeStroke : Type := mkEdgeStroke {
  fromX : R;
  fromY : R;
  toX : R;
  toY : R;
  edgeR : Z;
  edgeG : Z;
  edgeB : Z;
  alpha : R;
  lineWidth : R
}.

(** [(src[idx] + src[idx + 1] + src[idx + 2]) / 3] *)
Definition lum3 (src : list Z) (idx : Z) : R :=
  (chan src idx + chan src (idx + 1) + chan src (idx + 2)) / 3.

Definition edgeStep : Z := 3.

Definition edgeThreshold : R := 25.

(** [gx] and [gy] at the pixel [(x, y)]. *)
Definition gradient (src : list Z) (width x y : Z) : R * R :=
  let idxL := ((y * width + (x - edgeStep)) * 4)%Z in
  let idxR := ((y * width + (x + edgeStep)) * 4)%Z in
  let idxU := (((y - edgeStep) * width + x) * 4)%Z in
  let idxD := (((y + edgeStep) * width + x) * 4)%Z in
  (lum3 src idxR - lum3 src idxL, lum3 src idxD - lum3 src idxU).

(** [edgeMotionMult] *)
Definition edgeMotionMult (st : State) (x y width height : Z) : R :=
  1 + getMotionAt st x y width height * 12 + globalMotion st * 6.

(** [wobbleX] and [wobbleY] of an edge point. *)
Definition edgeWobble (p : Settings) (t : Tables) (st : State)
    (width height x y : Z) : R * R :=
  let tt := time st * wobbleSpeed p * 2 in
  let mult := edgeMotionMult st x y width height in
  ((noise2D (IZR x * 0.08 + tt * 3) (IZR y * 0.08) (noiseTableX t) - 0.5)
   * wobbleIntensity p * 4 * mult,
   (noise2D (IZR x * 0.08) (IZR y * 0.08 + tt * 3.5) (noiseTableY t) - 0.5)
   * wobbleIntensity p * 4 * mult).

(** [strokeLen] *)
Definition strokeLen (t : Tables) (st : State) (width height x y : Z) : R :=
  (1.5 + noise2D (IZR x * 0.1) (IZR y * 0.1) (noiseTableX t) * 2)
  * (1 + getMotionAt st x y width height * 3).

(** The body of the two loops of [detectAndDrawEdges] at the pixel
    [(x, y)]: the stroke it draws, if any. *)
Definition edge_at (p : Settings) (t : Tables) (st : State) (src : list Z)
    (width height x y : Z) : option EdgeStroke :=
  let g := gradient src width x y in
  let magnitude := sqrt (fst g * fst g + snd g * snd g) in
  if Rgt_dec magnitude edgeThreshold then
    let localMotion := getMotionAt st x y width height in
    let w := edgeWobble p t st width height x y in
    let drawX := IZR x + fst w in
    let drawY := IZR y + snd w in
    let colorVar := noise2D (IZR x * 0.02 + IZR (frameCount st) * 0.05)
                            (IZR y * 0.02) (noiseTableColor t) in
    let angle := Js.atan2 (snd g) (fst g) + PI / 2 in
    let len := strokeLen t st width height x y in
    Some {| fromX := drawX - cos angle * len;
            fromY := drawY - sin angle * len;
            toX := drawX + cos angle * len;
            toY := drawY + sin angle * len;
            edgeR := Js.floor (20 + colorVar * 30);
            edgeG := Js.floor (15 + colorVar * 25);
            edgeB := Js.floor (25 + colorVar * 20);
            alpha := Rmin 1 (magnitude / 80) * edgeOpacity p;
            lineWidth := edgeThickness p * (1 + localMotion * 2) |}
  else None.

(** The strokes of the two loops, in the order they are drawn. *)
Definition edgeStrokes (p : Settings) (t : Tables) (st : State) (src : list Z)
    (width height : Z) : list EdgeStroke :=
  flat_map (fun c => match edge_at p t st src width height (snd c) (fst c) with
                     | Some s => [s]
                     | None => []
                     end)
           (Js.pairs (Js.rangeStep edgeStep (height - edgeStep) edgeStep)
                     (Js.rangeStep edgeStep (width - edgeStep) edgeStep)).

(** A mark of [addSketchyMarks]. *)
Record Mark : Type := mkMark {
  markFromX : R;
  markFromY : R;
  markToX : R;
  markToY : R;
  markAlpha : R;
  markWidth : R
}.

(** One turn of the loop of [addSketchyMarks]: the mark it draws, if any.
    The random numbers for the line width and the end of the mark are drawn
    only when the noise lets the mark through. *)
Definition sketchyMark (p : Settings) (t : Tables) (st : State)
    (width height : Z) : Rng.M (option Mark) :=
  (let* rx := Rng.random in
   let* ry := Rng.random in
   let x := rx * IZR width in
   let y := ry * IZR height in
   let tt := time st * wobbleSpeed p in
   let noise := noise2D (x * 0.01 + tt) (y * 0.01) (noiseTableColor t) in
   if Rgt_dec noise 0.6 then
     let* rw := Rng.random in
     let wobbleX := (noise2D (x * 0.1 + tt) (y * 0.1) (noiseTableX t) - 0.5) * 5 in
     let wobbleY := (noise2D (x * 0.1) (y * 0.1 + tt) (noiseTableY t) - 0.5) * 5 in
     let* r1 := Rng.random in
     let* r2 := Rng.random in
     Rng.ret (Some {| markFromX := x + wobbleX;
                      markFromY := y + wobbleY;
                      markToX := x + wobbleX + (r1 - 0.5) * 8;
                      markToY := y + wobbleY + (r2 - 0.5) * 8;
                      markAlpha := (noise - 0.6) * 0.3 * edgeOpacity p;
                      markWidth := 0.5 + rw |})
   else Rng.ret None)%rng.

(** [n] turns of the loop. *)
Fixpoint sketchyMarks (n : nat) (p : Settings) (t : Tables) (st : State)
    (width height : Z) : Rng.M (list Mark) :=
  match n with
  | O => Rng.ret []
  | S n' =>
      (let* m := sketchyMark p t st width height in
       let* rest := sketchyMarks n' p t st width height in
       Rng.ret (match m with Some k => k :: rest | None => rest end))%rng
  end.

(** [numMarks] *)
Definition numMarks (p : Settings) : Z := Js.floor (5 + painterliness p * 10).

(** [addSketchyMarks(width, height)] *)
Definition addSketchyMarks (p : Settings) (t : Tables) (st : State)
    (width height : Z) : Rng.M (list Mark) :=
  sketchyMarks (Z.to_nat (numMarks p)) p t st width height.

(** [detectAndDrawEdges(src, width, height)]: the strokes and the marks it
    draws, in this order. *)
Definition detectAndDrawEdges (p : Settings) (t : Tables) (st : State)
    (src : list Z) (width height : Z) : Rng.M (list EdgeStroke * list Mark) :=
  if Rlt_dec (edgeOpacity p) 0.05 then Rng.ret ([], [])
  else if (Z.rem (frameCount st) 3 =? 0)%Z then
    (let* marks := addSketchyMarks p t st width height in
     Rng.ret (edgeStrokes p t st src width height, marks))%rng
  else Rng.ret (edgeStrokes p t st src width height, []).

(** The three tables have their [512 * 512] entries, all in [[0, 1]]. *)
Definition tables_ok (t : Tables) : Prop :=
  (noise_table (noiseTableX t) /\ Forall (fun v => 0 <= v <= 1) (noiseTableX t)) /\
  (noise_table (noiseTableY t) /\ Forall (fun v => 0 <= v <= 1) (noiseTableY t)) /\
  (noise_table (noiseTableColor t) /\ Forall (fun v => 0 <= v <= 1) (noiseTableColor t)).

(** What holds of a stroke drawn at the pixel [(x, y)]: the gradient is
    longer than the threshold; the stroke is at right angles to it, has its
    middle within the wobble of the pixel and a length between 3 and 28;
    its opacity, line width and colour numbers are within their ranges. *)
Definition along_edge (p : Settings) (src : list Z) (width x y : Z)
    (s : EdgeStroke) : Prop :=
  let g := gradient src width x y in
  edgeThreshold * edgeThreshold < fst g * fst g + snd g * snd g /\
  (toX s - fromX s) * fst g + (toY s - fromY s) * snd g = 0 /\
  Rabs ((fromX s + toX s) / 2 - IZR x) <= 38 * wobbleIntensity p /\
  Rabs ((fromY s + toY s) / 2 - IZR y) <= 38 * wobbleIntensity p /\
  9 <= (toX s - fromX s) * (toX s - fromX s)
       + (toY s - fromY s) * (toY s - fromY s) <= 784 /\
  0.3125 * edgeOpacity p < alpha s <= edgeOpacity p /\
  edgeThickness p <= lineWidth s <= 3 * edgeThickness p /\
  (20 <= edgeR s <= 50)%Z /\ (15 <= edgeG s <= 40)%Z /\ (25 <= edgeB s <= 45)%Z.

(** What holds of a mark: it starts within the wobble of a point of the
    canvas, is at most 4 long in each direction, and its opacity and width
    are within their ranges. *)
Definition sketched (p : Settings) (width height : Z) (m : Mark) : Prop :=
  -2.5 <= markFromX m <= IZR width + 2.5 /\
  -2.5 <= markFromY m <= IZR height + 2.5 /\
  Rabs (markToX m - markFromX m) <= 4 /\
  Rabs (markToY m - markFromY m) <= 4 /\
  0 < markAlpha m <= 0.12 * edgeOpacity p /\
  0.5 <= markWidth m < 1.5.

(** Example inputs: a red and a black frame of 16 by 16 pixels, a filter
    that has seen the black one, a filter at rest on a 32 by 32 canvas, and
    a noise table drawn from a fixed generator. *)
Definition redFrame : list Z := concat (replicate 256 [255; 0; 0; 255]%Z).
Definition blackFrame : list Z := concat (replicate 256 [0; 0; 0; 255]%Z).
Definition sawBlack : State :=
  {| time := 16; frameCount := 1; prevFrame := Some blackFrame;
     motionMap := Some [0]; globalMotion := 0 |}.
Definition atRest : State :=
  {| time := 160; frameCount := 10;
     prevFrame := Some (concat (replicate 1024 [0; 0; 0; 255]%Z));
     motionMap := Some [0; 0; 0; 0]; globalMotion := 0 |}.
Definition exampleTable : list R :=
  fst (generateNoiseTable (fun n => INR (n mod 1000) / 1000)).


(** Three tables that hold [0.9] everywhere: the noise is [0.9] at every
    point, so [addSketchyMarks] draws a mark on each of its attempts. *)
Definition brightTable : list R := replicate (Z.to_nat (size * size)) 0.9.
Definition brightTables : Tables :=
  {| noiseTableX := brightTable; noiseTableY := brightTable;
     noiseTableColor := brightTable |}.

(** The filter on the same canvas while its four blocks still hold motion. *)
Definition stirred : State :=
  {| time := 160; frameCount := 10;
     prevFrame := Some (concat (replicate 1024 [0; 0; 0; 255]%Z));
     motionMap := Some [0.5; 0.2; 0; 1]; globalMotion := 0.4 |}.

(** A frame of 16 by 16 pixels whose four left columns are black and whose
    other columns are white, the three tables equal to the example table,
    and the stroke drawn at the pixel [(3, 3)] of that frame. *)
Definition stepFrame : list Z :=
  concat (replicate 16 (concat (replicate 4 [0; 0; 0; 255]%Z)
                        ++ concat (replicate 12 [255; 255; 255; 255]%Z))).
Definition exampleTables : Tables :=
  {| noiseTableX := exampleTable; noiseTableY := exampleTable;
     noiseTableColor := exampleTable |}.
Definition exampleStroke : EdgeStroke :=
  match edge_at defaults exampleTables sawBlack stepFrame 16 16 3 3 with
  | Some s => s
  | None => {| fromX := 0; fromY := 0; toX := 0; toY := 0;
               edgeR := 0; edgeG := 0; edgeB := 0; alpha := 0; lineWidth := 0 |}
  end.

End WakingLife.

(** ** ArcherFilter ([src/unnamed/part_001]), the cel-shade filter *)

Module Archer.

(** The settings of the filter. *)
Record Params : Type := mkParams {
  edgeThickness : R;
  colorLevels : R;
  shadowIntensity : R;
  highlightBoost : R;
  saturationBoost : R
}.

(** The settings the constructor installs. *)
Definition defaults : Params :=
  {| edgeThickness := 3; colorLevels := 6; shadowIntensity := 5;
     highlightBoost := 5; saturationBoost := 6 |}.

Definition sobelX : list (list R) := [[-1; 0; 1]; [-2; 0; 2]; [-1; 0; 1]].
Definition sobelY : list (list R) := [[-1; -2; -1]; [0; 0; 0]; [1; 2; 1]].

(** [kernel[ky + 1][kx + 1]] *)
Definition kernel (k : list (list R)) (ky kx : Z) : R :=
  Js.rd 0 (Js.rd [] k (ky + 1)) (kx + 1).

(** A channel of a pixel buffer as a number. *)
Definition chan (a : list Z) (i : Z) : R := IZR (Js.rd 0%Z a i).

(** The luminance of the pixel that starts at index [idx]. *)
Definition lumAt (src : list Z) (idx : Z) : R :=
  Js.luma (chan src idx) (chan src (idx + 1)) (chan src (idx + 2)).

(** The two Sobel sums [(gx, gy)] around the pixel [(x, y)]. *)
Definition sobel (src : list Z) (width x y : Z) : R * R :=
  foldl (fun g ky =>
     foldl (fun g kx =>
        let nidx := (((y + ky) * width + (x + kx)) * 4)%Z in
        let nLum := lumAt src nidx in
        (fst g + nLum * kernel sobelX ky kx, snd g + nLum * kernel sobelY ky kx))
       g (Js.range (-1) 2))
    (0, 0) (Js.range (-1) 2).

Definition edgeMagnitude (src : list Z) (width x y : Z) : R :=
  let g := sobel src width x y in
  sqrt (fst g * fst g + snd g * snd g).

(** One channel [v] of a pixel of luminance [lum] through the saturation
    boost and the shadow or highlight scaling. *)
Definition tone (p : Params) (lum v : R) : R :=
  let gray := lum in
  let satMult := 1 + (saturationBoost p - 5) * 0.15 in
  let v1 := gray + (v - gray) * satMult in
  let shadowMult := shadowIntensity p / 5 in
  let highlightMult := highlightBoost p / 5 in
  if Rlt_dec lum 80 then
    v1 * (0.7 + (1 - shadowMult) * 0.3)
  else if Rgt_dec lum 180 then
    Rmin 255 (v1 * (1 + (highlightMult - 1) * 0.2))
  else v1.

(** One channel as the first pass stores it: toned, quantized, clamped and
    converted by the byte array. *)
Definition shade (p : Params) (lum v : R) : Z :=
  Js.toUint8Clamp (Js.quantizeClamp (colorLevels p) (tone p lum v)).

(** The two buffers the passes fill: the output pixels and the edge map. *)
Record Buffers : Type := mkBuffers {
  dst : list Z;
  edges : list R
}.

(** The body of the first pass at the pixel [(x, y)]. *)
Definition pass1_pixel (p : Params) (src : list Z) (width : Z)
    (b : Buffers) (c : Z * Z) : Buffers :=
  let '(y, x) := c in
  let idx := ((y * width + x) * 4)%Z in
  let r := chan src idx in
  let g := chan src (idx + 1) in
  let bl := chan src (idx + 2) in
  let lum := Js.luma r g bl in
  let edges' := Js.wr (edges b) (y * width + x) (edgeMagnitude src width x y) in
  let d1 := Js.wr (dst b) idx (shade p lum r) in
  let d2 := Js.wr d1 (idx + 1) (shade p lum g) in
  let d3 := Js.wr d2 (idx + 2) (shade p lum bl) in
  let d4 := Js.wr d3 (idx + 3) 255%Z in
  {| dst := d4; edges := edges' |}.

(** The first pass: [y] from [1] to [height - 2], [x] from [1] to
    [width - 2]. *)
Definition pass1 (p : Params) (src : list Z) (width height : Z) (b : Buffers) : Buffers :=
  foldl (fun b y =>
     foldl (fun b x => pass1_pixel p src width b (y, x)) b (Js.range 1 (width - 1)))
    b (Js.range 1 (height - 1)).

Definition edgeThreshold : R := 30.

(** The largest edge value within distance [thickness] of [(x, y)]. *)
Definition maxEdge (edges : list R) (width thickness x y : Z) : R :=
  foldl (fun m dy =>
     foldl (fun m dx =>
        let dist := sqrt (IZR (dx * dx + dy * dy)) in
        if Rle_dec dist (IZR thickness)
        then Rmax m (Js.rd 0 edges ((y + dy) * width + (x + dx)))
        else m)
       m (Js.range (- thickness) (thickness + 1)))
    0 (Js.range (- thickness) (thickness + 1)).

(** A channel darkened in place: read back as a byte, scaled, stored. *)
Definition darken (d : list Z) (i : Z) (darkness : R) : list Z :=
  Js.wr d i (Js.toUint8Clamp (chan d i * (1 - darkness))).

(** The body of the second pass at the pixel [(x, y)]. *)
Definition pass2_pixel (width thickness : Z) (edges : list R)
    (d : list Z) (c : Z * Z) : list Z :=
  let '(y, x) := c in
  let idx := ((y * width + x) * 4)%Z in
  let m := maxEdge edges width thickness x y in
  if Rgt_dec m edgeThreshold then
    let edgeFactor := Rmin 1 ((m - edgeThreshold) / 100) in
    let darkness := edgeFactor * 0.85 in
    darken (darken (darken d idx darkness) (idx + 1) darkness) (idx + 2) darkness
  else d.

(** The second pass, [thickness = Math.floor(edgeThickness)] away from the
    border. *)
Definition pass2 (p : Params) (width height : Z) (b : Buffers) : Buffers :=
  let thickness := Js.floor (edgeThickness p) in
  {| dst :=
       foldl (fun d y =>
          foldl (fun d x => pass2_pixel width thickness (edges b) d (y, x))
                d (Js.range thickness (width - thickness)))
         (dst b) (Js.range thickness (height - thickness));
     edges := edges b |}.

(** A stroke [drawOutlines] sends to the canvas. *)
Record Stroke : Type := mkStroke {
  fromX : Z; fromY : Z; toX : Z; toY : Z;
  alpha : R;
  lineWidth : R
}.

Definition outlineThreshold : R := 40.
Definition outlineStep : Z := 2.

(** [neighbors], as [(dx, dy)]. *)
Definition neighbors : list (Z * Z) :=
  [(outlineStep, 0%Z); (0%Z, outlineStep); (outlineStep, outlineStep);
   ((- outlineStep)%Z, outlineStep)].

(** The strokes that start at the grid point [(x, y)]. *)
Definition outlines_at (p : Params) (edges : list R) (width height : Z)
    (c : Z * Z) : list Stroke :=
  let '(y, x) := c in
  let edgeVal := Js.rd 0 edges (y * width + x) in
  if Rgt_dec edgeVal outlineThreshold then
    flat_map (fun n : Z * Z =>
      let nx := (x + fst n)%Z in
      let ny := (y + snd n)%Z in
      if ((0 <=? nx) && (nx <? width) && (0 <=? ny) && (ny <? height))%Z then
        let neighborEdge := Js.rd 0 edges (ny * width + nx) in
        if Rgt_dec neighborEdge outlineThreshold then
          let strength := Rmin 1 (Rmin edgeVal neighborEdge / 150) in
          [ {| fromX := x; fromY := y; toX := nx; toY := ny;
               alpha := 0.6 + strength * 0.4;
               lineWidth := edgeThickness p * 0.8 |} ]
        else []
      else [])
      neighbors
  else [].

(** [drawOutlines(edges, width, height)]: the strokes, in drawing order. *)
Definition drawOutlines (p : Params) (edges : list R) (width height : Z) : list Stroke :=
  flat_map (outlines_at p edges width height)
    (Js.pairs (Js.rangeStep outlineStep (height - outlineStep) outlineStep)
              (Js.rangeStep outlineStep (width - outlineStep) outlineStep)).

(** What a call of [draw] leaves: the image it puts on the canvas and the
    strokes it draws over it. *)
Record Output : Type := mkOutput {
  image : list Z;
  strokes : list Stroke
}.

(** [createImageData(width, height)] and [new Float32Array(width * height)]:
    all zeros. *)
Definition fresh (width height : Z) : Buffers :=
  {| dst := replicate (Z.to_nat (width * height * 4)) 0%Z;
     edges := replicate (Z.to_nat (width * height)) 0 |}.

(** The body of [draw()] past its guard, from the pixels [src] that
    [getImageData] returned for the mirrored frame. *)
Definition render (p : Params) (width height : Z) (src : list Z) : Output :=
  let b := pass2 p width height (pass1 p src width height (fresh width height)) in
  {| image := dst b; strokes := drawOutlines p (edges b) width height |}.

(** [draw()]; [None] when the video has no frame yet. *)
Definition draw (p : Params) (videoWidth width height : Z) (src : list Z) : option Output :=
  if (videoWidth =? 0)%Z then None else Some (render p width height src).

(** A frame of [width] by [height] pixels, as [getImageData] returns it:
    four bytes a pixel. *)
Definition frame (width height : Z) (src : list Z) : Prop :=
  (0 < width)%Z /\ (0 < height)%Z /\
  Z.of_nat (length src) = (width * height * 4)%Z /\
  Forall (fun v => (0 <= v <= 255)%Z) src.

(** A frame whose pixels all have the colour [(r, g, b, a)]. *)
Definition uniform (width height : Z) (src : list Z) (r g b a : Z) : Prop :=
  frame width height src /\
  forall i, (0 <= i < width * height)%Z ->
    Js.rd 0%Z src (i * 4) = r /\ Js.rd 0%Z src (i * 4 + 1) = g /\
    Js.rd 0%Z src (i * 4 + 2) = b /\ Js.rd 0%Z src (i * 4 + 3) = a.

(** The pixel [(x, y)] lies on the outermost one-pixel border. *)
Definition on_border (width height x y : Z) : Prop :=
  (0 <= x < width)%Z /\ (0 <= y < height)%Z /\
  (x = 0 \/ x = width - 1 \/ y = 0 \/ y = height - 1)%Z.

(** The pixel [(x, y)] is one the first pass visits. *)
Definition interior (width height x y : Z) : Prop :=
  (1 <= x < width - 1)%Z /\ (1 <= y < height - 1)%Z.

(** The four channels of the pixel [(x, y)] of an image. *)
Definition pixel (img : list Z) (width x y : Z) : Z * Z * Z * Z :=
  let idx := ((y * width + x) * 4)%Z in
  (Js.rd 0%Z img idx, Js.rd 0%Z img (idx + 1),
   Js.rd 0%Z img (idx + 2), Js.rd 0%Z img (idx + 3)).

(** The four channels the first pass computes for the pixel [(x, y)]. *)
Definition shaded (p : Params) (src : list Z) (width x y : Z) : Z * Z * Z * Z :=
  let idx := ((y * width + x) * 4)%Z in
  let lum := lumAt src idx in
  (shade p lum (chan src idx), shade p lum (chan src (idx + 1)),
   shade p lum (chan src (idx + 2)), 255%Z).


(** The pixels the first pass visits, as [(y, x)], in the order of its
    loops. *)
Definition interior_cells (width height : Z) : list (Z * Z) :=
  Js.pairs (Js.range 1 (height - 1)) (Js.range 1 (width - 1)).

(** The border pixels of the output are zero in all four channels. *)
Definition border_clear (width height : Z) (d : list Z) : Prop :=
  forall x y c, on_border width height x y -> (0 <= c < 4)%Z ->
    Js.rd 0%Z d ((y * width + x) * 4 + c) = 0%Z.

(** The border entries of the edge map are zero. *)
Definition edges_border_clear (width height : Z) (e : list R) : Prop :=
  forall x y, on_border width height x y -> Js.rd 0 e (y * width + x) = 0.

(** What the first pass has stored once it has visited the pixels [seen]. *)
Definition stored (p : Params) (src : list Z) (width height : Z)
    (seen : list (Z * Z)) (b : Buffers) : Prop :=
  Z.of_nat (length (dst b)) = (width * height * 4)%Z /\
  forall y x, (y, x) ∈ seen ->
    pixel (dst b) width x y = shaded p src width x y.


(** Example input: a dark gray frame of 3 by 3 pixels. *)
Definition grayFrame : list Z := concat (replicate 9 [30; 30; 30; 255]%Z).


(** Example input: a frame of 3 by 3 pixels with a black, a gray and a
    white column, and the default settings with the edge slider at [1]. *)
Definition edgeFrame : list Z :=
  concat (replicate 3 [0; 0; 0; 255; 128; 128; 128; 255; 255; 255; 255; 255]%Z).
Definition thin : Params :=
  {| edgeThickness := 1; colorLevels := 6; shadowIntensity := 5;
     highlightBoost := 5; saturationBoost := 6 |}.



(** Example input: the edge map of a 5 by 5 canvas with two strong edges,
    at [(2, 2)] and [(4, 2)], and the stroke that joins them. *)
Definition twoEdges : list R :=
  [0; 0; 0; 0; 0;
   0; 0; 0; 0; 0;
   0; 0; 50; 0; 90;
   0; 0; 0; 0; 0;
   0; 0; 0; 0; 0].
Definition joining : Stroke :=
  {| fromX := 2; fromY := 2; toX := 4; toY := 2;
     alpha := 0.6 + Rmin 1 (Rmin 50 90 / 150) * 0.4;
     lineWidth := 3 * 0.8 |}.

(** A buffer of [n] bytes. *)
Definition byte (v : Z) : Prop := (0 <= v <= 255)%Z.
Definition well_sized (n : nat) (d : list Z) : Prop :=
  length d = n /\ Forall byte d.

(** [v'] is [v] darkened: not above it, and not below [0.15 * v] by more
    than the rounding of the byte store. *)
Definition dimmed (v' v : Z) : Prop :=
  (v' <= v)%Z /\ 0.15 * IZR v - 0.5 <= IZR v'.

(** What the second pass has done to the buffer [d0] once it has visited the
    pixels [seen]: it has darkened their colour channels and left the others
    alone. *)
Definition darkened (width : Z) (d0 : list Z) (seen : list (Z * Z)) (d : list Z) : Prop :=
  length d = length d0 /\
  forall y x c, (0 <= x < width)%Z -> (0 <= c < 3)%Z ->
    if decide ((y, x) ∈ seen)
    then dimmed (Js.rd 0%Z d ((y * width + x) * 4 + c))
                (Js.rd 0%Z d0 ((y * width + x) * 4 + c))
    else Js.rd 0%Z d ((y * width + x) * 4 + c) = Js.rd 0%Z d0 ((y * width + x) * 4 + c).

End Archer.

(** ** MatrixFilter ([src/app.js]) *)

Module Matrix.

(** [matrixChars]: the half-width katakana U+FF66 to U+FF9D, as code
    points. *)
Definition matrixChars : list Z := seqZ 65382 56.

(** A glyph is an entry of [matrixChars], or [undefined] ([None]) when the
    index falls outside. *)
Definition Glyph : Type := option Z.

(** A cell of the grid. *)
Record Cell : Type := mkCell {
  char : Glyph;
  brightness : R;
  targetBrightness : R;
  changeTimer : R
}.

(** A stream; [sx] and [sy] are the fields [x] and [y] of the source. *)
Record Stream : Type := mkStream {
  sx : Z;
  sy : R;
  speed : R;
  length : Z
}.

(** A particle; [px], [py] and [pchar] are the fields [x], [y] and [char]
    of the source. *)
Record Particle : Type := mkParticle {
  px : R;
  py : R;
  vx : R;
  vy : R;
  life : R;
  decay : R;
  pchar : Glyph;
  isWhite : bool;
  hasGravity : bool
}.

(** The fields of the filter that the modelled methods read or write. *)
Record State : Type := mkState {
  gridWidth : Z;
  gridHeight : Z;
  grid : list (list Cell);
  streams : list Stream;
  explosions : list Particle;
  videoWidth : Z;
  videoHeight : Z;
  brightnessData : option (list Z);
  fallSpeed : R;
  brightnessSensitivity : R;
  contrast : R
}.

(** [Math.pow(x, e)] for a base [x >= 0], the only bases the filter raises:
    [1] for a zero exponent, [0] for a zero base and positive exponent,
    [exp (e * ln x)] for a positive base.  A zero base with a negative
    exponent is [+Infinity] in JavaScript and has no value here. *)
Definition pow (x e : R) : R :=
  if Req_dec_T e 0 then 1
  else if Rlt_dec 0 x then Rpower x e
  else 0.

(** [getRandomChar()] *)
Definition getRandomChar : Rng.M Glyph :=
  (let* r := Rng.random in
   let i := Js.floor (r * IZR (Z.of_nat (List.length matrixChars))) in
   Rng.ret (if (i <? 0)%Z then None else matrixChars !! Z.to_nat i))%rng.

Definition sampleRadius : Z := 2.

(** A channel of the brightness buffer as a number. *)
Definition chan (a : list Z) (i : Z) : R := IZR (Js.rd 0%Z a i).

(** The two loops of [getBrightnessAt]: [total] and [samples] over the
    clamped neighbourhood of [(vx, vy)]. *)
Definition sampleSum (data : list Z) (videoWidth videoHeight vx vy : Z) : R * R :=
  foldl (fun acc dx =>
     foldl (fun acc dy =>
        let px := Z.max 0 (Z.min (videoWidth - 1) (vx + dx)) in
        let py := Z.max 0 (Z.min (videoHeight - 1) (vy + dy)) in
        let idx := ((py * videoWidth + px) * 4)%Z in
        let r := chan data idx in
        let g := chan data (idx + 1) in
        let b := chan data (idx + 2) in
        (fst acc + (r * 0.299 + g * 0.587 + b * 0.114) / 255, snd acc + 1))
       acc (Js.range (- sampleRadius) (sampleRadius + 1)))
    (0, 0) (Js.range (- sampleRadius) (sampleRadius + 1)).

(** The sampled brightness: [total / samples]. *)
Definition sampleBrightness (st : State) (data : list Z) (gridX gridY : Z) : R :=
  let vx := Js.floor (IZR gridX / IZR (gridWidth st) * IZR (videoWidth st)) in
  let vy := Js.floor (IZR gridY / IZR (gridHeight st) * IZR (videoHeight st)) in
  let acc := sampleSum data (videoWidth st) (videoHeight st) vx vy in
  fst acc / snd acc.

(** The last four statements of [getBrightnessAt]: contrast around [0.5],
    clamp to [[0, 1]], sensitivity exponent. *)
Definition adjust (contrast brightnessSensitivity brightness : R) : R :=
  let contrastFactor := contrast / 5 in
  let b1 := (brightness - 0.5) * contrastFactor + 0.5 in
  let b2 := Rmax 0 (Rmin 1 b1) in
  pow b2 (2 - brightnessSensitivity / 5).

(** [getBrightnessAt(gridX, gridY)] *)
Definition getBrightnessAt (st : State) (gridX gridY : Z) : R :=
  match brightnessData st with
  | None => 0
  | Some data =>
      adjust (contrast st) (brightnessSensitivity st)
             (sampleBrightness st data gridX gridY)
  end.

(** [this.grid[x][y]]; the grid that [initGrid] builds has [gridWidth]
    columns of [gridHeight] cells. *)
Definition cellAt (g : list (list Cell)) (x y : Z) : Cell :=
  Js.rd {| char := None; brightness := 0; targetBrightness := 0; changeTimer := 0 |}
        (Js.rd [] g x) y.

(** The average brightness of column [x]. *)
Definition avgBrightness (st : State) (x : Z) : R :=
  foldl (fun a y => a + brightness (cellAt (grid st) x y)) 0
        (Js.range 0 (gridHeight st))
  / IZR (gridHeight st).

(** Where the head of a stream is after the advance of [updateStreams]. *)
Definition advance (st : State) (s : Stream) : R :=
  let speedMod := 0.5 + avgBrightness st (sx s) * 1.5 in
  sy s + speed s * (fallSpeed st / 5) * speedMod.

(** The body of the loop of [updateStreams] for one stream. *)
Definition updateStream (st : State) (s : Stream) : Rng.M Stream :=
  let y := advance st s in
  if Rgt_dec (y - IZR (length s)) (IZR (gridHeight st)) then
    (let* r1 := Rng.random in
     let* r2 := Rng.random in
     Rng.ret {| sx := sx s;
                sy := - IZR (length s);
                speed := 0.3 + r1 * 0.4;
                length := (5 + Js.floor (r2 * 15))%Z |})%rng
  else
    Rng.ret {| sx := sx s; sy := y; speed := speed s; length := length s |}.

(** [updateStreams()]: the streams in order. *)
Fixpoint updateStreamList (st : State) (l : list Stream) : Rng.M (list Stream) :=
  match l with
  | [] => Rng.ret []
  | s :: rest =>
      (let* s' := updateStream st s in
       let* rest' := updateStreamList st rest in
       Rng.ret (s' :: rest'))%rng
  end.

(** The streams [initGrid] creates for the columns [xs]. *)
Fixpoint initStreams (gridHeight : Z) (xs : list Z) : Rng.M (list Stream) :=
  match xs with
  | [] => Rng.ret []
  | x :: rest =>
      (let* r0 := Rng.random in
       let* r1 := Rng.random in
       let* r2 := Rng.random in
       let* rest' := initStreams gridHeight rest in
       Rng.ret ({| sx := x;
                   sy := r0 * IZR gridHeight;
                   speed := 0.3 + r1 * 0.4;
                   length := (5 + Js.floor (r2 * 15))%Z |} :: rest'))%rng
  end.

(** The bounds the code gives to the speed and the trail length of a
    stream. *)
Definition minLength : Z := 5.
Definition maxLength : Z := 19.

Definition stream_ok (s : Stream) : Prop :=
  0.3 <= speed s < 0.7 /\ (minLength <= length s <= maxLength)%Z.

(** The body of the loop of [updateExplosions] on one particle: the moved
    and aged particle, and whether it stays in the pool. *)
Definition updateParticle (p : Particle) : Rng.M (Particle * bool) :=
  let x1 := px p + vx p in
  let y1 := py p + vy p in
  let vy1 := if hasGravity p then vy p + 0.02 else vy p in
  let life1 := life p - decay p in
  (let* r := Rng.random in
   let* c := (if Rlt_dec r 0.05 then getRandomChar else Rng.ret (pchar p)) in
   Rng.ret ({| px := x1; py := y1; vx := vx p; vy := vy1;
               life := life1; decay := decay p; pchar := c;
               isWhite := isWhite p; hasGravity := hasGravity p |},
            if Rle_dec life1 0 then false else true))%rng.

(** The loop of [updateExplosions].  It runs from the last index down to
    [0], so the particles behind one are handled before it, and a particle
    whose life has run out is spliced out on the spot. *)
Fixpoint updateParticles (l : list Particle) : Rng.M (list Particle) :=
  match l with
  | [] => Rng.ret []
  | p :: rest =>
      (let* rest' := updateParticles rest in
       let* q := updateParticle p in
       Rng.ret (if snd q then fst q :: rest' else rest'))%rng
  end.

Definition maxParticles : nat := 500.

(** [if (length > 500) explosions.splice(0, length - 500)] *)
Definition trim (l : list Particle) : list Particle :=
  if (maxParticles <? List.length l)%nat
  then drop (List.length l - maxParticles) l
  else l.

(** [updateExplosions()] on the pool. *)
Definition updateExplosions (l : list Particle) : Rng.M (list Particle) :=
  (let* l' := updateParticles l in Rng.ret (trim l'))%rng.

(** One particle of [createExplosion] around [(x, y)]. *)
Definition newParticle (x y spreadX spreadY : R) : Rng.M Particle :=
  (let* r0 := Rng.random in
   let isStationary := if Rlt_dec r0 0.4 then true else false in
   let* vx0 := (if isStationary then Rng.ret 0
                else let* r := Rng.random in Rng.ret ((r - 0.5) * 0.3)) in
   let* vy0 := (if isStationary then Rng.ret 0
                else let* r := Rng.random in Rng.ret ((r - 0.5) * 0.3)) in
   let* r3 := Rng.random in
   let* r4 := Rng.random in
   let offsetX := (r3 - 0.5) * spreadX in
   let offsetY := (r4 - 0.5) * spreadY in
   let* r5 := Rng.random in
   let* c := getRandomChar in
   let* r6 := Rng.random in
   let* r7 := Rng.random in
   Rng.ret {| px := x + offsetX; py := y + offsetY; vx := vx0; vy := vy0;
              life := 1; decay := 0.006 + r5 * 0.01; pchar := c;
              isWhite := if Rlt_dec r6 0.5 then true else false;
              hasGravity := if Rlt_dec r7 0.3 then true else false |})%rng.

(** The loop of [createExplosion]: [n] particles pushed onto the pool. *)
Fixpoint pushParticles (n : nat) (x y spreadX spreadY : R) (pool : list Particle)
    : Rng.M (list Particle) :=
  match n with
  | O => Rng.ret pool
  | S n' =>
      (let* q := newParticle x y spreadX spreadY in
       pushParticles n' x y spreadX spreadY (pool ++ [q]))%rng
  end.

(** [createExplosion(x, y, intensity)] on a canvas of the given size. *)
Definition createExplosion (canvasWidth canvasHeight : Z) (x y intensity : R)
    (pool : list Particle) : Rng.M (list Particle) :=
  (let* r := Rng.random in
   let sizeMultiplier := 0.15 + r * 0.1 in
   let spreadX := IZR canvasWidth * sizeMultiplier in
   let spreadY := IZR canvasHeight * sizeMultiplier in
   let particleCount := (15 + Js.floor (intensity * 30))%Z in
   pushParticles (Z.to_nat particleCount) x y spreadX spreadY pool)%rng.

(** The grid and the video buffer have the sizes the filter believes they
    have, so that no read of [getBrightnessAt] or [updateStreams] falls
    outside an array and no average divides by zero. *)
Definition sampling_ok (st : State) : Prop :=
  (0 < gridWidth st)%Z /\ (0 < gridHeight st)%Z /\
  (0 < videoWidth st)%Z /\ (0 < videoHeight st)%Z /\
  forall data, brightnessData st = Some data ->
    Z.of_nat (List.length data) = (videoWidth st * videoHeight st * 4)%Z.

Definition grid_ok (st : State) : Prop :=
  (0 < gridHeight st)%Z /\
  Z.of_nat (List.length (grid st)) = gridWidth st /\
  Forall (fun col => Z.of_nat (List.length col) = gridHeight st) (grid st).

(** Example inputs: a filter on a one-pixel video of the gray [51] and a
    one-cell grid, with contrast and fall speed [5] and a sensitivity to
    choose; a stream far below the grid; a generator that always returns one
    half. *)
Definition dimCell : Cell :=
  {| char := Some 65382%Z; brightness := 0.2; targetBrightness := 0.2;
     changeTimer := 50 |}.
Definition tiny (sensitivity : R) : State :=
  {| gridWidth := 1; gridHeight := 1; grid := [[dimCell]];
     streams := []; explosions := [];
     videoWidth := 1; videoHeight := 1;
     brightnessData := Some [51; 51; 51; 255]%Z;
     fallSpeed := 5; brightnessSensitivity := sensitivity; contrast := 5 |}.
Definition farStream : Stream :=
  {| sx := 0; sy := 10; speed := 0.5; length := 5 |}.
Definition halves : Rng.t := fun _ => 0.5.

(** The same filter with a bright cell in its grid, and a generator that
    always returns zero, the lowest value of [Math.random]. *)
Definition brightCell : Cell :=
  {| char := Some 65382%Z; brightness := 0.95; targetBrightness := 0.95;
     changeTimer := 50 |}.
Definition flash : State :=
  {| gridWidth := 1; gridHeight := 1; grid := [[brightCell]];
     streams := []; explosions := [];
     videoWidth := 1; videoHeight := 1;
     brightnessData := Some [51; 51; 51; 255]%Z;
     fallSpeed := 5; brightnessSensitivity := 6; contrast := 5 |}.
Definition zeros : Rng.t := fun _ => 0.

(** *** The rest of the filter

    The settings and the canvas size that the methods below read are not
    fields of [State]; they are passed to them. *)

(** One cell of [initGrid]. *)
Definition initCell : Rng.M Cell :=
  (let* c := getRandomChar in
   let* r := Rng.random in
   Rng.ret {| char := c; brightness := 0; targetBrightness := 0;
              changeTimer := r * 100 |})%rng.

(** One column of [initGrid]: a cell for each [y]. *)
Fixpoint initColumn (ys : list Z) : Rng.M (list Cell) :=
  match ys with
  | [] => Rng.ret []
  | _ :: rest =>
      (let* c := initCell in
       let* col := initColumn rest in
       Rng.ret (c :: col))%rng
  end.

(** The grid of [initGrid]: a column for each [x]. *)
Fixpoint initCells (xs ys : list Z) : Rng.M (list (list Cell)) :=
  match xs with
  | [] => Rng.ret []
  | _ :: rest =>
      (let* col := initColumn ys in
       let* g := initCells rest ys in
       Rng.ret (col :: g))%rng
  end.

(** [initGrid()] on a canvas of the given size with the glyph size
    [charSize].  Without a canvas width it leaves the filter as it is. *)
Definition initGrid (canvasWidth canvasHeight : Z) (charSize : R) (st : State)
    : Rng.M State :=
  if (canvasWidth =? 0)%Z then Rng.ret st
  else
    let gw := Js.ceil (IZR canvasWidth / charSize) in
    let gh := Js.ceil (IZR canvasHeight / charSize) in
    (let* g := initCells (Js.range 0 gw) (Js.range 0 gh) in
     let* ss := initStreams gh (Js.range 0 gw) in
     Rng.ret {| gridWidth := gw; gridHeight := gh; grid := g; streams := ss;
                explosions := explosions st;
                videoWidth := videoWidth st; videoHeight := videoHeight st;
                brightnessData := brightnessData st;
                fallSpeed := fallSpeed st;
                brightnessSensitivity := brightnessSensitivity st;
                contrast := contrast st |})%rng.

(** The body of the loops of [updateGrid] on the cell at [(x, y)]. *)
Definition updateCell (st : State) (x y : Z) (cell : Cell) : Rng.M Cell :=
  let target := getBrightnessAt st x y in
  let b := brightness cell + (target - brightness cell) * 0.3 in
  let t := changeTimer cell - (1 + b * 2) in
  if Rle_dec t 0 then
    (let* c := getRandomChar in
     let* r := Rng.random in
     Rng.ret {| char := c; brightness := b; targetBrightness := target;
                changeTimer := 20 + r * 80 |})%rng
  else
    Rng.ret {| char := char cell; brightness := b; targetBrightness := target;
               changeTimer := t |}.

(** [this.grid[x][y] = c], in place. *)
Definition setCell (g : list (list Cell)) (x y : Z) (c : Cell) : list (list Cell) :=
  Js.wr g x (Js.wr (Js.rd [] g x) y c).

(** One turn of the inner loop of [updateGrid], on the grid and the
    generator. *)
Definition updateGrid_cell (st : State) (acc : list (list Cell) * Rng.t)
    (c : Z * Z) : list (list Cell) * Rng.t :=
  let '(x, y) := c in
  let r := updateCell st x y (cellAt (fst acc) x y) (snd acc) in
  (setCell (fst acc) x y (fst r), snd r).

(** [updateGrid()]: the grid after it. *)
Definition updateGrid (st : State) : Rng.M (list (list Cell)) :=
  fun g =>
    foldl (fun acc x =>
       foldl (fun acc y => updateGrid_cell st acc (x, y)) acc
             (Js.range 0 (gridHeight st)))
      (grid st, g) (Js.range 0 (gridWidth st)).

(** The body of the loops of [checkForExplosions] at the cell [(x, y)]; the
    random number is drawn only for a cell brighter than [0.85]. *)
Definition checkCell (canvasWidth canvasHeight : Z) (charSize explosionRate : R)
    (g : list (list Cell)) (acc : list Particle * Rng.t) (c : Z * Z)
    : list Particle * Rng.t :=
  let '(x, y) := c in
  let b := brightness (cellAt g x y) in
  if Rgt_dec b 0.85 then
    let r := Rng.random (snd acc) in
    if Rlt_dec (fst r) (explosionRate / 3000 * b) then
      createExplosion canvasWidth canvasHeight
        (IZR x * charSize + charSize / 2) (IZR y * charSize + charSize / 2) b
        (fst acc) (snd r)
    else (fst acc, snd r)
  else acc.

(** [checkForExplosions()] on the pool: every eighth cell in each
    direction. *)
Definition checkForExplosions (canvasWidth canvasHeight : Z)
    (charSize explosionRate : R) (st : State) (pool : list Particle)
    : Rng.M (list Particle) :=
  fun g =>
    if Req_dec_T explosionRate 0 then (pool, g)
    else
      foldl (fun acc x =>
         foldl (fun acc y =>
            checkCell canvasWidth canvasHeight charSize explosionRate (grid st) acc (x, y))
           acc (Js.rangeStep 0 (gridHeight st) 8))
        (pool, g) (Js.rangeStep 0 (gridWidth st) 8).

(** The glyph is one of [matrixChars]. *)
Definition glyph_ok (c : Glyph) : Prop :=
  exists k, c = Some k /\ (65382 <= k <= 65437)%Z.

(** A particle as [createExplosion] makes it. *)
Definition newborn (canvasWidth canvasHeight : Z) (x y : R) (q : Particle) : Prop :=
  life q = 1 /\ 0.006 <= decay q < 0.016 /\
  -0.15 <= vx q < 0.15 /\ -0.15 <= vy q < 0.15 /\
  Rabs (px q - x) <= 0.125 * IZR canvasWidth /\
  Rabs (py q - y) <= 0.125 * IZR canvasHeight /\
  glyph_ok (pchar q).

(** [q] is [p] after one turn of [updateExplosions]: moved by its velocity
    and aged by its decay. *)
Definition aged (p q : Particle) : Prop :=
  px q = px p + vx p /\ py q = py p + vy p /\ vx q = vx p /\
  vy q = (if hasGravity p then vy p + 0.02 else vy p) /\
  life q = life p - decay p /\ decay q = decay p /\
  isWhite q = isWhite p /\ hasGravity q = hasGravity p.

(** A cell as an update leaves it, from the cell [c] it found and the
    target [t] that [getBrightnessAt] gave. *)
Definition cell_updated (t : R) (c c' : Cell) : Prop :=
  targetBrightness c' = t /\
  brightness c' = brightness c + (t - brightness c) * 0.3 /\
  ((0 < changeTimer c' /\ changeTimer c' = changeTimer c - (1 + brightness c' * 2)
    /\ char c' = char c)
   \/ (changeTimer c - (1 + brightness c' * 2) <= 0 /\
       20 <= changeTimer c' < 100 /\ glyph_ok (char c'))).

(** What [updateGrid] has done to the grid [g0] once it has visited the
    cells [seen], as [(x, y)]. *)
Definition grid_updated (st : State) (g0 : list (list Cell))
    (seen : list (Z * Z)) (acc : list (list Cell) * Rng.t) : Prop :=
  Rng.unit_rng (snd acc) /\
  Z.of_nat (List.length (fst acc)) = gridWidth st /\
  Forall (fun col => Z.of_nat (List.length col) = gridHeight st) (fst acc) /\
  forall x y, (0 <= x < gridWidth st)%Z -> (0 <= y < gridHeight st)%Z ->
    if decide ((x, y) ∈ seen)
    then cell_updated (getBrightnessAt st x y) (cellAt g0 x y) (cellAt (fst acc) x y)
    else cellAt (fst acc) x y = cellAt g0 x y.

(** How [updateStreams] relates a stream to what it becomes. *)
Definition stream_step (st : State) (s s' : Stream) : Prop :=
  sx s' = sx s /\
  ((advance st s - IZR (length s) <= IZR (gridHeight st) /\
    sy s' = advance st s /\ speed s' = speed s /\ length s' = length s)
   \/ (advance st s - IZR (length s) > IZR (gridHeight st) /\
       sy s' = - IZR (length s))).

(** A cell as [initGrid] makes it. *)
Definition blank (c : Cell) : Prop :=
  brightness c = 0 /\ targetBrightness c = 0 /\
  0 <= changeTimer c < 100 /\ glyph_ok (char c).

(** The grid [g] has the sizes [gridWidth] and [gridHeight] say. *)
Definition grid_sized (st : State) (g : list (list Cell)) : Prop :=
  Z.of_nat (List.length g) = gridWidth st /\
  Forall (fun col => Z.of_nat (List.length col) = gridHeight st) g.

(** Assignments to one field. *)
Definition set_brightnessData (st : State) (d : list Z) : State :=
  {| gridWidth := gridWidth st; gridHeight := gridHeight st; grid := grid st;
     streams := streams st; explosions := explosions st;
     videoWidth := videoWidth st; videoHeight := videoHeight st;
     brightnessData := Some d;
     fallSpeed := fallSpeed st;
     brightnessSensitivity := brightnessSensitivity st; contrast := contrast st |}.
Definition set_grid (st : State) (g : list (list Cell)) : State :=
  {| gridWidth := gridWidth st; gridHeight := gridHeight st; grid := g;
     streams := streams st; explosions := explosions st;
     videoWidth := videoWidth st; videoHeight := videoHeight st;
     brightnessData := brightnessData st;
     fallSpeed := fallSpeed st;
     brightnessSensitivity := brightnessSensitivity st; contrast := contrast st |}.
Definition set_streams (st : State) (ss : list Stream) : State :=
  {| gridWidth := gridWidth st; gridHeight := gridHeight st; grid := grid st;
     streams := ss; explosions := explosions st;
     videoWidth := videoWidth st; videoHeight := videoHeight st;
     brightnessData := brightnessData st;
     fallSpeed := fallSpeed st;
     brightnessSensitivity := brightnessSensitivity st; contrast := contrast st |}.
Definition set_explosions (st : State) (pool : list Particle) : State :=
  {| gridWidth := gridWidth st; gridHeight := gridHeight st; grid := grid st;
     streams := streams st; explosions := pool;
     videoWidth := videoWidth st; videoHeight := videoHeight st;
     brightnessData := brightnessData st;
     fallSpeed := fallSpeed st;
     brightnessSensitivity := brightnessSensitivity st; contrast := contrast st |}.

(** [processVideoFrame()]: [frame] is the image data the video canvas
    gives, or [None] when the video or the canvas has no width yet and the
    method returns at once. *)
Definition processVideoFrame (frame : option (list Z)) (st : State) : State :=
  match frame with
  | None => st
  | Some d => set_brightnessData st d
  end.

(** The first five statements of [draw()], which are all of its effect on
    the filter; the rest paints the canvas from the result. *)
Definition draw (canvasWidth canvasHeight : Z) (charSize explosionRate : R)
    (frame : option (list Z)) (st : State) : Rng.M State :=
  let st1 := processVideoFrame frame st in
  (let* g := updateGrid st1 in
   let st2 := set_grid st1 g in
   let* ss := updateStreamList st2 (streams st2) in
   let st3 := set_streams st2 ss in
   let* pool := checkForExplosions canvasWidth canvasHeight charSize explosionRate
                  st3 (explosions st3) in
   let* pool' := updateExplosions pool in
   Rng.ret (set_explosions st3 pool'))%rng.

(** The grid has its sizes and brightnesses in [[0, 1]], the streams have
    speeds and lengths within their bounds, and the pool holds at most
    [maxParticles] particles, all alive. *)
Definition healthy (st : State) : Prop :=
  grid_sized st (grid st) /\
  (forall x y, (0 <= x < gridWidth st)%Z -> (0 <= y < gridHeight st)%Z ->
     0 <= brightness (cellAt (grid st) x y) <= 1) /\
  Forall stream_ok (streams st) /\
  (List.length (explosions st) <= maxParticles)%nat /\
  Forall (fun p => 0 < life p) (explosions st).

(** Example input: a particle about to run out and one that stays. *)
Definition dying : Particle :=
  {| px := 10; py := 10; vx := 0.1; vy := 0; life := 0.005; decay := 0.006;
     pchar := Some 65382%Z; isWhite := true; hasGravity := false |}.
Definition lively : Particle :=
  {| px := 20; py := 30; vx := 0; vy := 0.1; life := 1; decay := 0.01;
     pchar := Some 65383%Z; isWhite := false; hasGravity := true |}.

End Matrix.

(** * Properties *)

(** ** Numbers, arrays and loops *)

Module JsFacts.
Import Js.

Lemma floor_bounds (x : R) : IZR (floor x) <= x < IZR (floor x) + 1.
Proof.
  unfold floor.
  destruct (base_Int_part x) as [H1 H2]. lra.
Qed.

Lemma floor_unique (x : R) (z : Z) : IZR z <= x < IZR z + 1 -> floor x = z.
Proof.
  intros H. unfold floor. symmetry. apply Int_part_spec. lra.
Qed.

Lemma floor_IZR (z : Z) : floor (IZR z) = z.
Proof. apply floor_unique. lra. Qed.

Lemma floor_mono (x y : R) : x <= y -> (floor x <= floor y)%Z.
Proof.
  intros H.
  pose proof (floor_bounds x) as Hx. pose proof (floor_bounds y) as Hy.
  assert (IZR (floor x) < IZR (floor y) + 1) as Hlt by lra.
  rewrite <- plus_IZR in Hlt. apply lt_IZR in Hlt. lia.
Qed.

Lemma round_IZR (z : Z) : round (IZR z) = z.
Proof. unfold round. apply floor_unique. lra. Qed.

Lemma round_mono (x y : R) : x <= y -> (round x <= round y)%Z.
Proof. intros H. unfold round. apply floor_mono. lra. Qed.

Lemma clamp_bounds (lo hi x : R) : lo <= hi -> lo <= clamp lo hi x <= hi.
Proof.
  intros H. unfold clamp, Rmax, Rmin.
  repeat destruct (Rle_dec _ _); lra.
Qed.

Lemma clamp_id (lo hi x : R) : lo <= x <= hi -> clamp lo hi x = x.
Proof.
  intros H. unfold clamp, Rmax, Rmin.
  repeat destruct (Rle_dec _ _); lra.
Qed.

(** The quantization step is never zero when the level count is not one. *)
Lemma step_nonzero (levels : R) : levels <> 1 -> 255 / (levels - 1) <> 0.
Proof.
  intros H. unfold Rdiv.
  apply Rmult_integral_contrapositive_currified; [lra|].
  apply Rinv_neq_0_compat. lra.
Qed.

(** A quantized value is a whole number of steps, and quantizing it again
    finds the same number. *)
Lemma quantize_fixed (levels : R) (k : Z) :
  levels <> 1 ->
  quantize levels (IZR k * (255 / (levels - 1))) = IZR k * (255 / (levels - 1)).
Proof.
  intros H. unfold quantize.
  pose proof (step_nonzero levels H) as Hs.
  replace (IZR k * (255 / (levels - 1)) / (255 / (levels - 1))) with (IZR k)
    by (field; lra).
  now rewrite round_IZR.
Qed.

Lemma quantize_mono (levels v w : R) :
  levels <> 1 -> v <= w -> quantize levels v <= quantize levels w.
Proof.
  intros H Hvw. unfold quantize.
  set (step := 255 / (levels - 1)).
  assert (step <> 0) as Hs by (apply step_nonzero; assumption).
  destruct (Rlt_dec 0 step) as [Hpos | Hneg].
  - apply Rmult_le_compat_r; [lra|]. apply IZR_le, round_mono.
    unfold Rdiv. apply Rmult_le_compat_r; [|assumption].
    apply Rlt_le, Rinv_0_lt_compat; assumption.
  - assert (step < 0) as Hlt by lra.
    assert (/ step < 0) as Hinv by (apply Rinv_lt_0_compat; assumption).
    assert (w / step <= v / step) as Hdiv by (unfold Rdiv; nra).
    apply round_mono, IZR_le in Hdiv. nra.
Qed.

Lemma quantize_0 (levels : R) : quantize levels 0 = 0.
Proof.
  unfold quantize. unfold Rdiv at 1. rewrite Rmult_0_l.
  replace 0 with (IZR 0) at 1 by reflexivity. rewrite round_IZR. lra.
Qed.

Lemma quantizeClamp_idem (levels v : R) :
  levels <> 1 -> 0 <= v <= 255 ->
  quantizeClamp levels (quantizeClamp levels v) = quantizeClamp levels v.
Proof.
  intros H Hv. unfold quantizeClamp.
  pose proof (quantize_mono levels 0 v H (proj1 Hv)) as Hlo.
  rewrite quantize_0 in Hlo.
  destruct (Rle_dec (quantize levels v) 255) as [Hin | Hout].
  - rewrite (clamp_id 0 255 (quantize levels v)) by lra.
    unfold quantize at 2. rewrite quantize_fixed by assumption.
    fold (quantize levels v). now rewrite clamp_id by lra.
  - assert (clamp 0 255 (quantize levels v) = 255) as ->.
    { unfold clamp, Rmax, Rmin. repeat destruct (Rle_dec _ _); lra. }
    pose proof (quantize_mono levels v 255 H (proj2 Hv)) as Hhi.
    unfold clamp, Rmax, Rmin. repeat destruct (Rle_dec _ _); lra.
Qed.

(** A whole number in the byte range is stored as it is. *)
Lemma toUint8Clamp_byte (z : Z) : (0 <= z <= 255)%Z -> toUint8Clamp (IZR z) = z.
Proof.
  intros [H0 H1]. apply IZR_le in H0, H1. unfold toUint8Clamp.
  assert (Rmin (Rmax (IZR z) 0) 255 = IZR z) as ->.
  { unfold Rmin, Rmax. repeat destruct (Rle_dec _ _); lra. }
  rewrite floor_IZR.
  destruct (Rlt_dec (IZR z + 0.5) (IZR z)) as [H | _]; [lra|].
  destruct (Rlt_dec (IZR z) (IZR z + 0.5)) as [_ | H]; [reflexivity | lra].
Qed.

Lemma round_unique (x : R) (z : Z) : IZR z - 0.5 <= x < IZR z + 0.5 -> round x = z.
Proof. intros H. unfold round. apply floor_unique. lra. Qed.

(** *** Typed arrays *)

(** Evaluates the reads of concrete byte buffers in the goal. *)
Ltac eval_reads :=
  repeat match goal with
  | |- context [Js.rd 0%Z ?a ?i] =>
      let v := eval vm_compute in (Js.rd 0%Z a i) in
      change (Js.rd 0%Z a i) with v
  end.

Lemma rd_lookup {A} (d : A) (a : list A) (i : Z) (v : A) :
  (0 <= i)%Z -> a !! Z.to_nat i = Some v -> rd d a i = v.
Proof.
  intros Hi Hv. unfold rd.
  destruct (Z.ltb_spec i 0) as [Hneg | _]; [lia|].
  now rewrite nth_lookup, Hv.
Qed.

Lemma rd_in_range {A} (d : A) (a : list A) (i : Z) :
  (0 <= i < Z.of_nat (length a))%Z -> a !! Z.to_nat i = Some (rd d a i).
Proof.
  intros Hi.
  destruct (lookup_lt_is_Some_2 a (Z.to_nat i)) as [v Hv]; [lia|].
  rewrite Hv. f_equal. symmetry. apply rd_lookup; [lia | assumption].
Qed.

Lemma rd_replicate {A} (d : A) (n : nat) (i : Z) : rd d (replicate n d) i = d.
Proof.
  unfold rd. destruct (i <? 0)%Z; [reflexivity|].
  rewrite nth_lookup.
  destruct (replicate n d !! Z.to_nat i) as [v|] eqn:Hv; [|reflexivity].
  apply lookup_replicate in Hv. simpl. tauto.
Qed.

Lemma length_wr {A} (a : list A) (i : Z) (v : A) : length (wr a i v) = length a.
Proof. unfold wr. destruct (i <? 0)%Z; [reflexivity | apply length_insert]. Qed.

Lemma rd_wr_eq {A} (d : A) (a : list A) (i : Z) (v : A) :
  (0 <= i < Z.of_nat (length a))%Z -> rd d (wr a i v) i = v.
Proof.
  intros Hi. apply rd_lookup; [lia|]. unfold wr.
  destruct (Z.ltb_spec i 0) as [Hneg | _]; [lia|].
  apply list_lookup_insert_eq. lia.
Qed.

Lemma rd_wr_ne {A} (d : A) (a : list A) (i j : Z) (v : A) :
  i <> j -> rd d (wr a i v) j = rd d a j.
Proof.
  intros Hij. unfold rd, wr.
  destruct (Z.ltb_spec j 0) as [Hj | Hj]; [reflexivity|].
  destruct (Z.ltb_spec i 0) as [Hi | Hi]; [reflexivity|].
  rewrite !nth_lookup, list_lookup_insert_ne by lia. reflexivity.
Qed.

Lemma rd_wr {A} (d : A) (a : list A) (i j : Z) (v : A) :
  rd d (wr a i v) j = v \/ rd d (wr a i v) j = rd d a j.
Proof.
  destruct (Z.eq_dec i j) as [<- | NE]; [|right; now apply rd_wr_ne].
  destruct (Z_lt_le_dec i 0) as [Hneg | Hpos].
  - right. unfold wr. destruct (Z.ltb_spec i 0); [reflexivity | lia].
  - destruct (Z_lt_le_dec i (Z.of_nat (length a))) as [Hin | Hout].
    + left. apply rd_wr_eq. lia.
    + right. unfold wr. destruct (Z.ltb_spec i 0); [reflexivity|].
      rewrite list_insert_ge by lia. reflexivity.
Qed.

(** The cells of a grid of width [w] have distinct row-major indices. *)
Lemma cell_inj (w y x y' x' : Z) :
  (0 <= x < w)%Z -> (0 <= x' < w)%Z ->
  (y * w + x = y' * w + x')%Z -> y = y' /\ x = x'.
Proof. intros H1 H2 E. assert (y = y') by nia. subst. lia. Qed.

Lemma cell_range (w h y x : Z) :
  (0 <= x < w)%Z -> (0 <= y < h)%Z -> (0 <= y * w + x < w * h)%Z.
Proof. intros H1 H2. nia. Qed.


(** *** Loops *)

Lemma elem_of_range (lo hi i : Z) : i ∈ range lo hi <-> (lo <= i < hi)%Z.
Proof. unfold range. rewrite elem_of_seqZ. lia. Qed.

Lemma NoDup_range (lo hi : Z) : NoDup (range lo hi).
Proof. apply NoDup_seqZ. Qed.

Lemma elem_of_pairs (ys xs : list Z) (y x : Z) :
  (y, x) ∈ pairs ys xs <-> y ∈ ys /\ x ∈ xs.
Proof.
  unfold pairs. rewrite list_elem_of_In, in_flat_map. split.
  - intros (y' & Hy & Hin). apply in_map_iff in Hin as (x' & Heq & Hx).
    injection Heq as -> ->. now rewrite !list_elem_of_In.
  - intros [Hy Hx]. exists y. rewrite <- list_elem_of_In. split; [assumption|].
    apply in_map_iff. exists x. now rewrite <- list_elem_of_In.
Qed.

Lemma NoDup_pairs (ys xs : list Z) : NoDup ys -> NoDup xs -> NoDup (pairs ys xs).
Proof.
  intros Hys Hxs. unfold pairs. induction Hys as [| y ys Hy Hys IH]; simpl.
  - constructor.
  - apply NoDup_app. split; [|split; [|exact IH]].
    + apply NoDup_fmap_2; [|assumption]. intros a b Hab. now injection Hab.
    + intros [y' x'] H1 H2.
      apply list_elem_of_In, in_map_iff in H1 as (x1 & Heq & _).
      injection Heq as <- <-.
      fold (pairs ys xs) in H2. apply elem_of_pairs in H2 as [H2 _]. contradiction.
Qed.

(** Two nested loops are one loop over the coordinates they visit. *)
Lemma foldl_pairs {S} (f : S -> Z * Z -> S) (s : S) (ys xs : list Z) :
  foldl (fun s y => foldl (fun s x => f s (y, x)) s xs) s ys
  = foldl f s (pairs ys xs).
Proof.
  unfold pairs. revert s. induction ys as [| y ys IH]; intros s; simpl.
  - reflexivity.
  - rewrite foldl_app, <- IH. f_equal.
    clear IH. revert s. induction xs as [| x xs IHx]; intros s; simpl.
    + reflexivity.
    + apply IHx.
Qed.

(** A loop keeps what holds of the part of the list already visited. *)
Lemma foldl_visited {S K} (f : S -> K -> S) (P : list K -> S -> Prop)
    (s0 : S) (l : list K) :
  P [] s0 ->
  (forall seen k rest s, l = seen ++ k :: rest -> P seen s -> P (seen ++ [k]) (f s k)) ->
  P l (foldl f s0 l).
Proof.
  intros H0 Hstep.
  assert (forall rest seen s, l = seen ++ rest -> P seen s ->
            P (seen ++ rest) (foldl f s rest)) as H.
  { induction rest as [| k rest IH]; intros seen s Hl Hs; simpl.
    - now rewrite app_nil_r.
    - replace (seen ++ k :: rest) with ((seen ++ [k]) ++ rest)
        by (now rewrite <- app_assoc).
      apply IH; [now rewrite <- app_assoc | now apply (Hstep seen k rest)]. }
  apply (H l [] s0); [reflexivity | assumption].
Qed.

(** Likewise for what holds whatever was visited. *)
Lemma foldl_invariant {S K} (f : S -> K -> S) (P : S -> Prop) (s0 : S) (l : list K) :
  P s0 -> (forall k s, k ∈ l -> P s -> P (f s k)) -> P (foldl f s0 l).
Proof.
  intros H0 Hstep.
  apply (foldl_visited f (fun _ s => P s)); [assumption|].
  intros seen k rest s Hl Hs. apply Hstep; [|assumption].
  rewrite Hl. apply elem_of_app. right. apply list_elem_of_here.
Qed.

(** *** The definitions on small inputs *)

Example range_sobel : range (-1) 2 = [-1; 0; 1]%Z.
Proof. reflexivity. Qed.

Example rangeStep_outline : rangeStep 2 7 2 = [2; 4; 6]%Z.
Proof. reflexivity. Qed.

Example rangeStep_empty : rangeStep 2 2 2 = [].
Proof. reflexivity. Qed.

Example pairs_order : pairs [1; 2]%Z [5; 6]%Z = [(1, 5); (1, 6); (2, 5); (2, 6)]%Z.
Proof. reflexivity. Qed.

Example wr_inside : wr [1; 2; 3]%Z 1 9%Z = [1; 9; 3]%Z.
Proof. reflexivity. Qed.

Example wr_outside : wr [1; 2; 3]%Z 5 9%Z = [1; 2; 3]%Z /\ wr [1; 2; 3]%Z (-1) 9%Z = [1; 2; 3]%Z.
Proof. split; reflexivity. Qed.

Example round_half_up : round 2.5 = 3%Z /\ round (-2.5) = (-2)%Z.
Proof. split; apply round_unique; lra. Qed.

Example quantize_100 : quantize 6 100 = 102.
Proof.
  unfold quantize. rewrite (round_unique _ 2) by lra. lra.
Qed.

Example toUint8Clamp_ties : toUint8Clamp 2.5 = 2%Z /\ toUint8Clamp 3.5 = 4%Z.
Proof.
  unfold toUint8Clamp. split.
  - assert (Rmin (Rmax 2.5 0) 255 = 2.5) as ->
      by (unfold Rmin, Rmax; repeat destruct (Rle_dec _ _); lra).
    rewrite (floor_unique 2.5 2) by lra.
    destruct (Rlt_dec (2 + 0.5) 2.5); [lra|].
    destruct (Rlt_dec 2.5 (2 + 0.5)); [lra | reflexivity].
  - assert (Rmin (Rmax 3.5 0) 255 = 3.5) as ->
      by (unfold Rmin, Rmax; repeat destruct (Rle_dec _ _); lra).
    rewrite (floor_unique 3.5 3) by lra.
    destruct (Rlt_dec (3 + 0.5) 3.5); [lra|].
    destruct (Rlt_dec 3.5 (3 + 0.5)); [lra | reflexivity].
Qed.

Example toUint8Clamp_clamps : toUint8Clamp 300 = 255%Z /\ toUint8Clamp (-4) = 0%Z.
Proof.
  unfold toUint8Clamp. split.
  - assert (Rmin (Rmax 300 0) 255 = 255) as ->
      by (unfold Rmin, Rmax; repeat destruct (Rle_dec _ _); lra).
    rewrite floor_IZR.
    destruct (Rlt_dec (255 + 0.5) 255); [lra|].
    destruct (Rlt_dec 255 (255 + 0.5)); [reflexivity | lra].
  - assert (Rmin (Rmax (-4) 0) 255 = 0) as ->
      by (unfold Rmin, Rmax; repeat destruct (Rle_dec _ _); lra).
    rewrite floor_IZR.
    destruct (Rlt_dec (0 + 0.5) 0); [lra|].
    destruct (Rlt_dec 0 (0 + 0.5)); [reflexivity | lra].
Qed.

(** *** The random monad *)

Lemma bind_run {A B} (m : Rng.M A) (k : A -> Rng.M B) (g : Rng.t) :
  Rng.bind m k g = k (fst (m g)) (snd (m g)).
Proof. unfold Rng.bind. destruct (m g); reflexivity. Qed.

End JsFacts.

(** C6.  For a channel value [v] in [[0, 255]] and a level count other than
    one (the step [255 / (N - 1)] needs it), quantizing a quantized value
    again returns it unchanged, both for the bare quantization and for the
    quantization with the clamp the filters apply after it. *)
Theorem quantize_idempotent (levels v : R) :
  levels <> 1 -> 0 <= v <= 255 ->
  Js.quantize levels (Js.quantize levels v) = Js.quantize levels v /\
  Js.quantizeClamp levels (Js.quantizeClamp levels v) = Js.quantizeClamp levels v.
Proof.
  intros H Hv. split.
  - unfold Js.quantize at 2. apply JsFacts.quantize_fixed; assumption.
  - apply JsFacts.quantizeClamp_idem; assumption.
Qed.

(** The theorem at six levels and the channel value [100]. *)
Lemma quantize_idempotent_witness :
  Js.quantize 6 (Js.quantize 6 100) = Js.quantize 6 100 /\
  Js.quantizeClamp 6 (Js.quantizeClamp 6 100) = Js.quantizeClamp 6 100.
Proof. apply quantize_idempotent; lra. Defined.

(** ** WakingLifeFilter *)

Module WakingLifeFacts.
Import Js JsFacts WakingLife.

(** On a lattice point the fractional parts vanish and the interpolation
    returns its first corner. *)
Lemma noise2D_lattice_rd (x y : Z) (table : list R) :
  noise2D (IZR x) (IZR y) table =
  rd 0 table ((Z.abs y mod size) * size + Z.abs x mod size).
Proof.
  unfold noise2D.
  rewrite <- !abs_IZR, !floor_IZR.
  rewrite !Z.rem_mod_nonneg by (unfold size; lia).
  rewrite !Rminus_diag. ring.
Qed.

Lemma generateNoiseTable_ok (g : Rng.t) : noise_table (fst (generateNoiseTable g)).
Proof.
  unfold generateNoiseTable, noise_table. cbn [fst].
  rewrite length_map, length_seq, Z2Nat.id; [reflexivity | unfold size; lia].
Qed.

(** *** [detectMotion] *)

Lemma motion_map0_length (st : State) (gridW gridH : Z) :
  (0 <= gridW * gridH)%Z ->
  Z.of_nat (length (motion_map0 st gridW gridH)) = (gridW * gridH)%Z.
Proof.
  intros H. unfold motion_map0.
  destruct (motionMap st) as [m|].
  - destruct (Z.eqb_spec (Z.of_nat (length m)) (gridW * gridH)) as [E | _].
    + exact E.
    + rewrite length_replicate. lia.
  - rewrite length_replicate. lia.
Qed.

Lemma motion_loop (src prev : list Z) (width gridW gridH : Z) (m0 : list R) :
  Z.of_nat (length m0) = (gridW * gridH)%Z ->
  let cells := pairs (range 0 gridH) (range 0 gridW) in
  visited src prev width gridW gridH m0 cells
    (foldl (motion_cell src prev width gridW) (m0, 0) cells).
Proof.
  intros Hlen cells.
  assert (NoDup cells) as Hnd by (apply NoDup_pairs; apply NoDup_range).
  apply (foldl_visited (motion_cell src prev width gridW)
           (visited src prev width gridW gridH m0)).
  - split; [exact Hlen|]. intros gy gx _ _.
    destruct (decide ((gy, gx) ∈ [])) as [Hin | _]; [|reflexivity].
    now apply elem_of_nil in Hin.
  - intros seen [ky kx] rest [m total] Hl [Hm Hcells].
    assert ((ky, kx) ∈ cells) as Hk.
    { rewrite Hl. apply elem_of_app. right. apply list_elem_of_here. }
    apply elem_of_pairs in Hk as [Hky Hkx].
    apply elem_of_range in Hky, Hkx.
    assert ((ky, kx) ∉ seen) as Hfresh.
    { rewrite Hl in Hnd. apply NoDup_app in Hnd as (_ & Hdis & _).
      intros Hin. apply (Hdis _ Hin). apply list_elem_of_here. }
    pose proof (cell_range gridW gridH ky kx Hkx Hky) as Hr.
    unfold visited in Hm, Hcells. cbn [fst snd] in Hm, Hcells.
    unfold motion_cell, visited. cbn [fst snd]. split.
    + now rewrite length_wr.
    + intros gy gx Hgx Hgy.
      destruct (decide ((gy, gx) = (ky, kx))) as [E | NE].
      * injection E as -> ->.
        rewrite rd_wr_eq by lia.
        rewrite (Hcells ky kx Hkx Hky).
        destruct (decide ((ky, kx) ∈ seen)) as [Hin | _]; [contradiction|].
        destruct (decide ((ky, kx) ∈ seen ++ [(ky, kx)])) as [_ | Hout];
          [reflexivity|].
        exfalso. apply Hout, elem_of_app. right. apply list_elem_of_here.
      * rewrite rd_wr_ne.
        2:{ intros E. apply cell_inj in E as [-> ->]; [|lia|lia]. now apply NE. }
        rewrite (Hcells gy gx Hgx Hgy).
        destruct (decide ((gy, gx) ∈ seen)) as [Hin | Hout];
          destruct (decide ((gy, gx) ∈ seen ++ [(ky, kx)])) as [Hin' | Hout'];
          try reflexivity; exfalso.
        -- apply Hout', elem_of_app. now left.
        -- apply elem_of_app in Hin' as [Hin' | Hin']; [contradiction|].
           apply list_elem_of_singleton in Hin'. contradiction.
Qed.

(** [detectMotion] on a filter that holds a previous frame no shorter than
    the current one ends normally, and every block of the map holds
    [0.7] of its old value plus [0.3] of the block's motion. *)
Lemma detectMotion_cells (st : State) (src prev : list Z) (width height : Z) :
  prevFrame st = Some prev ->
  (0 <= width)%Z -> (0 <= height)%Z ->
  (length src <= length prev)%nat ->
  let gridW := (width / gridSize)%Z in
  let gridH := (height / gridSize)%Z in
  exists st' m',
    detectMotion st src width height = Done st' /\
    motionMap st' = Some m' /\
    forall gy gx, (0 <= gx < gridW)%Z -> (0 <= gy < gridH)%Z ->
      rd 0 m' (gy * gridW + gx) =
      rd 0 (motion_map0 st gridW gridH) (gy * gridW + gx) * 0.7
      + blockMotion src prev width gy gx * 0.3.
Proof.
  intros Hprev Hw Hh Hlen gridW gridH.
  assert (0 <= gridW)%Z as HgW by (apply Z.div_pos; [assumption | unfold gridSize; lia]).
  assert (0 <= gridH)%Z as HgH by (apply Z.div_pos; [assumption | unfold gridSize; lia]).
  pose proof (motion_loop src prev width gridW gridH (motion_map0 st gridW gridH)
                (motion_map0_length st gridW gridH ltac:(nia))) as Hloop.
  cbv zeta in Hloop. destruct Hloop as [_ Hcells].
  unfold detectMotion. fold gridW gridH. rewrite Hprev.
  rewrite (foldl_pairs (motion_cell src prev width gridW)).
  apply Nat.leb_le in Hlen. rewrite Hlen.
  eexists _, _. split; [reflexivity|]. split; [reflexivity|].
  intros gy gx Hgx Hgy. rewrite (Hcells gy gx Hgx Hgy).
  destruct (decide _) as [_ | Hout]; [reflexivity|].
  exfalso. apply Hout, elem_of_pairs. split; apply elem_of_range; lia.
Qed.

(** The centre of a block of the grid lies inside the frame. *)
Lemma centreIdx_range (width height gy gx : Z) :
  (0 <= gx < width / gridSize)%Z -> (0 <= gy < height / gridSize)%Z ->
  (0 <= centreIdx width gy gx /\ centreIdx width gy gx + 3 < width * height * 4)%Z.
Proof.
  unfold centreIdx, gridSize. intros Hgx Hgy.
  change (16 / 2)%Z with 8%Z.
  assert (0 < width)%Z as Hw.
  { destruct (Z_lt_le_dec 0 width) as [H | H]; [exact H|].
    assert (width / 16 <= 0)%Z by (apply Z.div_le_upper_bound; lia). lia. }
  assert (0 < height)%Z as Hh.
  { destruct (Z_lt_le_dec 0 height) as [H | H]; [exact H|].
    assert (height / 16 <= 0)%Z by (apply Z.div_le_upper_bound; lia). lia. }
  pose proof (Z.mul_div_le width 16 ltac:(lia)) as Hx.
  pose proof (Z.mul_div_le height 16 ltac:(lia)) as Hy.
  assert (0 <= gx * 16 + 8 < width)%Z as Hcx by lia.
  assert (0 <= gy * 16 + 8 < height)%Z as Hcy by lia.
  pose proof (cell_range width height _ _ Hcx Hcy). lia.
Qed.

Lemma blockMotion_red_black : blockMotion redFrame blackFrame 16 0 0 = 1 / 3.
Proof.
  unfold blockMotion, chan. eval_reads.
  rewrite !Rminus_diag, Rabs_R0, Rminus_0_r, Rabs_right by lra. lra.
Qed.

Lemma lumaMotion_red_black : lumaMotion_spec redFrame blackFrame 16 0 0 = 0.299.
Proof.
  unfold lumaMotion_spec, chan, luma. eval_reads.
  rewrite Rabs_right by lra. lra.
Qed.

End WakingLifeFacts.

(** C4, as the code has it.  On every call after the one that captured the
    first frame, as long as the frame is no longer than the stored one (the
    canvas has not grown since the first frame; it may have shrunk), each
    block of the motion map becomes [0.7] times its previous value (zero
    when the map has just been allocated anew) plus [0.3] times the block's
    motion, and that motion is the sum of the absolute differences of the
    red, green and blue channels between the current and the previous frame
    at the block's centre, divided by [255 * 3]: no luma weights enter it.
    The centre lies inside both frames. *)
Theorem detectMotion_smooths (st : WakingLife.State) (src prev : list Z)
    (width height gy gx : Z) :
  WakingLife.prevFrame st = Some prev ->
  (0 <= width)%Z -> (0 <= height)%Z ->
  Z.of_nat (length src) = (width * height * 4)%Z ->
  (length src <= length prev)%nat ->
  (0 <= gx < width / WakingLife.gridSize)%Z ->
  (0 <= gy < height / WakingLife.gridSize)%Z ->
  (0 <= WakingLife.centreIdx width gy gx /\
   WakingLife.centreIdx width gy gx + 3 < Z.of_nat (length src))%Z /\
  exists st' m',
    WakingLife.detectMotion st src width height = WakingLife.Done st' /\
    WakingLife.motionMap st' = Some m' /\
    Js.rd 0 m' (gy * (width / WakingLife.gridSize) + gx) =
      Js.rd 0 (WakingLife.motion_map0 st (width / WakingLife.gridSize)
                                         (height / WakingLife.gridSize))
              (gy * (width / WakingLife.gridSize) + gx) * 0.7
      + WakingLife.blockMotion src prev width gy gx * 0.3.
Proof.
  intros Hprev Hw Hh Hsrc Hlen Hgx Hgy. split.
  - rewrite Hsrc. now apply WakingLifeFacts.centreIdx_range.
  - destruct (WakingLifeFacts.detectMotion_cells st src prev width height
                Hprev Hw Hh Hlen) as (st' & m' & Hd & Hm & Hcells).
    exists st', m'. split; [exact Hd|]. split; [exact Hm|].
    apply Hcells; assumption.
Qed.

(** The theorem on a red frame that follows a black one. *)
Lemma detectMotion_smooths_witness :
  (0 <= WakingLife.centreIdx 16 0 0 /\
   WakingLife.centreIdx 16 0 0 + 3 < Z.of_nat (length WakingLife.redFrame))%Z /\
  exists st' m',
    WakingLife.detectMotion WakingLife.sawBlack WakingLife.redFrame 16 16
      = WakingLife.Done st' /\
    WakingLife.motionMap st' = Some m' /\
    Js.rd 0 m' (0 * (16 / WakingLife.gridSize) + 0) =
      Js.rd 0 (WakingLife.motion_map0 WakingLife.sawBlack
                 (16 / WakingLife.gridSize) (16 / WakingLife.gridSize))
              (0 * (16 / WakingLife.gridSize) + 0) * 0.7
      + WakingLife.blockMotion WakingLife.redFrame WakingLife.blackFrame 16 0 0 * 0.3.
Proof.
  apply (detectMotion_smooths WakingLife.sawBlack WakingLife.redFrame
           WakingLife.blackFrame 16 16 0 0);
    first [reflexivity | lia | (vm_compute; split; [discriminate | reflexivity])].
Defined.

(** C4 as the spec words it fails: after a black frame, a red frame moves
    the block of a 16 by 16 canvas to [0.3 * (255 / 765) = 0.1], not to
    [0.3 * 0.299], the value the luma difference would give. *)
Lemma detectMotion_not_luma :
  exists st' m',
    WakingLife.detectMotion WakingLife.sawBlack WakingLife.redFrame 16 16
      = WakingLife.Done st' /\
    WakingLife.motionMap st' = Some m' /\
    Js.rd 0 m' 0 = 0.1 /\
    WakingLife.smoothed_spec (Js.rd 0 [0] 0) WakingLife.redFrame
      WakingLife.blackFrame 16 0 0 = 0.0897 /\
    Js.rd 0 m' 0 <>
    WakingLife.smoothed_spec (Js.rd 0 [0] 0) WakingLife.redFrame
      WakingLife.blackFrame 16 0 0.
Proof.
  destruct (WakingLifeFacts.detectMotion_cells WakingLife.sawBlack
              WakingLife.redFrame WakingLife.blackFrame 16 16
              eq_refl ltac:(lia) ltac:(lia) (Nat.le_refl _))
    as (st' & m' & Hd & Hm & Hcells).
  exists st', m'. split; [exact Hd|]. split; [exact Hm|].
  specialize (Hcells 0%Z 0%Z ltac:(vm_compute; split; [discriminate | reflexivity])
                            ltac:(vm_compute; split; [discriminate | reflexivity])).
  change (0 * (16 / WakingLife.gridSize) + 0)%Z with 0%Z in Hcells.
  change (WakingLife.motion_map0 WakingLife.sawBlack (16 / WakingLife.gridSize)
            (16 / WakingLife.gridSize)) with [0] in Hcells.
  rewrite WakingLifeFacts.blockMotion_red_black in Hcells.
  unfold WakingLife.smoothed_spec.
  rewrite WakingLifeFacts.lumaMotion_red_black.
  change (Js.rd 0 [0] 0) with 0 in *.
  rewrite Hcells. repeat split; lra.
Qed.

(** C7.  At integer coordinates [(x, y)] [noise2D] returns exactly the entry
    of the table at the wrapped cell, column [|x| mod 512] of row
    [|y| mod 512]; the table has the [512 * 512] entries
    [generateNoiseTable] gives it, so the entry exists. *)
Theorem noise2D_lattice (x y : Z) (table : list R) :
  WakingLife.noise_table table ->
  table !! Z.to_nat ((Z.abs y mod WakingLife.size) * WakingLife.size
                     + Z.abs x mod WakingLife.size)
  = Some (WakingLife.noise2D (IZR x) (IZR y) table).
Proof.
  intros Ht. rewrite WakingLifeFacts.noise2D_lattice_rd.
  apply JsFacts.rd_in_range.
  unfold WakingLife.noise_table in Ht. rewrite Ht.
  pose proof (Z.mod_pos_bound (Z.abs y) WakingLife.size) as Hy.
  pose proof (Z.mod_pos_bound (Z.abs x) WakingLife.size) as Hx.
  unfold WakingLife.size in *. lia.
Qed.

(** The theorem at the lattice point [(515, -3)] of a generated table. *)
Lemma noise2D_lattice_witness :
  WakingLife.exampleTable
    !! Z.to_nat ((Z.abs (-3) mod WakingLife.size) * WakingLife.size
                 + Z.abs 515 mod WakingLife.size)
  = Some (WakingLife.noise2D (IZR 515) (IZR (-3)) WakingLife.exampleTable).
Proof.
  apply (noise2D_lattice 515 (-3) WakingLife.exampleTable).
  unfold WakingLife.exampleTable.
  apply WakingLifeFacts.generateNoiseTable_ok.
Defined.

(** C8.  With a single octave [fbm] is the single sample [noise2D] at the
    same point: the amplitude [0.5] that weighs the sample is also the
    total amplitude the sum is divided by. *)
Theorem fbm_single_octave (x y : R) (table : list R) :
  WakingLife.fbm x y table 1 = WakingLife.noise2D x y table.
Proof.
  unfold WakingLife.fbm. simpl WakingLife.fbm_loop.
  cbn [WakingLife.value WakingLife.maxValue WakingLife.amplitude
       WakingLife.frequency WakingLife.fbm_step].
  rewrite !Rmult_1_r. field. lra.
Qed.

(** C9.  With a motion map of zeros (of the size [detectMotion] gives it)
    and a global motion of zero, the motion multiplier of [draw] is [1] at
    every pixel, whatever the clock and the frame counter are. *)
Theorem motionMultiplier_still (st : WakingLife.State) (x y width height : Z) :
  WakingLife.globalMotion st = 0 ->
  (forall m, WakingLife.motionMap st = Some m ->
     Forall (fun v => v = 0) m /\
     Z.of_nat (length m) =
       ((width / WakingLife.gridSize) * (height / WakingLife.gridSize))%Z) ->
  WakingLife.motionMultiplier st x y width height = 1.
Proof.
  intros Hg Hm. unfold WakingLife.motionMultiplier, WakingLife.getMotionAt.
  rewrite Hg.
  destruct (WakingLife.motionMap st) as [m|] eqn:E; [|lra].
  destruct (Hm m eq_refl) as [Hz _].
  destruct (_ || _)%bool; [lra|].
  assert (forall i, Js.rd 0 m i = 0) as Hrd.
  { intros i. unfold Js.rd. destruct (i <? 0)%Z; [reflexivity|].
    rewrite nth_lookup.
    destruct (m !! Z.to_nat i) as [v|] eqn:Hv; [|reflexivity].
    simpl. rewrite Forall_lookup in Hz. exact (Hz _ _ Hv). }
  rewrite Hrd. lra.
Qed.

(** The theorem at a pixel of a filter at rest on a 32 by 32 canvas. *)
Lemma motionMultiplier_still_witness :
  WakingLife.motionMultiplier WakingLife.atRest 20 7 32 32 = 1.
Proof.
  apply motionMultiplier_still; [reflexivity|].
  intros m Hm. injection Hm as <-. split; [|reflexivity].
  repeat constructor.
Defined.

(** ** ArcherFilter *)

Module ArcherFacts.
Import Js JsFacts Archer.

Lemma draw_Some (p : Params) (videoWidth width height : Z) (src : list Z)
    (out : Output) :
  draw p videoWidth width height src = Some out ->
  out = render p width height src.
Proof.
  unfold draw. destruct (videoWidth =? 0)%Z; [discriminate|].
  intros H. now injection H.
Qed.

(** *** The scan of the second pass *)

(** Without a neighbourhood to scan the largest edge is the initial [0]. *)
Lemma maxEdge_negative (e : list R) (width thickness x y : Z) :
  (thickness < 0)%Z -> maxEdge e width thickness x y = 0.
Proof.
  intros Ht. unfold maxEdge, range.
  replace (seqZ (- thickness) (thickness + 1 - - thickness)) with (@nil Z).
  - reflexivity.
  - symmetry. unfold seqZ. replace (Z.to_nat _) with O by lia. reflexivity.
Qed.

(** With thickness zero the neighbourhood is the pixel itself. *)
Lemma maxEdge_zero (e : list R) (width x y : Z) :
  maxEdge e width 0 x y = Rmax 0 (rd 0 e (y * width + x)).
Proof.
  unfold maxEdge. change (range (- 0) (0 + 1)) with [0%Z]. cbn [foldl].
  change (0 * 0 + 0 * 0)%Z with 0%Z. rewrite sqrt_0, !Z.add_0_r.
  destruct (Rle_dec 0 0) as [_ | H]; [reflexivity | lra].
Qed.


(** *** The border of the image *)

Section Border.

Variables width height : Z.

Local Abbreviation clear b :=
  (border_clear width height (dst b) /\ edges_border_clear width height (edges b)).

Lemma interior_not_border (x y kx ky : Z) :
  on_border width height x y -> interior width height kx ky ->
  (ky * width + kx)%Z <> (y * width + x)%Z.
Proof.
  intros (Hx & Hy & Hb) [Hkx Hky] E.
  apply cell_inj in E as [-> ->]; lia.
Qed.

Lemma fresh_border : clear (fresh width height).
Proof.
  unfold fresh. cbn [dst edges]. split.
  - intros x y c _ _. apply rd_replicate.
  - intros x y _. apply rd_replicate.
Qed.

Section FirstPass.

Variables (p : Params) (src : list Z).

Lemma pass1_pixel_border (b : Buffers) (ky kx : Z) :
  interior width height kx ky ->
  clear b -> clear (pass1_pixel p src width b (ky, kx)).
Proof.
  intros Hk [Hd He]. unfold pass1_pixel. cbn [dst edges]. split.
  - intros x y c Hb Hc.
    pose proof (interior_not_border _ _ _ _ Hb Hk) as Hn.
    rewrite !rd_wr_ne by lia. now apply Hd.
  - intros x y Hb.
    pose proof (interior_not_border _ _ _ _ Hb Hk) as Hn.
    rewrite rd_wr_ne by lia. now apply He.
Qed.

Lemma pass1_border (b : Buffers) :
  clear b -> clear (pass1 p src width height b).
Proof.
  intros Hb. unfold pass1.
  rewrite (foldl_pairs (pass1_pixel p src width)).
  apply (foldl_invariant (pass1_pixel p src width) (fun b => clear b));
    [exact Hb|].
  intros [ky kx] b' Hk Hb'.
  apply elem_of_pairs in Hk as [Hky Hkx]. apply elem_of_range in Hky, Hkx.
  apply pass1_pixel_border; [split; lia | exact Hb'].
Qed.

End FirstPass.

Lemma darken_border (d : list Z) (n c : Z) (k : R) :
  (forall x y, on_border width height x y -> n <> (y * width + x)%Z) ->
  (0 <= c < 4)%Z ->
  border_clear width height d ->
  border_clear width height (darken d (n * 4 + c) k).
Proof.
  intros Hn Hc Hd x y c' Hb Hc'. unfold darken.
  specialize (Hn x y Hb). rewrite rd_wr_ne by lia. now apply Hd.
Qed.

(** The second pass writes a pixel only where it found an edge above the
    threshold, and the border has none: with a thickness of at least one
    the pass stays inside, with thickness zero it looks at the pixel's own
    edge value, which is zero on the border. *)
Lemma pass2_pixel_border (thickness : Z) (e : list R) (d : list Z) (ky kx : Z) :
  (thickness <= kx < width - thickness)%Z ->
  (thickness <= ky < height - thickness)%Z ->
  edges_border_clear width height e ->
  border_clear width height d ->
  border_clear width height (pass2_pixel width thickness e d (ky, kx)).
Proof.
  intros Hkx Hky He Hd. unfold pass2_pixel.
  destruct (Rgt_dec _ _) as [Hm | _]; [|exact Hd].
  unfold edgeThreshold in Hm.
  assert (0 <= thickness)%Z as Ht.
  { destruct (Z_lt_le_dec thickness 0) as [Hneg | Hpos]; [|exact Hpos].
    rewrite maxEdge_negative in Hm by assumption. lra. }
  assert (forall x y, on_border width height x y ->
            (ky * width + kx)%Z <> (y * width + x)%Z) as Hn.
  { intros x y Hb E. pose proof Hb as (Hx & Hy & Hside).
    apply cell_inj in E as [-> ->]; [|lia|lia].
    destruct (Z.eq_dec thickness 0%Z) as [-> | Hpos]; [|lia].
    rewrite maxEdge_zero, (He x y Hb) in Hm.
    unfold Rmax in Hm. destruct (Rle_dec 0 0); lra. }
  apply (darken_border _ (ky * width + kx) 2); [exact Hn | lia |].
  apply (darken_border _ (ky * width + kx) 1); [exact Hn | lia |].
  rewrite <- (Z.add_0_r ((ky * width + kx) * 4)).
  apply (darken_border _ (ky * width + kx) 0); [exact Hn | lia |].
  exact Hd.
Qed.

Lemma pass2_border (p : Params) (b : Buffers) :
  clear b -> border_clear width height (dst (pass2 p width height b)).
Proof.
  intros [Hd He]. unfold pass2. cbn [dst].
  rewrite (foldl_pairs (pass2_pixel width (floor (edgeThickness p)) (edges b))).
  apply (foldl_invariant _ (border_clear width height)); [exact Hd|].
  intros [ky kx] d Hk Hd'.
  apply elem_of_pairs in Hk as [Hky Hkx]. apply elem_of_range in Hky, Hkx.
  now apply pass2_pixel_border.
Qed.

Lemma render_border (p : Params) (src : list Z) :
  border_clear width height (image (render p width height src)).
Proof.
  unfold render. cbv zeta. cbn [image].
  apply pass2_border, pass1_border, fresh_border.
Qed.

End Border.

(** *** The first pass, pixel by pixel *)

Lemma rd_four (d : list Z) (i : Z) (v0 v1 v2 v3 : Z) :
  (0 <= i)%Z -> (i + 3 < Z.of_nat (length d))%Z ->
  let d' := wr (wr (wr (wr d i v0) (i + 1) v1) (i + 2) v2) (i + 3) v3 in
  rd 0%Z d' i = v0 /\ rd 0%Z d' (i + 1) = v1 /\
  rd 0%Z d' (i + 2) = v2 /\ rd 0%Z d' (i + 3) = v3.
Proof.
  intros H0 H3 d'. unfold d'. repeat split.
  - rewrite !rd_wr_ne by lia. apply rd_wr_eq. lia.
  - rewrite !rd_wr_ne by lia. apply rd_wr_eq. rewrite length_wr. lia.
  - rewrite rd_wr_ne by lia. apply rd_wr_eq. rewrite !length_wr. lia.
  - apply rd_wr_eq. rewrite !length_wr. lia.
Qed.

Lemma pixel_four_ne (d : list Z) (width n x y : Z) (v0 v1 v2 v3 : Z) :
  n <> (y * width + x)%Z ->
  pixel (wr (wr (wr (wr d (n * 4) v0) (n * 4 + 1) v1) (n * 4 + 2) v2)
            (n * 4 + 3) v3) width x y
  = pixel d width x y.
Proof.
  intros Hn. unfold pixel. rewrite !rd_wr_ne by lia. reflexivity.
Qed.

Section FirstPassPixels.

Variables (p : Params) (src : list Z) (width height : Z).

Local Abbreviation cells := (interior_cells width height).

Lemma cells_interior (ky kx : Z) :
  (ky, kx) ∈ cells <-> interior width height kx ky.
Proof.
  unfold interior_cells, interior. rewrite elem_of_pairs, !elem_of_range. tauto.
Qed.

(** One more pixel visited is one more pixel stored, and none of the pixels
    stored before is touched. *)
Lemma pass1_pixel_stored (seen rest : list (Z * Z)) (k : Z * Z) (b : Buffers) :
  cells = seen ++ k :: rest ->
  stored p src width height seen b ->
  stored p src width height (seen ++ [k]) (pass1_pixel p src width b k).
Proof.
  destruct k as [ky kx]. intros Hl [Hlen Hseen].
  assert (forall c, c ∈ seen ++ [(ky, kx)] -> c ∈ cells) as Hsub.
  { intros c Hc. rewrite Hl. apply elem_of_app in Hc as [Hc | Hc].
    - apply elem_of_app. now left.
    - apply list_elem_of_singleton in Hc as ->.
      apply elem_of_app. right. apply list_elem_of_here. }
  assert (interior width height kx ky) as [Hkx Hky].
  { apply cells_interior, Hsub, elem_of_app. right. apply list_elem_of_here. }
  pose proof (cell_range width height ky kx ltac:(lia) ltac:(lia)) as Hr.
  unfold pass1_pixel, stored. cbn [dst edges]. split.
  - now rewrite !length_wr.
  - intros y x Hin.
    destruct (decide ((y, x) = (ky, kx))) as [E | NE].
    + injection E as -> ->. unfold pixel, shaded, lumAt.
      epose proof (rd_four (dst b) ((ky * width + kx) * 4) _ _ _ _
                     ltac:(lia) ltac:(lia)) as (E0 & E1 & E2 & E3).
      rewrite E0, E1, E2, E3. reflexivity.
    + assert (interior width height x y) as [Hx Hy]
        by (apply cells_interior, Hsub, Hin).
      apply elem_of_app in Hin as [Hin | Hin].
      2:{ apply list_elem_of_singleton in Hin. contradiction. }
      rewrite pixel_four_ne; [now apply Hseen|].
      intros E. apply cell_inj in E as [-> ->]; [|lia|lia]. now apply NE.
Qed.

Lemma pass1_pixels (b : Buffers) (x y : Z) :
  Z.of_nat (length (dst b)) = (width * height * 4)%Z ->
  interior width height x y ->
  pixel (dst (pass1 p src width height b)) width x y = shaded p src width x y.
Proof.
  intros Hlen Hxy. unfold pass1.
  rewrite (foldl_pairs (pass1_pixel p src width)). fold (interior_cells width height).
  assert (stored p src width height cells
            (foldl (pass1_pixel p src width) b cells)) as [_ H].
  { apply (foldl_visited (pass1_pixel p src width) (stored p src width height)).
    - split; [exact Hlen|]. intros y' x' Hin. now apply elem_of_nil in Hin.
    - intros seen k rest b'. apply pass1_pixel_stored. }
  now apply H, cells_interior.
Qed.

End FirstPassPixels.

(** *** A frame of one colour *)



Lemma fresh_length (width height : Z) :
  (0 <= width * height)%Z ->
  Z.of_nat (length (dst (fresh width height))) = (width * height * 4)%Z.
Proof. intros H. unfold fresh. cbn [dst]. rewrite length_replicate. lia. Qed.

Section Uniform.

Variables (width height : Z) (src : list Z) (r g b a : Z).
Hypothesis Hu : uniform width height src r g b a.





Variable p : Params.



End Uniform.


(** *** The gray example *)

Lemma grayFrame_uniform : uniform 3 3 grayFrame 30 30 30 255.
Proof.
  split.
  - repeat split; try lia. repeat constructor; lia.
  - intros i Hi.
    assert (i = 0 \/ i = 1 \/ i = 2 \/ i = 3 \/ i = 4 \/ i = 5 \/ i = 6
            \/ i = 7 \/ i = 8)%Z as Hcases by lia.
    repeat destruct Hcases as [-> | Hcases]; try subst i; repeat split.
Qed.

(** *** The blue example *)






End ArcherFacts.




(** C10.  Whatever the source frame holds, the passes of [draw] leave every
    pixel of the outermost one-pixel border of the output image at its
    initial value, transparent black. *)
Theorem draw_border_untouched (p : Archer.Params) (videoWidth width height : Z)
    (src : list Z) (out : Archer.Output) (x y : Z) :
  Archer.frame width height src ->
  Archer.draw p videoWidth width height src = Some out ->
  Archer.on_border width height x y ->
  Archer.pixel (Archer.image out) width x y = (0, 0, 0, 0)%Z.
Proof.
  intros _ Hdraw Hb.
  apply ArcherFacts.draw_Some in Hdraw as ->.
  pose proof (ArcherFacts.render_border width height p src) as H.
  unfold Archer.pixel.
  pose proof (H x y 0%Z Hb ltac:(lia)) as H0.
  rewrite Z.add_0_r in H0.
  rewrite H0, (H x y 1%Z Hb), (H x y 2%Z Hb), (H x y 3%Z Hb) by lia.
  reflexivity.
Qed.

(** The theorem at the border pixel [(2, 1)] of the gray frame. *)
Lemma draw_border_untouched_witness :
  Archer.pixel (Archer.image (Archer.render Archer.defaults 3 3 Archer.grayFrame))
    3 2 1 = (0, 0, 0, 0)%Z.
Proof.
  apply (draw_border_untouched Archer.defaults 640 3 3 Archer.grayFrame).
  - repeat split; try lia. repeat constructor; lia.
  - reflexivity.
  - unfold Archer.on_border. lia.
Defined.

(** ** MatrixFilter *)

Module MatrixFacts.
Import Js JsFacts Matrix.

(** *** The definitions on small inputs *)

Example matrixChars_count : List.length matrixChars = 56%nat.
Proof. reflexivity. Qed.

(** One half picks the entry of index [28], U+FF82. *)
Example getRandomChar_half : fst (getRandomChar halves) = Some 65410%Z.
Proof.
  unfold getRandomChar, Rng.bind, Rng.random, Rng.ret, halves. cbn [fst].
  change (Z.of_nat (List.length matrixChars)) with 56%Z.
  rewrite (floor_unique (0.5 * 56) 28) by lra. reflexivity.
Qed.

Example trim_short (p : Particle) : trim [p; p; p] = [p; p; p].
Proof. reflexivity. Qed.

(** *** [getBrightnessAt] *)

(** A base in [[0, 1]] raised to a non-negative exponent stays in
    [[0, 1]]. *)
Lemma pow_unit (x e : R) : 0 <= x <= 1 -> 0 <= e -> 0 <= pow x e <= 1.
Proof.
  intros Hx He. unfold pow.
  destruct (Req_dec_T e 0) as [_ | Hne]; [lra|].
  destruct (Rlt_dec 0 x) as [Hpos | _]; [|lra].
  unfold Rpower. split; [left; apply exp_pos|].
  rewrite <- exp_0.
  assert (ln x <= 0) as Hln.
  { destruct (Req_dec_T x 1) as [-> | Hx1]; [rewrite ln_1; lra|].
    left. rewrite <- ln_1. apply ln_increasing; lra. }
  destruct (Req_dec_T (e * ln x) 0) as [-> | Hnz]; [lra|].
  left. apply exp_increasing. nra.
Qed.

Lemma adjust_unit (c s b : R) : s <= 10 -> 0 <= adjust c s b <= 1.
Proof.
  intros Hs. unfold adjust. apply pow_unit; [|lra].
  unfold Rmax, Rmin. repeat destruct (Rle_dec _ _); lra.
Qed.

Lemma sampleSum_tiny : sampleSum [51; 51; 51; 255]%Z 1 1 0 0 = (5, 25).
Proof.
  unfold sampleSum, chan.
  change (range (- sampleRadius) (sampleRadius + 1)) with [-2; -1; 0; 1; 2]%Z.
  cbn [foldl fst snd]. eval_reads. f_equal; lra.
Qed.

Lemma sampleBrightness_tiny (s : R) :
  sampleBrightness (tiny s) [51; 51; 51; 255]%Z 0 0 = 0.2.
Proof.
  unfold sampleBrightness, tiny.
  cbn [gridWidth gridHeight videoWidth videoHeight].
  rewrite (floor_unique (0 / 1 * 1) 0) by lra.
  rewrite sampleSum_tiny. cbn [fst snd]. lra.
Qed.

(** A fifth, raised to the exponent [2 - 15 / 5 = -1], is five. *)
Lemma adjust_oversensitive : adjust 5 15 0.2 = 5.
Proof.
  unfold adjust, pow.
  assert (Rmax 0 (Rmin 1 ((0.2 - 0.5) * (5 / 5) + 0.5)) = 0.2) as ->.
  { unfold Rmax, Rmin. repeat destruct (Rle_dec _ _); lra. }
  destruct (Req_dec_T (2 - 15 / 5) 0) as [H | _]; [lra|].
  destruct (Rlt_dec 0 0.2) as [Hpos | H]; [|lra].
  replace (2 - 15 / 5) with (Ropp 1) by lra.
  rewrite Rpower_Ropp, Rpower_1 by assumption. lra.
Qed.

(** *** [updateExplosions] *)

Lemma trim_cap (l : list Particle) : (List.length (trim l) <= maxParticles)%nat.
Proof.
  unfold trim. destruct (Nat.ltb_spec maxParticles (List.length l)) as [H | H].
  - rewrite length_drop. lia.
  - exact H.
Qed.

(** [trim] keeps a suffix of the pool, the whole pool when it fits and the
    last [maxParticles] entries otherwise. *)
Lemma trim_suffix (l : list Particle) :
  exists dropped,
    l = dropped ++ trim l /\
    List.length dropped = (List.length l - maxParticles)%nat.
Proof.
  unfold trim. destruct (Nat.ltb_spec maxParticles (List.length l)) as [H | H].
  - exists (take (List.length l - maxParticles) l). split.
    + symmetry. apply take_drop.
    + rewrite length_take. lia.
  - exists []. split; [reflexivity|]. simpl. lia.
Qed.

(** [createExplosion] pushes: the pool it finds is the front of the pool it
    leaves, so a smaller index is an older particle. *)
Lemma pushParticles_appends (n : nat) (x y sx sy : R) (pool : list Particle)
    (g : Rng.t) :
  exists new, fst (pushParticles n x y sx sy pool g) = pool ++ new /\
              List.length new = n.
Proof.
  revert pool g. induction n as [| n IH]; intros pool g; simpl.
  - exists []. split; [now rewrite app_nil_r | reflexivity].
  - unfold Rng.bind at 1.
    destruct (newParticle x y sx sy g) as [q g'].
    destruct (IH (pool ++ [q]) g') as (new & Hnew & Hlen).
    exists (q :: new). split; [|simpl; now rewrite Hlen].
    rewrite Hnew, <- app_assoc. reflexivity.
Qed.

(** A particle that stays in the pool has life left. *)
Lemma updateParticles_alive (l : list Particle) (g : Rng.t) :
  Forall (fun p => 0 < life p) (fst (updateParticles l g)).
Proof.
  revert g. induction l as [| p rest IH]; intros g; cbn [updateParticles].
  - constructor.
  - unfold Rng.bind at 1. specialize (IH g).
    destruct (updateParticles rest g) as [rest' g1]. cbn [fst] in IH.
    unfold Rng.bind at 1.
    destruct (updateParticle p g1) as [[q keep] g2] eqn:E.
    unfold Rng.ret. cbn [fst snd].
    destruct keep; [|exact IH]. constructor; [|exact IH].
    unfold updateParticle, Rng.bind, Rng.random, Rng.ret in E.
    destruct ((if Rlt_dec (g1 0%nat) 0.05 then getRandomChar
               else fun g => (pchar p, g)) (fun n => g1 (S n))) as [c g3].
    injection E as <- Hkeep _. cbn [life].
    destruct (Rle_dec (life p - decay p) 0); [discriminate | lra].
Qed.

Lemma createExplosion_appends (w h : Z) (x y i : R) (pool : list Particle)
    (g : Rng.t) :
  exists new, fst (createExplosion w h x y i pool g) = pool ++ new.
Proof.
  unfold createExplosion, Rng.bind, Rng.random.
  destruct (pushParticles_appends (Z.to_nat (15 + floor (i * 30))) x y
              (IZR w * (0.15 + g 0%nat * 0.1)) (IZR h * (0.15 + g 0%nat * 0.1))
              pool (fun n => g (S n))) as (new & Hnew & _).
  exists new. exact Hnew.
Qed.

(** *** [updateStreams] *)

(** The average brightness of a column of non-negative cells is not
    negative, so a stream never moves up while the fall speed setting is
    not negative: a head that is past the reset line before the advance is
    past it after. *)
Lemma advance_ge (st : State) (s : Stream) :
  (0 < gridHeight st)%Z -> 0 <= fallSpeed st -> 0 <= speed s ->
  (forall y, 0 <= brightness (cellAt (grid st) (sx s) y)) ->
  sy s <= advance st s.
Proof.
  intros Hh Hf Hs Hb. unfold advance, avgBrightness.
  assert (0 <= foldl (fun a y => a + brightness (cellAt (grid st) (sx s) y)) 0
                     (range 0 (gridHeight st))) as Hsum.
  { apply (foldl_invariant _ (fun a => 0 <= a)); [lra|].
    intros y a _ Ha. specialize (Hb y). lra. }
  apply IZR_lt in Hh.
  assert (0 <= foldl (fun a y => a + brightness (cellAt (grid st) (sx s) y)) 0
                     (range 0 (gridHeight st)) / IZR (gridHeight st)) as Havg.
  { apply Rmult_le_pos; [exact Hsum|]. left. now apply Rinv_0_lt_compat. }
  assert (0 <= fallSpeed st / 5) as Hf5 by lra.
  assert (0 <= speed s * (fallSpeed st / 5)) as Hp by (apply Rmult_le_pos; assumption).
  nra.
Qed.

Lemma random_length (r : R) :
  0 <= r < 1 -> (minLength <= 5 + floor (r * 15) <= maxLength)%Z.
Proof.
  intros Hr. unfold minLength, maxLength.
  pose proof (floor_mono 0 (r * 15) ltac:(lra)) as Hlo.
  pose proof (floor_bounds (r * 15)) as Hb.
  replace 0 with (IZR 0) in Hlo by reflexivity. rewrite floor_IZR in Hlo.
  assert (IZR (floor (r * 15)) < IZR 15) as Hhi by lra.
  apply lt_IZR in Hhi. lia.
Qed.

Lemma random_speed (r : R) : 0 <= r < 1 -> 0.3 <= 0.3 + r * 0.4 < 0.7.
Proof. intros Hr. lra. Qed.

(** The update keeps the speed and the trail length of a stream within
    their bounds. *)
Lemma updateStream_ok (st : State) (s : Stream) (g : Rng.t) :
  Rng.unit_rng g -> stream_ok s ->
  stream_ok (fst (updateStream st s g)) /\ Rng.unit_rng (snd (updateStream st s g)).
Proof.
  intros Hg Hs. unfold updateStream.
  destruct (Rgt_dec _ _) as [_ | _].
  - cbn. split; [|intros n; apply Hg].
    split; cbn [speed length]; [apply random_speed | apply random_length]; apply Hg.
  - cbn. split; [exact Hs | exact Hg].
Qed.

Lemma updateStreamList_ok (st : State) (l : list Stream) (g : Rng.t) :
  Rng.unit_rng g -> Forall stream_ok l ->
  Forall stream_ok (fst (updateStreamList st l g)) /\
  Rng.unit_rng (snd (updateStreamList st l g)).
Proof.
  revert g. induction l as [| s rest IH]; intros g Hg Hl.
  - cbn. split; [constructor | exact Hg].
  - apply Forall_cons in Hl as [Hs Hrest]. cbn [updateStreamList].
    destruct (updateStream_ok st s g Hg Hs) as [Hs' Hg1].
    destruct (IH _ Hg1 Hrest) as [Hrest' Hg2].
    rewrite bind_run. cbv beta. rewrite bind_run. cbv beta.
    unfold Rng.ret. cbn [fst snd]. split; [|exact Hg2].
    constructor; assumption.
Qed.

(** [initGrid] creates streams within the bounds. *)
Lemma initStreams_ok (gridHeight : Z) (xs : list Z) (g : Rng.t) :
  Rng.unit_rng g ->
  Forall stream_ok (fst (initStreams gridHeight xs g)) /\
  Rng.unit_rng (snd (initStreams gridHeight xs g)).
Proof.
  revert g. induction xs as [| x xs IH]; intros g Hg.
  - cbn. split; [constructor | exact Hg].
  - cbn [initStreams]. cbv beta iota delta [Rng.bind Rng.random Rng.ret].
    destruct (IH (fun n => g (S (S (S n)))) ltac:(intros n; apply Hg)) as [Hl Hg'].
    destruct (initStreams gridHeight xs (fun n => g (S (S (S n))))) as [rest g'].
    cbn [fst snd] in *. split; [|exact Hg'].
    constructor; [|exact Hl].
    split; cbn [speed length]; [apply random_speed | apply random_length]; apply Hg.
Qed.

Lemma advance_far : advance (tiny 6) farStream = 10.4.
Proof.
  unfold advance, avgBrightness, tiny, farStream.
  cbn [gridHeight grid sx sy speed fallSpeed].
  change (range 0 1) with [0%Z]. cbn [foldl].
  change (cellAt [[dimCell]] 0 0) with dimCell.
  unfold dimCell. cbn [brightness]. lra.
Qed.

End MatrixFacts.

(** C1, as the code has it.  While the sensitivity setting is at most [10],
    so that the exponent [2 - sensitivity / 5] is not negative, the
    brightness [getBrightnessAt] returns lies in [[0, 1]] for every contrast
    setting and every sampled brightness: the clamp comes before the
    exponent, not after it. *)
Theorem getBrightnessAt_unit (st : Matrix.State) (gridX gridY : Z) :
  Matrix.sampling_ok st ->
  Matrix.brightnessSensitivity st <= 10 ->
  0 <= Matrix.getBrightnessAt st gridX gridY <= 1.
Proof.
  intros _ Hs. unfold Matrix.getBrightnessAt.
  destruct (Matrix.brightnessData st) as [data|]; [|lra].
  apply MatrixFacts.adjust_unit. exact Hs.
Qed.

(** The theorem at the default sensitivity [6]. *)
Lemma getBrightnessAt_unit_witness :
  0 <= Matrix.getBrightnessAt (Matrix.tiny 6) 0 0 <= 1.
Proof.
  apply getBrightnessAt_unit.
  - unfold Matrix.sampling_ok, Matrix.tiny.
    cbn [Matrix.gridWidth Matrix.gridHeight Matrix.videoWidth Matrix.videoHeight
         Matrix.brightnessData].
    repeat split; try lia. intros data H. injection H as <-. reflexivity.
  - unfold Matrix.tiny. cbn [Matrix.brightnessSensitivity]. lra.
Defined.

(** C1 as the spec words it fails: with the sensitivity at [15] the exponent
    is [-1], and a pixel of brightness [0.2] comes back as [5]. *)
Lemma getBrightnessAt_oversensitive :
  Matrix.sampleBrightness (Matrix.tiny 15) [51; 51; 51; 255]%Z 0 0 = 0.2 /\
  Matrix.getBrightnessAt (Matrix.tiny 15) 0 0 = 5 /\
  ~ (0 <= Matrix.getBrightnessAt (Matrix.tiny 15) 0 0 <= 1).
Proof.
  assert (Matrix.getBrightnessAt (Matrix.tiny 15) 0 0 = 5) as H.
  { unfold Matrix.getBrightnessAt.
    change (Matrix.brightnessData (Matrix.tiny 15)) with (Some [51; 51; 51; 255]%Z).
    cbv beta iota.
    rewrite MatrixFacts.sampleBrightness_tiny.
    change (Matrix.contrast (Matrix.tiny 15)) with 5.
    change (Matrix.brightnessSensitivity (Matrix.tiny 15)) with 15.
    apply MatrixFacts.adjust_oversensitive. }
  split; [apply MatrixFacts.sampleBrightness_tiny|].
  split; [exact H|]. rewrite H. lra.
Qed.

(** C2.  Whatever the pool and the random draws, the pool that
    [updateExplosions] leaves has at most [500] particles, and it is the
    tail of the particles that survived the update: what is cut is the
    front of the pool, where the oldest particles are. *)
Theorem updateExplosions_capped (pool : list Matrix.Particle) (g : Rng.t) :
  (List.length (fst (Matrix.updateExplosions pool g)) <= 500)%nat /\
  exists dropped,
    fst (Matrix.updateParticles pool g)
      = dropped ++ fst (Matrix.updateExplosions pool g) /\
    List.length dropped
      = (List.length (fst (Matrix.updateParticles pool g)) - 500)%nat.
Proof.
  unfold Matrix.updateExplosions, Rng.bind, Rng.ret.
  destruct (Matrix.updateParticles pool g) as [survivors g']. cbn [fst].
  split; [apply MatrixFacts.trim_cap | apply MatrixFacts.trim_suffix].
Qed.

(** C5.  When the head of a stream, advanced by the update, is more than the
    trail length below the grid, [updateStreams] puts it at minus its trail
    length, which lies in [[-maxLength, 0)], and draws a new speed
    [0.3 + r * 0.4] in [[0.3, 0.7)] and a new integer trail length
    [5 + floor (r' * 15)] in [[5, 19]] from the next two random values.
    The stream comes with a trail length within its bounds, as [initGrid]
    and every earlier update leave it ([MatrixFacts.initStreams_ok],
    [MatrixFacts.updateStreamList_ok]); a head that is past the line before
    the advance is past it after ([MatrixFacts.advance_ge]). *)
Theorem updateStream_resets (st : Matrix.State) (s : Matrix.Stream) (g : Rng.t) :
  Matrix.grid_ok st ->
  (0 <= Matrix.sx s < Matrix.gridWidth st)%Z ->
  (Matrix.minLength <= Matrix.length s <= Matrix.maxLength)%Z ->
  Rng.unit_rng g ->
  Matrix.advance st s - IZR (Matrix.length s) > IZR (Matrix.gridHeight st) ->
  let s' := fst (Matrix.updateStream st s g) in
  Matrix.sy s' = - IZR (Matrix.length s) /\
  - IZR Matrix.maxLength <= Matrix.sy s' < 0 /\
  Matrix.speed s' = 0.3 + g 0%nat * 0.4 /\
  0.3 <= Matrix.speed s' < 0.7 /\
  Matrix.length s' = (5 + Js.floor (g 1%nat * 15))%Z /\
  (5 <= Matrix.length s' <= 19)%Z.
Proof.
  intros _ _ Hlen Hg Hfar s'. subst s'. unfold Matrix.updateStream.
  destruct (Rgt_dec _ _) as [_ | H]; [|contradiction].
  cbn. unfold Matrix.minLength, Matrix.maxLength in *.
  destruct Hlen as [Hlo Hhi]. apply IZR_le in Hlo, Hhi.
  pose proof (MatrixFacts.random_speed (g 0%nat) (Hg 0%nat)) as Hsp.
  pose proof (MatrixFacts.random_length (g 1%nat) (Hg 1%nat)) as Hln.
  unfold Matrix.minLength, Matrix.maxLength in Hln.
  repeat split; try lra; try lia.
Qed.

(** The theorem on a stream ten rows below a grid of one row. *)
Lemma updateStream_resets_witness :
  Matrix.sy (fst (Matrix.updateStream (Matrix.tiny 6) Matrix.farStream Matrix.halves))
    = - IZR (Matrix.length Matrix.farStream) /\
  - IZR Matrix.maxLength
    <= Matrix.sy (fst (Matrix.updateStream (Matrix.tiny 6) Matrix.farStream Matrix.halves))
    < 0 /\
  Matrix.speed (fst (Matrix.updateStream (Matrix.tiny 6) Matrix.farStream Matrix.halves))
    = 0.3 + Matrix.halves 0%nat * 0.4 /\
  0.3 <= Matrix.speed (fst (Matrix.updateStream (Matrix.tiny 6) Matrix.farStream Matrix.halves))
    < 0.7 /\
  Matrix.length (fst (Matrix.updateStream (Matrix.tiny 6) Matrix.farStream Matrix.halves))
    = (5 + Js.floor (Matrix.halves 1%nat * 15))%Z /\
  (5 <= Matrix.length (fst (Matrix.updateStream (Matrix.tiny 6) Matrix.farStream Matrix.halves))
     <= 19)%Z.
Proof.
  apply (updateStream_resets (Matrix.tiny 6) Matrix.farStream Matrix.halves).
  - unfold Matrix.grid_ok, Matrix.tiny. cbn [Matrix.gridHeight Matrix.gridWidth Matrix.grid].
    repeat split; try lia. repeat constructor.
  - unfold Matrix.farStream, Matrix.tiny. cbn [Matrix.sx Matrix.gridWidth]. lia.
  - unfold Matrix.farStream, Matrix.minLength, Matrix.maxLength.
    cbn [Matrix.length]. lia.
  - intros n. unfold Matrix.halves. lra.
  - rewrite MatrixFacts.advance_far.
    unfold Matrix.farStream, Matrix.tiny. cbn [Matrix.length Matrix.gridHeight]. lra.
Defined.

(** * Further properties of the code *)

(** ** Quantization and byte stores *)

Module JsMore.
Import Js JsFacts.

Lemma clamped_byte (x : R) : 0 <= Rmin (Rmax x 0) 255 <= 255.
Proof. unfold Rmin, Rmax. repeat destruct (Rle_dec _ _); lra. Qed.

(** A store into a byte array always leaves a byte. *)
Lemma toUint8Clamp_range (x : R) : (0 <= toUint8Clamp x <= 255)%Z.
Proof.
  unfold toUint8Clamp.
  pose proof (clamped_byte x) as Hc. set (c := Rmin (Rmax x 0) 255) in *.
  pose proof (floor_bounds c) as Hf.
  assert (0 <= floor c)%Z as H0.
  { replace 0%Z with (floor 0) by (apply (floor_IZR 0)). apply floor_mono. lra. }
  assert (floor c <= 255)%Z as H1.
  { replace 255%Z with (floor 255) by (apply (floor_IZR 255)). apply floor_mono. lra. }
  assert (IZR (floor c) + 0.5 <= c -> (floor c + 1 <= 255)%Z) as H2.
  { intros H. assert (IZR (floor c) < IZR 255) as Hlt by lra.
    apply lt_IZR in Hlt. lia. }
  destruct (Rlt_dec _ _); [split; [lia | apply H2; lra]|].
  destruct (Rlt_dec _ _); [lia|].
  destruct (Z.even _); [lia | split; [lia | apply H2; lra]].
Qed.

(** It is within one half of the clamped number. *)
Lemma toUint8Clamp_near (x : R) :
  0 <= x <= 255 -> x - 0.5 <= IZR (toUint8Clamp x) <= x + 0.5.
Proof.
  intros Hx. unfold toUint8Clamp.
  assert (Rmin (Rmax x 0) 255 = x) as ->
    by (unfold Rmin, Rmax; repeat destruct (Rle_dec _ _); lra).
  pose proof (floor_bounds x) as Hf.
  destruct (Rlt_dec _ _); [rewrite plus_IZR; lra|].
  destruct (Rlt_dec _ _); [lra|].
  destruct (Z.even _); [lra | rewrite plus_IZR; lra].
Qed.

(** It never exceeds a whole number that bounds the number stored. *)
Lemma toUint8Clamp_le (x : R) (z : Z) :
  (0 <= z <= 255)%Z -> x <= IZR z -> (toUint8Clamp x <= z)%Z.
Proof.
  intros [Hz0 Hz1] Hx. apply IZR_le in Hz0, Hz1. unfold toUint8Clamp.
  assert (Rmin (Rmax x 0) 255 <= IZR z) as Hc
    by (unfold Rmin, Rmax; repeat destruct (Rle_dec _ _); lra).
  set (c := Rmin (Rmax x 0) 255) in *.
  pose proof (floor_bounds c) as Hf.
  assert (floor c <= z)%Z as H0.
  { rewrite <- (floor_IZR z). apply floor_mono. exact Hc. }
  assert (IZR (floor c) + 0.5 <= c -> (floor c + 1 <= z)%Z) as H2.
  { intros H. assert (IZR (floor c) < IZR z) as Hlt by lra.
    apply lt_IZR in Hlt. lia. }
  destruct (Rlt_dec _ _); [apply H2; lra|].
  destruct (Rlt_dec _ _); [lia|].
  destruct (Z.even _); [lia | apply H2; lra].
Qed.

Lemma round_near (x : R) : x - / 2 < IZR (round x) <= x + / 2.
Proof. unfold round. pose proof (floor_bounds (x + / 2)). lra. Qed.

End JsMore.

(** X1.  Quantization picks the nearest level: the result is a whole number
    of steps and lies within half a step of the value, for every level
    count other than one. *)
Theorem quantize_nearest (levels v : R) :
  levels <> 1 ->
  exists k : Z,
    Js.quantize levels v = IZR k * (255 / (levels - 1)) /\
    Rabs (Js.quantize levels v - v) <= Rabs (255 / (levels - 1)) / 2.
Proof.
  intros H. exists (Js.round (v / (255 / (levels - 1)))).
  split; [reflexivity|]. unfold Js.quantize.
  pose proof (JsFacts.step_nonzero levels H) as Hs.
  set (step := 255 / (levels - 1)) in *.
  pose proof (JsMore.round_near (v / step)) as Hr.
  replace (IZR (Js.round (v / step)) * step - v)
    with ((IZR (Js.round (v / step)) - v / step) * step) by (field; exact Hs).
  rewrite Rabs_mult.
  assert (Rabs (IZR (Js.round (v / step)) - v / step) <= / 2) as Hd
    by (apply Rabs_le; lra).
  pose proof (Rabs_pos step). nra.
Qed.

(** The theorem at six levels and the channel value [100]. *)
Lemma quantize_nearest_witness :
  exists k : Z,
    Js.quantize 6 100 = IZR k * (255 / (6 - 1)) /\
    Rabs (Js.quantize 6 100 - 100) <= Rabs (255 / (6 - 1)) / 2.
Proof. apply quantize_nearest. lra. Defined.

(** X2.  With a whole number [N >= 2] of levels a channel value in
    [[0, 255]] leaves the quantization and the clamp that follows it as one
    of the [N] levels [k * 255 / (N - 1)], [0 <= k <= N - 1]: a number of
    [[0, 255]], within half a step of the value. *)
Theorem quantize_palette (N : Z) (v : R) :
  (2 <= N)%Z -> 0 <= v <= 255 ->
  exists k : Z,
    (0 <= k <= N - 1)%Z /\
    Js.quantizeClamp (IZR N) v = IZR k * (255 / (IZR N - 1)) /\
    0 <= Js.quantizeClamp (IZR N) v <= 255 /\
    Rabs (Js.quantizeClamp (IZR N) v - v) <= 255 / (IZR N - 1) / 2.
Proof.
  intros HN Hv. apply IZR_le in HN.
  assert (0 < IZR N - 1) as Hpos by lra.
  assert (0 < 255 / (IZR N - 1)) as Hstep
    by (apply Rdiv_lt_0_compat; lra).
  set (step := 255 / (IZR N - 1)) in *.
  assert ((IZR N - 1) * step = 255) as Htop by (unfold step; field; lra).
  exists (Js.round (v / step)).
  assert (0 <= Js.round (v / step) <= N - 1)%Z as Hk.
  { split.
    - rewrite <- (JsFacts.round_IZR 0). apply JsFacts.round_mono.
      apply Rmult_le_pos; [lra|]. left. now apply Rinv_0_lt_compat.
    - rewrite <- (JsFacts.round_IZR (N - 1)). apply JsFacts.round_mono.
      rewrite minus_IZR. apply Rmult_le_reg_r with step; [exact Hstep|].
      unfold Rdiv at 1. rewrite Rmult_assoc, Rinv_l by lra. lra. }
  assert (0 <= Js.quantize (IZR N) v <= 255) as Hq.
  { unfold Js.quantize. fold step. destruct Hk as [Hk0 Hk1].
    apply IZR_le in Hk0, Hk1. rewrite minus_IZR in Hk1. split; nra. }
  assert (Js.quantizeClamp (IZR N) v = Js.quantize (IZR N) v) as ->
    by (unfold Js.quantizeClamp; now apply JsFacts.clamp_id).
  split; [exact Hk|]. split; [reflexivity|]. split; [exact Hq|].
  unfold Js.quantize. fold step.
  pose proof (JsMore.round_near (v / step)) as Hr.
  replace (IZR (Js.round (v / step)) * step - v)
    with ((IZR (Js.round (v / step)) - v / step) * step) by (field; lra).
  rewrite Rabs_mult, (Rabs_right step) by lra.
  assert (Rabs (IZR (Js.round (v / step)) - v / step) <= / 2) as Hd
    by (apply Rabs_le; lra).
  nra.
Qed.

(** The theorem at six levels and the channel value [250], which the
    quantization sends to the top level [255]. *)
Lemma quantize_palette_witness :
  exists k : Z,
    (0 <= k <= 6 - 1)%Z /\
    Js.quantizeClamp (IZR 6) 250 = IZR k * (255 / (IZR 6 - 1)) /\
    0 <= Js.quantizeClamp (IZR 6) 250 <= 255 /\
    Rabs (Js.quantizeClamp (IZR 6) 250 - 250) <= 255 / (IZR 6 - 1) / 2.
Proof. apply quantize_palette; [lia | lra]. Defined.

(** ** ArcherFilter: the image format, the second pass, the outlines *)

Module ArcherMore.
Import Js JsFacts JsMore Archer ArcherFacts.

Lemma Forall_wr {A} (P : A -> Prop) (a : list A) (i : Z) (v : A) :
  Forall P a -> P v -> Forall P (wr a i v).
Proof.
  intros Ha Hv. unfold wr. destruct (i <? 0)%Z; [exact Ha|].
  apply Forall_insert; assumption.
Qed.

Lemma rd_Forall {A} (P : A -> Prop) (d : A) (a : list A) (i : Z) :
  P d -> Forall P a -> P (rd d a i).
Proof.
  intros Hd Ha. unfold rd. destruct (i <? 0)%Z; [exact Hd|].
  rewrite nth_lookup. destruct (a !! Z.to_nat i) as [v|] eqn:E; [|exact Hd].
  simpl. rewrite Forall_lookup in Ha. exact (Ha _ _ E).
Qed.

(** Both passes keep the length of the output buffer and that it holds
    bytes. *)
Lemma darken_sized (n : nat) (d : list Z) (i : Z) (k : R) :
  well_sized n d -> well_sized n (darken d i k).
Proof.
  intros [Hl Hb]. unfold darken. split.
  - now rewrite length_wr.
  - apply Forall_wr; [exact Hb | apply toUint8Clamp_range].
Qed.

Lemma pass1_sized (p : Params) (src : list Z) (width height : Z) (b : Buffers) (n : nat) :
  well_sized n (dst b) -> well_sized n (dst (pass1 p src width height b)).
Proof.
  intros Hb. unfold pass1. rewrite (foldl_pairs (pass1_pixel p src width)).
  apply (foldl_invariant _ (fun b => well_sized n (dst b))); [exact Hb|].
  intros [ky kx] b' _ [Hl Hby]. unfold pass1_pixel. cbn [dst]. split.
  - now rewrite !length_wr.
  - repeat apply Forall_wr; try apply toUint8Clamp_range; [exact Hby|].
    unfold byte. lia.
Qed.

Lemma pass2_sized (p : Params) (width height : Z) (b : Buffers) (n : nat) :
  well_sized n (dst b) -> well_sized n (dst (pass2 p width height b)).
Proof.
  intros Hb. unfold pass2. cbn [dst].
  rewrite (foldl_pairs (pass2_pixel width (floor (edgeThickness p)) (edges b))).
  apply (foldl_invariant _ (well_sized n)); [exact Hb|].
  intros [ky kx] d _ Hd. unfold pass2_pixel.
  destruct (Rgt_dec _ _); [|exact Hd].
  now repeat apply darken_sized.
Qed.

Lemma fresh_sized (width height : Z) :
  well_sized (Z.to_nat (width * height * 4)) (dst (fresh width height)).
Proof.
  unfold fresh. cbn [dst]. split; [apply length_replicate|].
  apply Forall_replicate. unfold byte. lia.
Qed.

(** The second pass never writes an alpha channel. *)
Lemma pass2_alpha (p : Params) (width height : Z) (b : Buffers) (n : Z) :
  rd 0%Z (dst (pass2 p width height b)) (n * 4 + 3) = rd 0%Z (dst b) (n * 4 + 3).
Proof.
  unfold pass2. cbn [dst].
  rewrite (foldl_pairs (pass2_pixel width (floor (edgeThickness p)) (edges b))).
  apply (foldl_invariant _
           (fun d => rd 0%Z d (n * 4 + 3) = rd 0%Z (dst b) (n * 4 + 3)));
    [reflexivity|].
  intros [ky kx] d _ Hd. unfold pass2_pixel.
  destruct (Rgt_dec _ _); [|exact Hd].
  unfold darken. rewrite !rd_wr_ne by lia. exact Hd.
Qed.

(** *** The second pass darkens, once and by at most 85 percent *)

Lemma dimmed_refl (v : Z) : byte v -> dimmed v v.
Proof. intros [H0 _]. apply IZR_le in H0. split; [lia | lra]. Qed.

Lemma darkness_range (m : R) :
  m > edgeThreshold -> 0 <= Rmin 1 ((m - edgeThreshold) / 100) * 0.85 <= 0.85.
Proof.
  unfold edgeThreshold. intros Hm. unfold Rmin.
  destruct (Rle_dec _ _); lra.
Qed.

Lemma toUint8Clamp_dimmed (v : Z) (k : R) :
  byte v -> 0 <= k <= 0.85 -> dimmed (toUint8Clamp (IZR v * (1 - k))) v.
Proof.
  intros [H0 H1] Hk. pose proof (IZR_le _ _ H0) as H0'.
  pose proof (IZR_le _ _ H1) as H1'. split.
  - apply toUint8Clamp_le; [split; assumption | nra].
  - pose proof (toUint8Clamp_near (IZR v * (1 - k)) ltac:(nra)). nra.
Qed.

(** The three stores of the second pass on one pixel. *)
Lemma darken3_same (d : list Z) (i c : Z) (k : R) :
  (0 <= i)%Z -> (i + 2 < Z.of_nat (length d))%Z -> (0 <= c < 3)%Z ->
  rd 0%Z (darken (darken (darken d i k) (i + 1) k) (i + 2) k) (i + c)
  = toUint8Clamp (IZR (rd 0%Z d (i + c)) * (1 - k)).
Proof.
  intros H0 H2 Hc. unfold darken, Archer.chan.
  assert (c = 0 \/ c = 1 \/ c = 2)%Z as [-> | [-> | ->]] by lia.
  - rewrite Z.add_0_r, !rd_wr_ne by lia. apply rd_wr_eq. lia.
  - rewrite rd_wr_ne by lia. rewrite rd_wr_eq by (rewrite length_wr; lia).
    now rewrite rd_wr_ne by lia.
  - rewrite rd_wr_eq by (rewrite !length_wr; lia).
    now rewrite !rd_wr_ne by lia.
Qed.

Lemma darken3_other (d : list Z) (i j : Z) (k : R) :
  j <> i -> j <> (i + 1)%Z -> j <> (i + 2)%Z ->
  rd 0%Z (darken (darken (darken d i k) (i + 1) k) (i + 2) k) j = rd 0%Z d j.
Proof. intros H0 H1 H2. unfold darken. now rewrite !rd_wr_ne by lia. Qed.

Lemma pass2_negative (p : Params) (width height : Z) (b : Buffers) :
  (floor (edgeThickness p) < 0)%Z -> dst (pass2 p width height b) = dst b.
Proof.
  intros Ht. unfold pass2. cbn [dst].
  rewrite (foldl_pairs (pass2_pixel width (floor (edgeThickness p)) (edges b))).
  apply (foldl_invariant _ (fun d => d = dst b)); [reflexivity|].
  intros [ky kx] d _ ->. unfold pass2_pixel.
  rewrite maxEdge_negative by assumption.
  destruct (Rgt_dec 0 edgeThreshold) as [H | _]; [|reflexivity].
  unfold edgeThreshold in H. lra.
Qed.

Section SecondPass.

Variables (width height thickness : Z) (e : list R) (d0 : list Z).
Hypothesis Hthick : (0 <= thickness)%Z.
Hypothesis Hsize : Z.of_nat (length d0) = (width * height * 4)%Z.
Hypothesis Hbytes : Forall byte d0.

Local Abbreviation cells :=
  (pairs (range thickness (height - thickness)) (range thickness (width - thickness))).

Local Abbreviation darkened := (Archer.darkened width d0).

Lemma byte_d0 (i : Z) : byte (rd 0%Z d0 i).
Proof. apply rd_Forall; [unfold byte; lia | exact Hbytes]. Qed.

Lemma pass2_pixel_darkened (seen rest : list (Z * Z)) (k : Z * Z) (d : list Z) :
  cells = seen ++ k :: rest ->
  darkened seen d ->
  darkened (seen ++ [k]) (pass2_pixel width thickness e d k).
Proof.
  destruct k as [ky kx]. intros Hl [Hlen Hseen].
  assert ((ky, kx) ∈ cells) as Hk
    by (rewrite Hl; apply elem_of_app; right; apply list_elem_of_here).
  apply elem_of_pairs in Hk as [Hky Hkx]. apply elem_of_range in Hky, Hkx.
  assert ((ky, kx) ∉ seen) as Hfresh.
  { pose proof (NoDup_pairs _ _ (NoDup_range thickness (height - thickness))
                  (NoDup_range thickness (width - thickness))) as Hnd.
    rewrite Hl in Hnd. apply NoDup_app in Hnd as (_ & Hdis & _).
    intros Hin. apply (Hdis _ Hin). apply list_elem_of_here. }
  pose proof (cell_range width height ky kx ltac:(lia) ltac:(lia)) as Hr.
  assert (forall y x c, (0 <= x < width)%Z -> (0 <= c < 3)%Z ->
            (y, x) <> (ky, kx) ->
            forall c', (0 <= c' < 3)%Z ->
            ((y * width + x) * 4 + c)%Z <> ((ky * width + kx) * 4 + c')%Z) as Hne.
  { intros y x c Hx Hc NE c' Hc' E.
    assert (y * width + x = ky * width + kx)%Z as E' by lia.
    apply cell_inj in E' as [-> ->]; [now apply NE | lia | lia]. }
  unfold pass2_pixel.
  destruct (Rgt_dec _ _) as [Hm | _].
  - pose proof (darkness_range _ Hm) as Hd.
    split; [unfold darken; now rewrite !length_wr|].
    intros y x c Hx Hc.
    destruct (decide ((y, x) = (ky, kx))) as [E | NE].
    + injection E as -> ->.
      destruct (decide ((ky, kx) ∈ seen ++ [(ky, kx)])) as [_ | Hout].
      2:{ exfalso. apply Hout, elem_of_app. right. apply list_elem_of_here. }
      rewrite darken3_same by lia.
      pose proof (Hseen ky kx c Hx Hc) as Heq.
      destruct (decide ((ky, kx) ∈ seen)) as [Hin | _]; [contradiction|].
      rewrite Heq. apply toUint8Clamp_dimmed; [apply byte_d0 | exact Hd].
    + rewrite darken3_other.
      2:{ specialize (Hne y x c Hx Hc NE 0%Z). lia. }
      2:{ apply (Hne y x c Hx Hc NE 1%Z). lia. }
      2:{ apply (Hne y x c Hx Hc NE 2%Z). lia. }
      specialize (Hseen y x c Hx Hc).
      destruct (decide ((y, x) ∈ seen)) as [Hin | Hout];
        destruct (decide ((y, x) ∈ seen ++ [(ky, kx)])) as [Hin' | Hout'];
        try exact Hseen; exfalso.
      * apply Hout', elem_of_app. now left.
      * apply elem_of_app in Hin' as [Hin' | Hin']; [contradiction|].
        apply list_elem_of_singleton in Hin'. contradiction.
  - split; [exact Hlen|]. intros y x c Hx Hc. specialize (Hseen y x c Hx Hc).
    destruct (decide ((y, x) ∈ seen)) as [Hin | Hout];
      destruct (decide ((y, x) ∈ seen ++ [(ky, kx)])) as [Hin' | Hout'];
      try exact Hseen.
    + exfalso. apply Hout', elem_of_app. now left.
    + rewrite Hseen. apply dimmed_refl, byte_d0.
Qed.

Lemma pass2_darkened :
  darkened cells (foldl (pass2_pixel width thickness e) d0 cells).
Proof.
  apply (foldl_visited (pass2_pixel width thickness e) darkened).
  - split; [reflexivity|]. intros y x c _ _.
    destruct (decide ((y, x) ∈ [])) as [Hin | _]; [|reflexivity].
    now apply elem_of_nil in Hin.
  - intros seen k rest d. apply pass2_pixel_darkened.
Qed.

End SecondPass.

(** Every colour channel after the second pass is the channel after the
    first, darkened. *)
Lemma pass2_dims (p : Params) (width height : Z) (b : Buffers) (x y c : Z) :
  Z.of_nat (length (dst b)) = (width * height * 4)%Z ->
  Forall byte (dst b) ->
  (0 <= x < width)%Z -> (0 <= c < 3)%Z ->
  dimmed (rd 0%Z (dst (pass2 p width height b)) ((y * width + x) * 4 + c))
         (rd 0%Z (dst b) ((y * width + x) * 4 + c)).
Proof.
  intros Hsize Hbytes Hx Hc.
  destruct (Z_lt_le_dec (floor (edgeThickness p)) 0) as [Hneg | Hpos].
  - rewrite pass2_negative by assumption.
    apply dimmed_refl, rd_Forall; [unfold byte; lia | exact Hbytes].
  - unfold pass2. cbn [dst].
    rewrite (foldl_pairs (pass2_pixel width (floor (edgeThickness p)) (edges b))).
    destruct (pass2_darkened width height (floor (edgeThickness p)) (edges b)
                (dst b) Hpos Hsize Hbytes) as [_ H].
    specialize (H y x c Hx Hc).
    destruct (decide _) as [_ | _]; [exact H|].
    rewrite H. apply dimmed_refl, rd_Forall; [unfold byte; lia | exact Hbytes].
Qed.

(** *** The outlines *)

Lemma elem_of_rangeStep (lo hi step i : Z) :
  (0 < step)%Z -> i ∈ rangeStep lo hi step ->
  (lo <= i < hi)%Z /\ exists k, (0 <= k)%Z /\ i = (lo + step * k)%Z.
Proof.
  intros Hs Hi. unfold rangeStep in Hi.
  apply list_elem_of_In, in_map_iff in Hi as (k & <- & Hk).
  apply list_elem_of_In, elem_of_seqZ in Hk.
  pose proof (Z.mul_div_le (hi - lo + step - 1) step Hs) as Hdiv.
  split; [nia|]. exists k. split; [lia | reflexivity].
Qed.

Lemma strength_range (a b : R) :
  a > outlineThreshold -> b > outlineThreshold ->
  0.7 < 0.6 + Rmin 1 (Rmin a b / 150) * 0.4 <= 1.
Proof.
  unfold outlineThreshold. intros Ha Hb. unfold Rmin.
  repeat destruct (Rle_dec _ _); lra.
Qed.

(** What can be said of a stroke of [drawOutlines]. *)
Lemma outlines_at_stroke (p : Params) (e : list R) (width height y x : Z) (s : Stroke) :
  In s (outlines_at p e width height (y, x)) ->
  fromX s = x /\ fromY s = y /\
  In ((toX s - x)%Z, (toY s - y)%Z) neighbors /\
  (0 <= toX s < width)%Z /\ (0 <= toY s < height)%Z /\
  rd 0 e (y * width + x) > outlineThreshold /\
  rd 0 e (toY s * width + toX s) > outlineThreshold /\
  0.7 < alpha s <= 1 /\
  lineWidth s = edgeThickness p * 0.8.
Proof.
  unfold outlines_at. destruct (Rgt_dec _ _) as [He | _]; [|intros []].
  intros Hin. apply in_flat_map in Hin as ([dx dy] & Hn & Hs).
  cbn [fst snd] in Hs.
  destruct (_ && _)%bool eqn:Hb; [|destruct Hs].
  destruct (Rgt_dec _ _) as [Hne | _]; [|destruct Hs].
  destruct Hs as [<- | []]. cbn [fromX fromY toX toY alpha lineWidth].
  apply andb_prop in Hb as [Hb Hy1]. apply andb_prop in Hb as [Hb Hy0].
  apply andb_prop in Hb as [Hx0 Hx1].
  apply Z.leb_le in Hx0, Hy0. apply Z.ltb_lt in Hx1, Hy1.
  replace (x + dx - x)%Z with dx by lia. replace (y + dy - y)%Z with dy by lia.
  repeat split; try assumption; try lia; now apply strength_range.
Qed.

(** *** The frame with an edge *)

(** A store between a byte and a half above it and the next byte rounds
    up. *)
Lemma toUint8Clamp_up (x : R) (z : Z) :
  (0 <= z < 255)%Z -> IZR z + 0.5 < x < IZR z + 1 -> toUint8Clamp x = (z + 1)%Z.
Proof.
  intros [H0 H1] Hx. apply IZR_le in H0.
  assert (z <= 254)%Z as H2 by lia. apply IZR_le in H2.
  unfold toUint8Clamp.
  assert (Rmin (Rmax x 0) 255 = x) as ->
    by (unfold Rmin, Rmax; repeat destruct (Rle_dec _ _); lra).
  rewrite (floor_unique x z) by lra.
  destruct (Rlt_dec _ _) as [_ | H]; [reflexivity | lra].
Qed.

(** With thickness one the neighbourhood is the pixel and the four pixels
    next to it. *)
Lemma maxEdge_one (e : list R) (width x y : Z) :
  maxEdge e width 1 x y =
  Rmax (Rmax (Rmax (Rmax (Rmax 0 (rd 0 e ((y + -1) * width + (x + 0))))
                         (rd 0 e ((y + 0) * width + (x + -1))))
                   (rd 0 e ((y + 0) * width + (x + 0))))
             (rd 0 e ((y + 0) * width + (x + 1))))
       (rd 0 e ((y + 1) * width + (x + 0))).
Proof.
  unfold maxEdge. change (range (Z.opp 1) (1 + 1)) with [-1; 0; 1]%Z.
  cbn [foldl].
  repeat match goal with
  | |- context [IZR (?a * ?b + ?c * ?d)] =>
      let v := eval vm_compute in (a * b + c * d)%Z in
      change (IZR (a * b + c * d)) with (IZR v)
  end.
  rewrite sqrt_0, sqrt_1.
  assert (1 < sqrt 2) as H2.
  { rewrite <- sqrt_1 at 1. apply sqrt_lt_1_alt. lra. }
  destruct (Rle_dec (sqrt 2) 1) as [H | _]; [lra|].
  destruct (Rle_dec 1 1) as [_ | H]; [|lra].
  destruct (Rle_dec 0 1) as [_ | H]; [|lra].
  reflexivity.
Qed.

Lemma edgeFrame_frame : frame 3 3 edgeFrame.
Proof.
  repeat split; try lia. unfold edgeFrame.
  apply Forall_concat, Forall_replicate. repeat constructor; lia.
Qed.

Lemma sobel_edgeFrame : sobel edgeFrame 3 1 1 = (1020, 0).
Proof.
  unfold sobel. change (range (-1) 2) with [-1; 0; 1]%Z. cbn [foldl fst snd].
  unfold lumAt, chan. eval_reads.
  unfold kernel, sobelX, sobelY, rd, luma. simpl.
  f_equal; lra.
Qed.

Lemma edgeMagnitude_edgeFrame : edgeMagnitude edgeFrame 3 1 1 = 1020.
Proof.
  unfold edgeMagnitude. rewrite sobel_edgeFrame. cbn [fst snd].
  replace (1020 * 1020 + 0 * 0) with (1020 * 1020) by ring.
  apply sqrt_square. lra.
Qed.

(** The settings [thin] leave the gray [128] alone, and the six levels round
    it up to [153]. *)
Lemma shade_thin : shade thin (luma 128 128 128) 128 = 153%Z.
Proof.
  unfold shade, tone, thin, luma.
  cbn [colorLevels saturationBoost shadowIntensity highlightBoost].
  destruct (Rlt_dec _ 80) as [H | _]; [lra|].
  destruct (Rgt_dec _ 180) as [H | _]; [lra|].
  unfold quantizeClamp, quantize.
  rewrite (round_unique _ 3) by lra.
  replace (3 * (255 / (6 - 1))) with (IZR 153) by lra.
  rewrite clamp_id by lra. apply toUint8Clamp_byte. lia.
Qed.

(** At full darkness the level [153] becomes [0.15 * 153 = 22.95], stored as
    [23]. *)
Lemma darken_level (d : list Z) (i : Z) :
  rd 0%Z d i = 153%Z -> darken d i (1 * 0.85) = wr d i 23%Z.
Proof.
  intros H. unfold darken, chan. rewrite H.
  now rewrite (toUint8Clamp_up _ 22) by (try lia; lra).
Qed.

(** The two passes at the centre of the frame: the first stores the level
    [153] in each colour channel, and the second, next to an edge of
    magnitude [1020], darkens it to [0.15 * 153 = 22.95], stored as [23]. *)
Lemma edgeFrame_passes (c : Z) :
  (0 <= c < 3)%Z ->
  rd 0%Z (dst (pass1 thin edgeFrame 3 3 (fresh 3 3))) (16 + c) = 153%Z /\
  rd 0%Z (image (render thin 3 3 edgeFrame)) (16 + c) = 23%Z.
Proof.
  intros Hc.
  assert (pass1 thin edgeFrame 3 3 (fresh 3 3)
          = {| dst := replicate 16 0%Z ++ [153; 153; 153; 255]%Z ++ replicate 16 0%Z;
               edges := [0; 0; 0; 0; 1020; 0; 0; 0; 0] |}) as Hp.
  { unfold pass1. change (range 1 (3 - 1)) with [1%Z]. cbn [foldl].
    unfold pass1_pixel. rewrite edgeMagnitude_edgeFrame.
    unfold chan. eval_reads. rewrite shade_thin. reflexivity. }
  unfold render. cbv zeta. cbn [image]. rewrite Hp. split.
  - cbn [dst]. assert (c = 0 \/ c = 1 \/ c = 2)%Z as [-> | [-> | ->]] by lia;
      reflexivity.
  - unfold pass2. cbn [dst edges].
    change (edgeThickness thin) with (IZR 1). rewrite floor_IZR.
    change (range 1 (3 - 1)) with [1%Z]. cbn [foldl].
    unfold pass2_pixel. rewrite maxEdge_one.
    change (rd 0 [0; 0; 0; 0; 1020; 0; 0; 0; 0] ((1 + -1) * 3 + (1 + 0))) with 0.
    change (rd 0 [0; 0; 0; 0; 1020; 0; 0; 0; 0] ((1 + 0) * 3 + (1 + -1))) with 0.
    change (rd 0 [0; 0; 0; 0; 1020; 0; 0; 0; 0] ((1 + 0) * 3 + (1 + 0))) with 1020.
    change (rd 0 [0; 0; 0; 0; 1020; 0; 0; 0; 0] ((1 + 0) * 3 + (1 + 1))) with 0.
    change (rd 0 [0; 0; 0; 0; 1020; 0; 0; 0; 0] ((1 + 1) * 3 + (1 + 0))) with 0.
    assert (Rmax (Rmax (Rmax (Rmax (Rmax 0 0) 0) 1020) 0) 0 = 1020) as ->
      by (unfold Rmax; repeat destruct (Rle_dec _ _); lra).
    unfold edgeThreshold.
    destruct (Rgt_dec 1020 30) as [_ | H]; [|lra].
    assert (Rmin 1 ((1020 - 30) / 100) = 1) as ->
      by (unfold Rmin; destruct (Rle_dec _ _); lra).
    set (d0 := replicate 16 0%Z ++ [153; 153; 153; 255]%Z ++ replicate 16 0%Z).
    rewrite (darken_level d0 ((1 * 3 + 1) * 4)) by reflexivity.
    rewrite (darken_level _ ((1 * 3 + 1) * 4 + 1)) by reflexivity.
    rewrite (darken_level _ ((1 * 3 + 1) * 4 + 2)) by reflexivity.
    assert (c = 0 \/ c = 1 \/ c = 2)%Z as [-> | [-> | ->]] by lia; reflexivity.
Qed.

End ArcherMore.

(** X3.  The image [draw] puts on the canvas has four bytes for each pixel
    of the canvas, every interior pixel is opaque (alpha [255]), whatever
    the frame and the settings are. *)
Theorem draw_image_format (p : Archer.Params) (videoWidth width height : Z)
    (src : list Z) (out : Archer.Output) :
  Archer.frame width height src ->
  Archer.draw p videoWidth width height src = Some out ->
  Z.of_nat (length (Archer.image out)) = (width * height * 4)%Z /\
  Forall (fun v => (0 <= v <= 255)%Z) (Archer.image out) /\
  forall x y, Archer.interior width height x y ->
    Js.rd 0%Z (Archer.image out) ((y * width + x) * 4 + 3) = 255%Z.
Proof.
  intros (Hw & Hh & _) Hdraw.
  apply ArcherFacts.draw_Some in Hdraw as ->.
  unfold Archer.render. cbv zeta. cbn [Archer.image].
  destruct (ArcherMore.pass2_sized p width height _ _
              (ArcherMore.pass1_sized p src width height _ _
                 (ArcherMore.fresh_sized width height))) as [Hl Hb].
  split; [rewrite Hl; nia|]. split; [exact Hb|].
  intros x y Hxy. rewrite ArcherMore.pass2_alpha.
  pose proof (ArcherFacts.pass1_pixels p src width height
                (Archer.fresh width height) x y
                (ArcherFacts.fresh_length width height ltac:(nia)) Hxy) as Hp.
  unfold Archer.pixel, Archer.shaded in Hp. now injection Hp.
Qed.

(** The theorem on the gray frame with the default settings. *)
Lemma draw_image_format_witness :
  Z.of_nat (length (Archer.image (Archer.render Archer.defaults 3 3 Archer.grayFrame)))
    = (3 * 3 * 4)%Z /\
  Forall (fun v => (0 <= v <= 255)%Z)
    (Archer.image (Archer.render Archer.defaults 3 3 Archer.grayFrame)) /\
  forall x y, Archer.interior 3 3 x y ->
    Js.rd 0%Z (Archer.image (Archer.render Archer.defaults 3 3 Archer.grayFrame))
      ((y * 3 + x) * 4 + 3) = 255%Z.
Proof.
  apply (draw_image_format Archer.defaults 640 3 3 Archer.grayFrame).
  - exact (proj1 ArcherFacts.grayFrame_uniform).
  - reflexivity.
Defined.

(** X4.  The second pass only darkens: every colour channel of the image
    [draw] leaves is at most the value the first pass stored there, and at
    least [0.15] times that value, less the half a byte store can round
    away, since the darkening is capped at 85 percent and a pixel is
    darkened once. *)
Theorem second_pass_darkens (p : Archer.Params) (width height : Z)
    (src : list Z) (x y c : Z) :
  Archer.frame width height src ->
  (0 <= x < width)%Z -> (0 <= y < height)%Z -> (0 <= c < 3)%Z ->
  let first := Archer.dst (Archer.pass1 p src width height (Archer.fresh width height)) in
  let final := Archer.image (Archer.render p width height src) in
  (Js.rd 0%Z final ((y * width + x) * 4 + c)
     <= Js.rd 0%Z first ((y * width + x) * 4 + c))%Z /\
  0.15 * IZR (Js.rd 0%Z first ((y * width + x) * 4 + c)) - 0.5
    <= IZR (Js.rd 0%Z final ((y * width + x) * 4 + c)).
Proof.
  intros (Hw & Hh & _) Hx Hy Hc first final. subst first final.
  unfold Archer.render. cbv zeta. cbn [Archer.image].
  destruct (ArcherMore.pass1_sized p src width height _ _
              (ArcherMore.fresh_sized width height)) as [Hl Hb].
  apply (ArcherMore.pass2_dims p width height); try assumption.
  rewrite Hl. nia.
Qed.

(** The theorem at the centre of the frame with an edge, red channel: the
    first pass stores [153] there, and the second pass, next to an edge of
    magnitude [1020], darkens it to [23]. *)
Lemma second_pass_darkens_witness :
  Js.rd 0%Z (Archer.dst (Archer.pass1 Archer.thin Archer.edgeFrame 3 3
                           (Archer.fresh 3 3))) ((1 * 3 + 1) * 4 + 0) = 153%Z /\
  Js.rd 0%Z (Archer.image (Archer.render Archer.thin 3 3 Archer.edgeFrame))
    ((1 * 3 + 1) * 4 + 0) = 23%Z /\
  (Js.rd 0%Z (Archer.image (Archer.render Archer.thin 3 3 Archer.edgeFrame))
     ((1 * 3 + 1) * 4 + 0)
   <= Js.rd 0%Z (Archer.dst (Archer.pass1 Archer.thin Archer.edgeFrame 3 3
                               (Archer.fresh 3 3))) ((1 * 3 + 1) * 4 + 0))%Z /\
  0.15 * IZR (Js.rd 0%Z (Archer.dst (Archer.pass1 Archer.thin Archer.edgeFrame 3 3
                                       (Archer.fresh 3 3))) ((1 * 3 + 1) * 4 + 0)) - 0.5
    <= IZR (Js.rd 0%Z (Archer.image (Archer.render Archer.thin 3 3 Archer.edgeFrame))
              ((1 * 3 + 1) * 4 + 0)).
Proof.
  split; [exact (proj1 (ArcherMore.edgeFrame_passes 0 ltac:(lia)))|].
  split; [exact (proj2 (ArcherMore.edgeFrame_passes 0 ltac:(lia)))|].
  apply (second_pass_darkens Archer.thin 3 3 Archer.edgeFrame 1 1 0).
  - exact ArcherMore.edgeFrame_frame.
  - lia.
  - lia.
  - lia.
Defined.

(** X5.  Every stroke of [drawOutlines] starts at a point of the sparse
    grid (even coordinates, two pixels inside the canvas), ends at one of
    the four neighbour offsets inside the canvas, joins two points whose
    edge values both exceed [40], has an opacity in [(0.7, 1]] and the line
    width [0.8 * edgeThickness]. *)
Theorem outline_strokes (p : Archer.Params) (e : list R) (width height : Z)
    (s : Archer.Stroke) :
  In s (Archer.drawOutlines p e width height) ->
  (2 <= Archer.fromX s < width - 2)%Z /\ (2 <= Archer.fromY s < height - 2)%Z /\
  Z.even (Archer.fromX s) = true /\ Z.even (Archer.fromY s) = true /\
  In ((Archer.toX s - Archer.fromX s)%Z, (Archer.toY s - Archer.fromY s)%Z)
     [(2, 0); (0, 2); (2, 2); (-2, 2)]%Z /\
  (0 <= Archer.toX s < width)%Z /\ (0 <= Archer.toY s < height)%Z /\
  Js.rd 0 e (Archer.fromY s * width + Archer.fromX s) > 40 /\
  Js.rd 0 e (Archer.toY s * width + Archer.toX s) > 40 /\
  0.7 < Archer.alpha s <= 1 /\
  Archer.lineWidth s = Archer.edgeThickness p * 0.8.
Proof.
  unfold Archer.drawOutlines. intros Hin.
  apply in_flat_map in Hin as ([y x] & Hc & Hs).
  apply list_elem_of_In, JsFacts.elem_of_pairs in Hc as [Hy Hx].
  apply ArcherMore.elem_of_rangeStep in Hy as [Hy (ky & Hky & Ey)];
    [|unfold Archer.outlineStep; lia].
  apply ArcherMore.elem_of_rangeStep in Hx as [Hx (kx & Hkx & Ex)];
    [|unfold Archer.outlineStep; lia].
  unfold Archer.outlineStep in *.
  apply ArcherMore.outlines_at_stroke in Hs
    as (-> & -> & Hn & Htx & Hty & He & Hne & Ha & Hl).
  unfold Archer.outlineThreshold in *.
  repeat split; try assumption; try lia.
  - rewrite Ex, Z.even_add_mul_2. reflexivity.
  - rewrite Ey, Z.even_add_mul_2. reflexivity.
  - apply Ha.
  - apply Ha.
Qed.

(** The theorem on an edge map with two strong edges two pixels apart. *)
Lemma outline_strokes_witness :
  (2 <= Archer.fromX Archer.joining < 5 - 2)%Z /\
  (2 <= Archer.fromY Archer.joining < 5 - 2)%Z /\
  Z.even (Archer.fromX Archer.joining) = true /\
  Z.even (Archer.fromY Archer.joining) = true /\
  In ((Archer.toX Archer.joining - Archer.fromX Archer.joining)%Z,
      (Archer.toY Archer.joining - Archer.fromY Archer.joining)%Z)
     [(2, 0); (0, 2); (2, 2); (-2, 2)]%Z /\
  (0 <= Archer.toX Archer.joining < 5)%Z /\ (0 <= Archer.toY Archer.joining < 5)%Z /\
  Js.rd 0 Archer.twoEdges (Archer.fromY Archer.joining * 5 + Archer.fromX Archer.joining) > 40 /\
  Js.rd 0 Archer.twoEdges (Archer.toY Archer.joining * 5 + Archer.toX Archer.joining) > 40 /\
  0.7 < Archer.alpha Archer.joining <= 1 /\
  Archer.lineWidth Archer.joining = Archer.edgeThickness Archer.defaults * 0.8.
Proof.
  apply (outline_strokes Archer.defaults Archer.twoEdges 5 5 Archer.joining).
  unfold Archer.drawOutlines.
  change (Js.pairs _ _) with [(2, 2)%Z]. cbn [flat_map].
  rewrite app_nil_r. unfold Archer.outlines_at.
  change (Js.rd 0 Archer.twoEdges (2 * 5 + 2)) with 50.
  destruct (Rgt_dec 50 Archer.outlineThreshold) as [_ | H];
    [|unfold Archer.outlineThreshold in H; lra].
  unfold Archer.neighbors. cbn [flat_map fst snd].
  change ((0 <=? 2 + Archer.outlineStep) && (2 + Archer.outlineStep <? 5)
          && (0 <=? 2 + 0) && (2 + 0 <? 5))%Z with true.
  cbv iota. apply in_or_app. left.
  change (Js.rd 0 Archer.twoEdges ((2 + 0) * 5 + (2 + Archer.outlineStep))) with 90.
  destruct (Rgt_dec 90 Archer.outlineThreshold) as [_ | H];
    [|unfold Archer.outlineThreshold in H; lra].
  left. reflexivity.
Defined.

(** ** MatrixFilter: the grid, the streams and the explosions *)

Module MatrixMore.
Import Js JsFacts JsMore Matrix MatrixFacts.

(** *** What is left of the generator *)

Lemma later_refl (g : Rng.t) : Rng.later g g.
Proof. intros n. now exists n. Qed.

Lemma later_trans (g1 g2 g3 : Rng.t) :
  Rng.later g1 g2 -> Rng.later g2 g3 -> Rng.later g1 g3.
Proof.
  intros H12 H23 n. destruct (H23 n) as [m ->]. apply H12.
Qed.

Lemma later_random (g : Rng.t) : Rng.later g (snd (Rng.random g)).
Proof. intros n. now exists (S n). Qed.

Lemma unit_later (g g' : Rng.t) :
  Rng.unit_rng g -> Rng.later g g' -> Rng.unit_rng g'.
Proof. intros Hg Hl n. destruct (Hl n) as [m ->]. apply Hg. Qed.

(** Closes a goal [Rng.later g (fun n => g (S .. n))]. *)
Ltac later_shift := intros ?n; eexists; reflexivity.

(** *** [getRandomChar] *)

Lemma getRandomChar_spec (g : Rng.t) :
  Rng.unit_rng g ->
  glyph_ok (fst (getRandomChar g)) /\ Rng.later g (snd (getRandomChar g)).
Proof.
  intros Hg. unfold getRandomChar, Rng.bind, Rng.random, Rng.ret. cbn [fst snd].
  split; [|later_shift].
  change (Z.of_nat (List.length matrixChars)) with 56%Z.
  pose proof (Hg O) as Hr.
  pose proof (floor_bounds (g O * 56)) as Hf.
  assert (0 <= floor (g O * 56) < 56)%Z as Hi.
  { split.
    - rewrite <- (floor_IZR 0). apply floor_mono. lra.
    - apply lt_IZR. lra. }
  destruct (Z.ltb_spec (floor (g O * 56)) 0) as [Hneg | _]; [lia|].
  exists (65382 + floor (g O * 56))%Z. split; [|lia].
  unfold matrixChars. rewrite lookup_seqZ_lt by lia.
  f_equal. lia.
Qed.

(** *** [createExplosion] *)

Lemma newParticle_spec (W H : Z) (x y sX sY : R) (g : Rng.t) :
  Rng.unit_rng g ->
  0 <= sX <= 0.25 * IZR W -> 0 <= sY <= 0.25 * IZR H ->
  newborn W H x y (fst (newParticle x y sX sY g)) /\
  Rng.later g (snd (newParticle x y sX sY g)).
Proof.
  intros Hg HsX HsY. unfold newParticle.
  cbv beta iota delta [Rng.bind Rng.random Rng.ret].
  destruct (Rlt_dec (g O) 0.4) as [Hst | Hmv]; cbv beta iota.
  - destruct (getRandomChar_spec (fun n => g (S (S (S (S n)))))
                ltac:(intros n; apply Hg)) as [Hc Hl].
    destruct (getRandomChar (fun n => g (S (S (S (S n)))))) as [c g'].
    cbn [fst snd] in *. split.
    + pose proof (Hg 1%nat). pose proof (Hg 2%nat). pose proof (Hg 3%nat).
      unfold newborn. cbn [life decay vx vy px py pchar].
      repeat split; try lra; try exact Hc.
      * replace (x + (g 1%nat - 0.5) * sX - x) with ((g 1%nat - 0.5) * sX) by lra.
        apply Rabs_le. split; nra.
      * replace (y + (g 2%nat - 0.5) * sY - y) with ((g 2%nat - 0.5) * sY) by lra.
        apply Rabs_le. split; nra.
    + intros n. destruct (Hl (S (S n))) as [m Hm]. cbn beta in Hm.
      rewrite Hm. eexists. reflexivity.
  - destruct (getRandomChar_spec (fun n => g (S (S (S (S (S (S n)))))))
                ltac:(intros n; apply Hg)) as [Hc Hl].
    destruct (getRandomChar (fun n => g (S (S (S (S (S (S n)))))))) as [c g'].
    cbn [fst snd] in *. split.
    + pose proof (Hg 1%nat). pose proof (Hg 2%nat). pose proof (Hg 3%nat).
      pose proof (Hg 4%nat). pose proof (Hg 5%nat).
      unfold newborn. cbn [life decay vx vy px py pchar].
      repeat split; try lra; try exact Hc.
      * replace (x + (g 3%nat - 0.5) * sX - x) with ((g 3%nat - 0.5) * sX) by lra.
        apply Rabs_le. split; nra.
      * replace (y + (g 4%nat - 0.5) * sY - y) with ((g 4%nat - 0.5) * sY) by lra.
        apply Rabs_le. split; nra.
    + intros n. destruct (Hl (S (S n))) as [m Hm]. cbn beta in Hm.
      rewrite Hm. eexists. reflexivity.
Qed.

Lemma pushParticles_spec (W H : Z) (n : nat) (x y sX sY : R)
    (pool : list Particle) (g : Rng.t) :
  Rng.unit_rng g ->
  0 <= sX <= 0.25 * IZR W -> 0 <= sY <= 0.25 * IZR H ->
  exists new,
    fst (pushParticles n x y sX sY pool g) = pool ++ new /\
    List.length new = n /\
    Forall (newborn W H x y) new /\
    Rng.later g (snd (pushParticles n x y sX sY pool g)).
Proof.
  intros Hg HsX HsY. revert pool g Hg.
  induction n as [| n IH]; intros pool g Hg; cbn [pushParticles].
  - exists []. unfold Rng.ret. cbn [fst snd].
    split; [now rewrite app_nil_r|]. split; [reflexivity|].
    split; [constructor | apply later_refl].
  - rewrite bind_run.
    destruct (newParticle_spec W H x y sX sY g Hg HsX HsY) as [Hq Hl].
    destruct (IH (pool ++ [fst (newParticle x y sX sY g)]) _ (unit_later _ _ Hg Hl))
      as (new & Hnew & Hlen & Hall & Hl').
    exists (fst (newParticle x y sX sY g) :: new).
    split; [rewrite Hnew, <- app_assoc; reflexivity|].
    split; [cbn; now rewrite Hlen|].
    split; [now constructor | exact (later_trans _ _ _ Hl Hl')].
Qed.

Lemma createExplosion_spec (W H : Z) (x y i : R) (pool : list Particle) (g : Rng.t) :
  Rng.unit_rng g -> (0 <= W)%Z -> (0 <= H)%Z ->
  exists new,
    fst (createExplosion W H x y i pool g) = pool ++ new /\
    List.length new = Z.to_nat (15 + floor (i * 30)) /\
    Forall (newborn W H x y) new /\
    Rng.later g (snd (createExplosion W H x y i pool g)).
Proof.
  intros Hg HW HH. apply IZR_le in HW, HH. unfold createExplosion.
  rewrite bind_run. cbv beta. unfold Rng.random at 1 2 3. cbn [fst snd].
  pose proof (Hg O) as Hr.
  destruct (pushParticles_spec W H (Z.to_nat (15 + floor (i * 30))) x y
              (IZR W * (0.15 + g O * 0.1)) (IZR H * (0.15 + g O * 0.1))
              pool (fun n => g (S n)) ltac:(intros n; apply Hg)
              ltac:(nra) ltac:(nra)) as (new & Hnew & Hlen & Hall & Hl).
  exists new. split; [exact Hnew|]. split; [exact Hlen|]. split; [exact Hall|].
  apply (later_trans g (fun n => g (S n))); [later_shift | exact Hl].
Qed.

(** *** [checkForExplosions] *)

Section Check.

Variables (W H : Z) (charSize rate : R) (grd : list (list Cell)).
Variables (pool : list Particle) (g : Rng.t).
Hypothesis Hg : Rng.unit_rng g.
Hypothesis HW : (0 <= W)%Z.
Hypothesis HH : (0 <= H)%Z.

(** What holds of the pool and the generator all along the loops. *)
Local Abbreviation grown acc :=
  (Rng.later g (snd acc) /\
   exists new, fst acc = pool ++ new /\
               Forall (fun q => exists x y, newborn W H x y q) new).

Lemma checkCell_grown (acc : list Particle * Rng.t) (c : Z * Z) :
  grown acc -> grown (checkCell W H charSize rate grd acc c).
Proof.
  destruct c as [x y]. intros (Hl & new & Hnew & Hall). unfold checkCell.
  destruct (Rgt_dec _ _) as [_ | _]; [|now split; [|exists new]].
  pose proof (unit_later _ _ Hg Hl) as Hu.
  destruct (Rlt_dec _ _) as [_ | _].
  - destruct (createExplosion_spec W H
                (IZR x * charSize + charSize / 2) (IZR y * charSize + charSize / 2)
                (brightness (cellAt grd x y)) (fst acc) (snd (Rng.random (snd acc)))
                (unit_later _ _ Hu (later_random _)) HW HH)
      as (more & Hmore & _ & Hborn & Hl').
    split.
    + exact (later_trans _ _ _ (later_trans _ _ _ Hl (later_random _)) Hl').
    + exists (new ++ more). split.
      * rewrite Hmore, Hnew, app_assoc. reflexivity.
      * apply Forall_app. split; [exact Hall|].
        eapply Forall_impl; [exact Hborn|]. intros q Hq. eexists. eexists. exact Hq.
  - cbn [fst snd]. split; [|now exists new].
    exact (later_trans _ _ _ Hl (later_random _)).
Qed.

Lemma checkCell_quiet (acc : list Particle * Rng.t) (c : Z * Z) :
  (forall x y, brightness (cellAt grd x y) <= 0.85) ->
  checkCell W H charSize rate grd acc c = acc.
Proof.
  destruct c as [x y]. intros Hq. unfold checkCell.
  destruct (Rgt_dec _ _) as [Hb | _]; [|reflexivity].
  specialize (Hq x y). lra.
Qed.

End Check.

(** *** [updateExplosions] *)

Lemma updateParticle_aged (p : Particle) (g : Rng.t) :
  aged p (fst (fst (updateParticle p g))) /\
  (snd (fst (updateParticle p g)) = true -> 0 < life (fst (fst (updateParticle p g)))).
Proof.
  unfold updateParticle. rewrite bind_run. cbv beta. rewrite bind_run. cbv beta.
  unfold Rng.ret. cbn [fst snd]. split.
  - unfold aged. cbn [px py vx vy life decay isWhite hasGravity]. repeat split.
  - cbn [life]. destruct (Rle_dec _ _); [discriminate | lra].
Qed.

Lemma updateParticles_aged (l : list Particle) (g : Rng.t) :
  Forall (fun q => 0 < life q /\ exists p, In p l /\ aged p q)
         (fst (updateParticles l g)) /\
  (List.length (fst (updateParticles l g)) <= List.length l)%nat.
Proof.
  revert g. induction l as [| p rest IH]; intros g; cbn [updateParticles].
  - unfold Rng.ret. cbn. split; [constructor | lia].
  - rewrite bind_run. cbv beta. rewrite bind_run. cbv beta.
    unfold Rng.ret. cbn [fst snd].
    destruct (IH g) as [Hall Hlen].
    assert (Forall (fun q => 0 < life q /\ exists p0, In p0 (p :: rest) /\ aged p0 q)
                   (fst (updateParticles rest g))) as Hall'.
    { eapply Forall_impl; [exact Hall|].
      intros q (Hq & p0 & Hin & Ha). split; [exact Hq|]. exists p0. split; [now right | exact Ha]. }
    destruct (updateParticle_aged p (snd (updateParticles rest g))) as [Ha Hlife].
    destruct (snd (fst (updateParticle p (snd (updateParticles rest g))))).
    + split; [|cbn [List.length]; lia].
      constructor; [|exact Hall'].
      split; [now apply Hlife|]. exists p. split; [now left | exact Ha].
    + split; [exact Hall' | cbn [List.length]; lia].
Qed.

Lemma updateParticle_later (p : Particle) (g : Rng.t) :
  Rng.later g (snd (updateParticle p g)).
Proof.
  unfold updateParticle. rewrite bind_run. cbv beta. rewrite bind_run. cbv beta.
  unfold Rng.ret. cbn [snd].
  apply (later_trans _ _ _ (later_random g)).
  destruct (Rlt_dec _ _) as [_ | _]; [|apply later_refl].
  unfold getRandomChar, Rng.bind, Rng.random, Rng.ret. cbn [fst snd]. later_shift.
Qed.

Lemma updateParticles_later (l : list Particle) (g : Rng.t) :
  Rng.later g (snd (updateParticles l g)).
Proof.
  revert g. induction l as [| p rest IH]; intros g; cbn [updateParticles].
  - apply later_refl.
  - rewrite bind_run. cbv beta. rewrite bind_run. cbv beta.
    unfold Rng.ret. cbn [snd].
    exact (later_trans _ _ _ (IH g) (updateParticle_later _ _)).
Qed.

Lemma trim_sub (P : Particle -> Prop) (l : list Particle) :
  Forall P l -> Forall P (trim l) /\ (List.length (trim l) <= List.length l)%nat.
Proof.
  intros Hl. unfold trim. destruct (_ <? _)%nat; [|split; [exact Hl | lia]].
  split; [now apply Forall_drop | rewrite length_drop; lia].
Qed.

(** The pool of a dying and a lively particle: the dying one goes, the
    lively one is moved, pulled down and aged. *)
Example updateExplosions_drops_dead :
  fst (updateExplosions [dying; lively] halves)
  = [{| px := 20 + 0; py := 30 + 0.1; vx := 0; vy := 0.1 + 0.02;
        life := 1 - 0.01; decay := 0.01; pchar := Some 65383%Z;
        isWhite := false; hasGravity := true |}].
Proof.
  unfold updateExplosions, updateParticles, updateParticle, dying, lively.
  cbv beta iota zeta delta [Rng.bind Rng.random Rng.ret halves
    px py vx vy life decay pchar isWhite hasGravity fst snd].
  repeat (match goal with
          | |- context [Rlt_dec ?a ?b] => destruct (Rlt_dec a b); [lra|]
          | |- context [Rle_dec ?a ?b] => destruct (Rle_dec a b); try lra
          end;
          cbv beta iota zeta delta [fst snd]).
  reflexivity.
Qed.

(** *** [updateStreams] *)

Lemma updateStream_step (st : State) (s : Stream) (g : Rng.t) :
  stream_step st s (fst (updateStream st s g)).
Proof.
  unfold updateStream, stream_step.
  destruct (Rgt_dec _ _) as [Hfar | Hnear].
  - cbn. split; [reflexivity|]. right. split; [exact Hfar | reflexivity].
  - cbn. split; [reflexivity|]. left. repeat split. lra.
Qed.

Lemma updateStreamList_steps (st : State) (l : list Stream) (g : Rng.t) :
  Forall2 (stream_step st) l (fst (updateStreamList st l g)).
Proof.
  revert g. induction l as [| s rest IH]; intros g; cbn [updateStreamList].
  - constructor.
  - rewrite bind_run. cbv beta. rewrite bind_run. cbv beta.
    unfold Rng.ret. cbn [fst]. constructor; [apply updateStream_step | apply IH].
Qed.

(** *** [initGrid] *)

Lemma ceil_bounds (x : R) : IZR (ceil x) - 1 < x <= IZR (ceil x).
Proof.
  unfold ceil. pose proof (floor_bounds (- x)) as Hf. rewrite opp_IZR. lra.
Qed.

Lemma length_range (lo hi : Z) :
  (lo <= hi)%Z -> Z.of_nat (List.length (range lo hi)) = (hi - lo)%Z.
Proof. intros H. unfold range. rewrite length_seqZ. lia. Qed.

Lemma initCell_spec (g : Rng.t) :
  Rng.unit_rng g ->
  blank (fst (initCell g)) /\ Rng.later g (snd (initCell g)).
Proof.
  intros Hg. unfold initCell. rewrite bind_run. cbv beta.
  destruct (getRandomChar_spec g Hg) as [Hc Hl].
  pose proof (unit_later _ _ Hg Hl O) as Hr.
  unfold Rng.bind, Rng.random, Rng.ret. cbn [fst snd]. split.
  - unfold blank. cbn [brightness targetBrightness changeTimer char].
    repeat split; try lra. exact Hc.
  - apply (later_trans _ _ _ Hl). later_shift.
Qed.

Lemma initColumn_spec (ys : list Z) (g : Rng.t) :
  Rng.unit_rng g ->
  List.length (fst (initColumn ys g)) = List.length ys /\
  Forall blank (fst (initColumn ys g)) /\
  Rng.later g (snd (initColumn ys g)).
Proof.
  revert g. induction ys as [| y ys IH]; intros g Hg; cbn [initColumn].
  - unfold Rng.ret. cbn. split; [reflexivity|]. split; [constructor | apply later_refl].
  - rewrite bind_run. cbv beta. rewrite bind_run. cbv beta.
    unfold Rng.ret. cbn [fst snd].
    destruct (initCell_spec g Hg) as [Hc Hl].
    destruct (IH _ (unit_later _ _ Hg Hl)) as (Hlen & Hall & Hl').
    split; [cbn [List.length]; now rewrite Hlen|].
    split; [now constructor | exact (later_trans _ _ _ Hl Hl')].
Qed.

Lemma initCells_spec (xs ys : list Z) (g : Rng.t) :
  Rng.unit_rng g ->
  List.length (fst (initCells xs ys g)) = List.length xs /\
  Forall (fun col => List.length col = List.length ys /\ Forall blank col)
         (fst (initCells xs ys g)) /\
  Rng.later g (snd (initCells xs ys g)).
Proof.
  revert g. induction xs as [| x xs IH]; intros g Hg; cbn [initCells].
  - unfold Rng.ret. cbn. split; [reflexivity|]. split; [constructor | apply later_refl].
  - rewrite bind_run. cbv beta. rewrite bind_run. cbv beta.
    unfold Rng.ret. cbn [fst snd].
    destruct (initColumn_spec ys g Hg) as (Hlen & Hall & Hl).
    destruct (IH _ (unit_later _ _ Hg Hl)) as (Hlen' & Hall' & Hl').
    split; [cbn [List.length]; now rewrite Hlen'|].
    split; [now constructor | exact (later_trans _ _ _ Hl Hl')].
Qed.

Lemma initStreams_spec (gh : Z) (xs : list Z) (g : Rng.t) :
  Rng.unit_rng g -> (0 < gh)%Z ->
  map sx (fst (initStreams gh xs g)) = xs /\
  Forall (fun s => stream_ok s /\ 0 <= sy s < IZR gh) (fst (initStreams gh xs g)).
Proof.
  intros Hg Hgh. apply IZR_lt in Hgh.
  revert g Hg. induction xs as [| x xs IH]; intros g Hg; cbn [initStreams].
  - unfold Rng.ret. cbn. split; [reflexivity | constructor].
  - cbv beta iota delta [Rng.bind Rng.random Rng.ret].
    destruct (IH (fun n => g (S (S (S n)))) ltac:(intros n; apply Hg)) as [Hsx Hall].
    destruct (initStreams gh xs (fun n => g (S (S (S n))))) as [rest g'].
    cbn [fst snd] in *. split; [cbn [map sx]; now rewrite Hsx|].
    constructor; [|exact Hall].
    pose proof (Hg 0%nat). pose proof (Hg 1%nat). pose proof (Hg 2%nat).
    split; [split|]; cbn [speed length sy].
    + now apply random_speed.
    + now apply random_length.
    + nra.
Qed.

(** *** [updateGrid] *)

Lemma cellAt_setCell_eq (g : list (list Cell)) (x y : Z) (c : Cell) :
  (0 <= x < Z.of_nat (List.length g))%Z ->
  (0 <= y < Z.of_nat (List.length (rd [] g x)))%Z ->
  cellAt (setCell g x y c) x y = c.
Proof.
  intros Hx Hy. unfold cellAt, setCell.
  rewrite rd_wr_eq by exact Hx. now apply rd_wr_eq.
Qed.

Lemma cellAt_setCell_ne (g : list (list Cell)) (x y x' y' : Z) (c : Cell) :
  (x, y) <> (x', y') -> cellAt (setCell g x y c) x' y' = cellAt g x' y'.
Proof.
  intros Hne. unfold cellAt, setCell.
  destruct (Z.eq_dec x x') as [<- | Hx]; [|now rewrite rd_wr_ne].
  assert (y <> y') as Hy by congruence.
  destruct (rd_wr [] g x x (wr (rd [] g x) y c)) as [-> | ->]; [|reflexivity].
  now apply rd_wr_ne.
Qed.

Lemma column_sized (st : State) (g : list (list Cell)) (x : Z) :
  grid_sized st g -> (0 <= x < gridWidth st)%Z ->
  Z.of_nat (List.length (rd [] g x)) = gridHeight st.
Proof.
  intros [Hw Hh] Hx.
  pose proof (rd_in_range [] g x ltac:(lia)) as Hcol.
  rewrite Forall_lookup in Hh. exact (Hh _ _ Hcol).
Qed.

Lemma setCell_sized (st : State) (g : list (list Cell)) (x y : Z) (c : Cell) :
  grid_sized st g -> (0 <= x < gridWidth st)%Z -> grid_sized st (setCell g x y c).
Proof.
  intros Hg Hx. pose proof (column_sized st g x Hg Hx) as Hcol.
  destruct Hg as [Hw Hh]. unfold setCell. split.
  - now rewrite length_wr.
  - apply ArcherMore.Forall_wr; [exact Hh|]. now rewrite length_wr.
Qed.

Lemma updateCell_spec (st : State) (x y : Z) (cell : Cell) (g : Rng.t) :
  Rng.unit_rng g ->
  cell_updated (getBrightnessAt st x y) cell (fst (updateCell st x y cell g)) /\
  Rng.later g (snd (updateCell st x y cell g)).
Proof.
  intros Hg. unfold updateCell. cbv zeta.
  destruct (Rle_dec _ _) as [Hle | Hgt].
  - rewrite bind_run. cbv beta.
    destruct (getRandomChar_spec g Hg) as [Hc Hl].
    pose proof (unit_later _ _ Hg Hl O) as Hr.
    unfold Rng.bind, Rng.random, Rng.ret. cbn [fst snd]. split.
    + unfold cell_updated. cbn [targetBrightness brightness changeTimer char].
      split; [reflexivity|]. split; [reflexivity|]. right.
      split; [exact Hle|]. split; [lra | exact Hc].
    + apply (later_trans _ _ _ Hl). later_shift.
  - unfold Rng.ret. cbn [fst snd]. split; [|apply later_refl].
    unfold cell_updated. cbn [targetBrightness brightness changeTimer char].
    split; [reflexivity|]. split; [reflexivity|]. left.
    split; [lra|]. split; reflexivity.
Qed.

Lemma updateGrid_spec (st : State) (g : Rng.t) :
  Rng.unit_rng g -> grid_sized st (grid st) ->
  grid_updated st (grid st)
    (pairs (range 0 (gridWidth st)) (range 0 (gridHeight st)))
    (updateGrid st g).
Proof.
  intros Hg Hsz. unfold updateGrid.
  rewrite (foldl_pairs (updateGrid_cell st)).
  pose proof (NoDup_pairs _ _ (NoDup_range 0 (gridWidth st))
                (NoDup_range 0 (gridHeight st))) as Hnd.
  apply (foldl_visited (updateGrid_cell st) (grid_updated st (grid st))).
  - split; [exact Hg|]. destruct Hsz as [Hw Hh].
    split; [exact Hw|]. split; [exact Hh|].
    intros x y _ _. destruct (decide _) as [Hin | _]; [|reflexivity].
    now apply elem_of_nil in Hin.
  - intros seen [x y] rest [grd g1] Hl (Hu & Hw & Hh & Hcells).
    cbn [fst snd] in Hu, Hw, Hh, Hcells.
    rewrite Hl in Hnd. apply NoDup_app in Hnd as (_ & Hfresh & Hnd').
    assert ((x, y) ∉ seen) as Hnew.
    { intros Hin. apply (Hfresh _ Hin). apply list_elem_of_here. }
    assert ((x, y) ∈ pairs (range 0 (gridWidth st)) (range 0 (gridHeight st))) as Hin.
    { rewrite Hl. apply elem_of_app. right. apply list_elem_of_here. }
    apply elem_of_pairs in Hin as [Hx Hy].
    apply elem_of_range in Hx, Hy.
    destruct (updateCell_spec st x y (cellAt grd x y) g1 Hu) as [Hc Hlater].
    unfold updateGrid_cell, grid_updated. cbn [fst snd].
    destruct (setCell_sized st grd x y (fst (updateCell st x y (cellAt grd x y) g1))
                (conj Hw Hh) ltac:(lia)) as [Hw' Hh'].
    split; [exact (unit_later _ _ Hu Hlater)|].
    split; [exact Hw'|]. split; [exact Hh'|].
    intros x' y' Hx' Hy'.
    destruct (decide ((x', y') = (x, y))) as [E | NE].
    + injection E as -> ->.
      destruct (decide _) as [_ | Hout];
        [|exfalso; apply Hout, elem_of_app; right; apply list_elem_of_here].
      rewrite cellAt_setCell_eq;
        [| lia | rewrite (column_sized st grd x (conj Hw Hh)) by lia; lia].
      specialize (Hcells x y Hx' Hy').
      destruct (decide _) as [Hold | _] in Hcells; [contradiction|].
      rewrite <- Hcells. exact Hc.
    + rewrite cellAt_setCell_ne by congruence.
      specialize (Hcells x' y' Hx' Hy').
      destruct (decide ((x', y') ∈ seen)) as [Hs | Hs].
      * destruct (decide _) as [_ | Hout]; [exact Hcells|].
        exfalso. apply Hout, elem_of_app. now left.
      * destruct (decide _) as [Hs' | _]; [|exact Hcells].
        apply elem_of_app in Hs' as [Hs' | Hs']; [contradiction|].
        apply list_elem_of_singleton in Hs'. contradiction.
Qed.

Lemma getBrightnessAt_range (st : State) (x y : Z) :
  brightnessSensitivity st <= 10 -> 0 <= getBrightnessAt st x y <= 1.
Proof.
  intros Hs. unfold getBrightnessAt.
  destruct (brightnessData st); [now apply adjust_unit | lra].
Qed.

Lemma updateGrid_unit (st : State) (g : Rng.t) (x y : Z) :
  Rng.unit_rng g -> grid_sized st (grid st) ->
  brightnessSensitivity st <= 10 ->
  (forall x y, (0 <= x < gridWidth st)%Z -> (0 <= y < gridHeight st)%Z ->
     0 <= brightness (cellAt (grid st) x y) <= 1) ->
  (0 <= x < gridWidth st)%Z -> (0 <= y < gridHeight st)%Z ->
  0 <= brightness (cellAt (fst (updateGrid st g)) x y) <= 1 /\
  0 < changeTimer (cellAt (fst (updateGrid st g)) x y).
Proof.
  intros Hg Hsz Hs Hold Hx Hy.
  destruct (updateGrid_spec st g Hg Hsz) as (_ & _ & _ & Hcells).
  specialize (Hcells x y Hx Hy).
  destruct (decide _) as [_ | Hout] in Hcells.
  - destruct Hcells as (_ & Hb & Ht).
    pose proof (getBrightnessAt_range st x y Hs) as Hr.
    specialize (Hold x y Hx Hy). split; [lra|].
    destruct Ht as [[Ht _] | (_ & Ht & _)]; lra.
  - exfalso. apply Hout, elem_of_pairs. split; apply elem_of_range; lia.
Qed.

(** [checkForExplosions] leaves a generator of values in [[0, 1)]. *)
Lemma checkForExplosions_later (W H : Z) (charSize rate : R) (st : State)
    (pool : list Particle) (g : Rng.t) :
  Rng.unit_rng g -> (0 <= W)%Z -> (0 <= H)%Z ->
  Rng.later g (snd (checkForExplosions W H charSize rate st pool g)).
Proof.
  intros Hg HW HH. unfold checkForExplosions.
  destruct (Req_dec_T rate 0) as [_ | _]; [apply later_refl|].
  rewrite (foldl_pairs (checkCell W H charSize rate (grid st))).
  enough (Rng.later g (snd (foldl (checkCell W H charSize rate (grid st)) (pool, g)
                              (pairs (rangeStep 0 (gridWidth st) 8)
                                     (rangeStep 0 (gridHeight st) 8)))) /\
          exists new,
            fst (foldl (checkCell W H charSize rate (grid st)) (pool, g)
                   (pairs (rangeStep 0 (gridWidth st) 8)
                          (rangeStep 0 (gridHeight st) 8))) = pool ++ new /\
            Forall (fun q => exists x y, newborn W H x y q) new)
    as [Hl _] by exact Hl.
  apply (foldl_invariant _
           (fun acc => Rng.later g (snd acc) /\
              exists new, fst acc = pool ++ new /\
              Forall (fun q => exists x y, newborn W H x y q) new)).
  - split; [apply later_refl|].
    exists []. split; [now rewrite app_nil_r | constructor].
  - intros c acc _ Hacc.
    exact (checkCell_grown W H charSize rate (grid st) pool g Hg HW HH acc c Hacc).
Qed.

(** *** The one-cell filter *)

Lemma tiny_sampling_ok (s : R) : sampling_ok (tiny s).
Proof.
  unfold sampling_ok, tiny.
  cbn [gridWidth gridHeight videoWidth videoHeight brightnessData].
  repeat split; try lia. intros data H. injection H as <-. reflexivity.
Qed.

Lemma tiny_grid_sized (s : R) : grid_sized (tiny s) (grid (tiny s)).
Proof. split; [reflexivity|]. repeat constructor. Qed.

(** On the bright one-cell grid, with the explosion rate [3] and a draw of
    zero, the cell explodes into [15 + floor (0.95 * 30) = 43] particles. *)
Lemma flash_explodes (pool : list Particle) :
  exists new,
    fst (checkForExplosions 640 480 12 3 flash pool zeros) = pool ++ new /\
    List.length new = 43%nat.
Proof.
  unfold checkForExplosions.
  destruct (Req_dec_T 3 0) as [E | _]; [lra|].
  change (rangeStep 0 (gridWidth flash) 8) with [0%Z].
  change (rangeStep 0 (gridHeight flash) 8) with [0%Z].
  cbn [foldl]. unfold checkCell.
  change (brightness (cellAt (grid flash) 0 0)) with 0.95.
  destruct (Rgt_dec 0.95 0.85) as [_ | H]; [|lra].
  unfold Rng.random. cbn [fst snd].
  destruct (Rlt_dec (zeros 0%nat) (3 / 3000 * 0.95)) as [_ | H];
    [|unfold zeros in H; lra].
  destruct (createExplosion_spec 640 480 (IZR 0 * 12 + 12 / 2) (IZR 0 * 12 + 12 / 2)
              0.95 pool (fun n => zeros (S n)))
    as (new & Hnew & Hlen & _); try lia.
  { intros n. unfold zeros. lra. }
  exists new. split; [exact Hnew|]. rewrite Hlen.
  rewrite (floor_unique (0.95 * 30) 28) by lra. reflexivity.
Qed.

Lemma flash_grid_sized : grid_sized flash (grid flash).
Proof. split; [reflexivity|]. repeat constructor. Qed.

Lemma tiny_grid_ok (s : R) : grid_ok (tiny s).
Proof. split; [cbn; lia|]. apply tiny_grid_sized. Qed.

(** *** The sampled brightness *)

Lemma luma_unit (data : list Z) (i : Z) :
  Forall (fun v => (0 <= v <= 255)%Z) data ->
  0 <= (chan data i * 0.299 + chan data (i + 1) * 0.587
        + chan data (i + 2) * 0.114) / 255 <= 1.
Proof.
  intros Hd.
  assert (forall j, 0 <= chan data j <= 255) as Hc.
  { intros j. unfold chan.
    pose proof (ArcherMore.rd_Forall (fun v => (0 <= v <= 255)%Z) 0%Z data j
                  ltac:(cbv beta; lia) Hd) as [H0 H1].
    apply IZR_le in H0, H1. lra. }
  pose proof (Hc i). pose proof (Hc (i + 1)%Z). pose proof (Hc (i + 2)%Z). lra.
Qed.

Lemma sampleSum_range (data : list Z) (vw vh vx vy : Z) :
  Forall (fun v => (0 <= v <= 255)%Z) data ->
  0 <= fst (sampleSum data vw vh vx vy) <= snd (sampleSum data vw vh vx vy) /\
  snd (sampleSum data vw vh vx vy) = 25.
Proof.
  intros Hd. unfold sampleSum.
  rewrite (foldl_pairs
    (fun (acc : R * R) (c : Z * Z) =>
       let px := Z.max 0 (Z.min (vw - 1) (vx + fst c)) in
       let py := Z.max 0 (Z.min (vh - 1) (vy + snd c)) in
       let idx := ((py * vw + px) * 4)%Z in
       (fst acc + (chan data idx * 0.299 + chan data (idx + 1) * 0.587
                   + chan data (idx + 2) * 0.114) / 255, snd acc + 1))).
  change (range (- sampleRadius) (sampleRadius + 1)) with [-2; -1; 0; 1; 2]%Z.
  split.
  - apply (foldl_invariant _ (fun acc : R * R => 0 <= fst acc <= snd acc));
      [cbn; lra|].
    intros c acc _ Hacc. cbv zeta. cbn [fst snd].
    pose proof (luma_unit data
      ((Z.max 0 (Z.min (vh - 1) (vy + c.2)) * vw
        + Z.max 0 (Z.min (vw - 1) (vx + c.1))) * 4)%Z Hd).
    lra.
  - cbn [pairs flat_map map app foldl fst snd]. lra.
Qed.

End MatrixMore.

(** X6.  While [Math.random] returns values in [[0, 1)], [getRandomChar]
    returns a glyph of [matrixChars], never [undefined]. *)
Theorem getRandomChar_defined (g : Rng.t) :
  Rng.unit_rng g ->
  exists k, fst (Matrix.getRandomChar g) = Some k /\ k ∈ Matrix.matrixChars.
Proof.
  intros Hg. destruct (MatrixMore.getRandomChar_spec g Hg) as [(k & Hk & Hr) _].
  exists k. split; [exact Hk|].
  unfold Matrix.matrixChars. apply elem_of_seqZ. lia.
Qed.

(** The theorem with the generator that always returns one half. *)
Lemma getRandomChar_defined_witness :
  exists k, fst (Matrix.getRandomChar Matrix.halves) = Some k /\ k ∈ Matrix.matrixChars.
Proof.
  apply getRandomChar_defined. intros n. unfold Matrix.halves. lra.
Defined.

(** X7.  [createExplosion] pushes exactly [15 + floor (30 * intensity)]
    particles behind the ones in the pool and touches none of those; each
    new particle has life [1], a decay in [[0.006, 0.016)], velocity
    components in [[-0.15, 0.15)], a glyph of [matrixChars], and lies within
    an eighth of the canvas size of the centre in each direction. *)
Theorem createExplosion_particles (canvasWidth canvasHeight : Z) (x y intensity : R)
    (pool : list Matrix.Particle) (g : Rng.t) :
  Rng.unit_rng g -> (0 <= canvasWidth)%Z -> (0 <= canvasHeight)%Z ->
  exists new,
    fst (Matrix.createExplosion canvasWidth canvasHeight x y intensity pool g)
      = pool ++ new /\
    List.length new = Z.to_nat (15 + Js.floor (intensity * 30)) /\
    Forall (Matrix.newborn canvasWidth canvasHeight x y) new.
Proof.
  intros Hg HW HH.
  destruct (MatrixMore.createExplosion_spec canvasWidth canvasHeight x y
              intensity pool g Hg HW HH) as (new & H1 & H2 & H3 & _).
  now exists new.
Qed.

(** The theorem for an explosion of full intensity on a 640 by 480 canvas. *)
Lemma createExplosion_particles_witness :
  exists new,
    fst (Matrix.createExplosion 640 480 100 100 1 [Matrix.lively] Matrix.halves)
      = [Matrix.lively] ++ new /\
    List.length new = Z.to_nat (15 + Js.floor (1 * 30)) /\
    Forall (Matrix.newborn 640 480 100 100) new.
Proof.
  apply createExplosion_particles; [|lia|lia].
  intros n. unfold Matrix.halves. lra.
Defined.

(** X8.  [checkForExplosions] only adds to the pool: the particles it finds
    stay in front, in their order, and every particle behind them is one
    [createExplosion] made.  With the explosion rate at zero, or with no
    cell brighter than [0.85], it changes nothing and draws no random
    number.  The grid has the sizes the filter believes it has. *)
Theorem checkForExplosions_grows (canvasWidth canvasHeight : Z)
    (charSize explosionRate : R) (st : Matrix.State)
    (pool : list Matrix.Particle) (g : Rng.t) :
  Rng.unit_rng g -> (0 <= canvasWidth)%Z -> (0 <= canvasHeight)%Z ->
  Matrix.grid_sized st (Matrix.grid st) ->
  (exists new,
     fst (Matrix.checkForExplosions canvasWidth canvasHeight charSize
            explosionRate st pool g) = pool ++ new /\
     Forall (fun q => exists x y, Matrix.newborn canvasWidth canvasHeight x y q) new) /\
  (explosionRate = 0 \/
   (forall x y, (0 <= x < Matrix.gridWidth st)%Z -> (0 <= y < Matrix.gridHeight st)%Z ->
      Matrix.brightness (Matrix.cellAt (Matrix.grid st) x y) <= 0.85) ->
   Matrix.checkForExplosions canvasWidth canvasHeight charSize explosionRate
     st pool g = (pool, g)).
Proof.
  intros Hg HW HH _. unfold Matrix.checkForExplosions.
  destruct (Req_dec_T explosionRate 0) as [E | NE].
  - split; [|reflexivity]. exists []. split; [now rewrite app_nil_r | constructor].
  - rewrite (JsFacts.foldl_pairs
               (Matrix.checkCell canvasWidth canvasHeight charSize explosionRate
                  (Matrix.grid st))).
    split.
    + enough (Rng.later g (snd (foldl
                 (Matrix.checkCell canvasWidth canvasHeight charSize explosionRate
                    (Matrix.grid st)) (pool, g)
                 (Js.pairs (Js.rangeStep 0 (Matrix.gridWidth st) 8)
                    (Js.rangeStep 0 (Matrix.gridHeight st) 8)))) /\
              exists new,
                fst (foldl
                 (Matrix.checkCell canvasWidth canvasHeight charSize explosionRate
                    (Matrix.grid st)) (pool, g)
                 (Js.pairs (Js.rangeStep 0 (Matrix.gridWidth st) 8)
                    (Js.rangeStep 0 (Matrix.gridHeight st) 8))) = pool ++ new /\
                Forall (fun q => exists x y,
                          Matrix.newborn canvasWidth canvasHeight x y q) new)
        as [_ Hnew] by exact Hnew.
      apply (JsFacts.foldl_invariant _
               (fun acc => Rng.later g (snd acc) /\
                  exists new, fst acc = pool ++ new /\
                  Forall (fun q => exists x y,
                            Matrix.newborn canvasWidth canvasHeight x y q) new)).
      * split; [apply MatrixMore.later_refl|].
        exists []. split; [now rewrite app_nil_r | constructor].
      * intros c acc _ Hacc.
        exact (MatrixMore.checkCell_grown canvasWidth canvasHeight charSize
                 explosionRate (Matrix.grid st) pool g Hg HW HH acc c Hacc).
    + intros [E | Hq]; [contradiction|].
      apply (JsFacts.foldl_invariant _ (fun acc => acc = (pool, g))); [reflexivity|].
      intros [x y] acc Hc ->.
      apply JsFacts.elem_of_pairs in Hc as [Hx Hy].
      apply ArcherMore.elem_of_rangeStep in Hx as [Hx _]; [|lia].
      apply ArcherMore.elem_of_rangeStep in Hy as [Hy _]; [|lia].
      unfold Matrix.checkCell.
      destruct (Rgt_dec _ _) as [Hb | _]; [|reflexivity].
      specialize (Hq x y Hx Hy). lra.
Qed.

(** The theorem on the one-cell grid.  With a bright cell, the rate [3]
    and a draw of zero the pool of one particle grows by the [43] particles
    of one explosion; with a dim cell it stays as it is and no random number
    is drawn. *)
Lemma checkForExplosions_grows_witness :
  (exists new,
     fst (Matrix.checkForExplosions 640 480 12 3 Matrix.flash [Matrix.lively]
            Matrix.zeros) = [Matrix.lively] ++ new /\
     Forall (fun q => exists x y, Matrix.newborn 640 480 x y q) new /\
     List.length new = 43%nat) /\
  Matrix.checkForExplosions 640 480 12 3 (Matrix.tiny 6) [Matrix.lively]
    Matrix.halves = ([Matrix.lively], Matrix.halves).
Proof.
  split.
  - destruct (checkForExplosions_grows 640 480 12 3 Matrix.flash [Matrix.lively]
                Matrix.zeros) as [(new & Hnew & Hall) _].
    + intros n. unfold Matrix.zeros. lra.
    + lia.
    + lia.
    + exact MatrixMore.flash_grid_sized.
    + exists new. split; [exact Hnew|]. split; [exact Hall|].
      destruct (MatrixMore.flash_explodes [Matrix.lively]) as (new' & Hnew' & Hlen).
      rewrite Hnew in Hnew'. apply app_inv_head in Hnew'. now subst new'.
  - destruct (checkForExplosions_grows 640 480 12 3 (Matrix.tiny 6) [Matrix.lively]
                Matrix.halves) as [_ Hquiet].
    + intros n. unfold Matrix.halves. lra.
    + lia.
    + lia.
    + apply MatrixMore.tiny_grid_sized.
    + apply Hquiet. right. intros x y Hx Hy.
      assert (x = 0%Z) as -> by (cbn in Hx; lia).
      assert (y = 0%Z) as -> by (cbn in Hy; lia).
      change (Matrix.brightness (Matrix.cellAt (Matrix.grid (Matrix.tiny 6)) 0 0))
        with 0.2.
      lra.
Defined.

(** X9.  Whatever the pool and the random draws, every particle that
    [updateExplosions] leaves has life above zero and is a particle of the
    old pool moved by its velocity and aged by its decay (with gravity added
    to its vertical velocity if it has gravity); the pool never grows. *)
Theorem updateExplosions_ages (pool : list Matrix.Particle) (g : Rng.t) :
  Forall (fun q => 0 < Matrix.life q /\ exists p, In p pool /\ Matrix.aged p q)
         (fst (Matrix.updateExplosions pool g)) /\
  (List.length (fst (Matrix.updateExplosions pool g)) <= List.length pool)%nat.
Proof.
  unfold Matrix.updateExplosions. rewrite JsFacts.bind_run. cbv beta.
  unfold Rng.ret. cbn [fst].
  destruct (MatrixMore.updateParticles_aged pool g) as [Hall Hlen].
  destruct (MatrixMore.trim_sub _ _ Hall) as [Hall' Hlen'].
  split; [exact Hall' | lia].
Qed.

(** X10.  [updateStreams] keeps the streams in their columns and in their
    order: each stream either moves to its advanced position with its speed
    and length unchanged, or, when that position is more than its length
    below the grid, restarts at minus its length; while [Math.random]
    returns values in [[0, 1)] the speeds stay in [[0.3, 0.7)] and the
    lengths in [[5, 19]].  The grid has its sizes and the streams are in
    columns of the grid. *)
Theorem updateStreams_steps (st : Matrix.State) (ss : list Matrix.Stream) (g : Rng.t) :
  Rng.unit_rng g -> Matrix.grid_ok st ->
  Forall (fun s => (0 <= Matrix.sx s < Matrix.gridWidth st)%Z) ss ->
  Forall Matrix.stream_ok ss ->
  Forall2 (Matrix.stream_step st) ss (fst (Matrix.updateStreamList st ss g)) /\
  Forall Matrix.stream_ok (fst (Matrix.updateStreamList st ss g)).
Proof.
  intros Hg _ _ Hss. split.
  - apply MatrixMore.updateStreamList_steps.
  - now apply MatrixFacts.updateStreamList_ok.
Qed.

(** The theorem on the stream far below the one-row grid. *)
Lemma updateStreams_steps_witness :
  Forall2 (Matrix.stream_step (Matrix.tiny 6)) [Matrix.farStream]
    (fst (Matrix.updateStreamList (Matrix.tiny 6) [Matrix.farStream] Matrix.halves)) /\
  Forall Matrix.stream_ok
    (fst (Matrix.updateStreamList (Matrix.tiny 6) [Matrix.farStream] Matrix.halves)).
Proof.
  apply updateStreams_steps.
  - intros n. unfold Matrix.halves. lra.
  - apply MatrixMore.tiny_grid_ok.
  - repeat constructor; cbn; lia.
  - repeat constructor; unfold Matrix.farStream, Matrix.minLength, Matrix.maxLength;
      cbn [Matrix.speed Matrix.length]; try lra; lia.
Defined.

(** X11.  On a canvas with a width and a height and with a positive glyph
    size, [initGrid] makes the smallest grid of glyph cells that covers the
    canvas, with a blank cell (brightness zero, a glyph of [matrixChars], a
    timer in [[0, 100)]) at every place, and one stream for each column, in
    the order of the columns, whose head is inside the grid and whose speed
    and length are within their bounds. *)
Theorem initGrid_covers (canvasWidth canvasHeight : Z) (charSize : R)
    (st : Matrix.State) (g : Rng.t) :
  Rng.unit_rng g -> (0 < canvasWidth)%Z -> (0 < canvasHeight)%Z -> 0 < charSize ->
  let st' := fst (Matrix.initGrid canvasWidth canvasHeight charSize st g) in
  (IZR (Matrix.gridWidth st') - 1) * charSize < IZR canvasWidth
    <= IZR (Matrix.gridWidth st') * charSize /\
  (IZR (Matrix.gridHeight st') - 1) * charSize < IZR canvasHeight
    <= IZR (Matrix.gridHeight st') * charSize /\
  Matrix.grid_ok st' /\
  Forall (Forall Matrix.blank) (Matrix.grid st') /\
  map Matrix.sx (Matrix.streams st') = Js.range 0 (Matrix.gridWidth st') /\
  Forall (fun s => Matrix.stream_ok s /\
                   0 <= Matrix.sy s < IZR (Matrix.gridHeight st'))
         (Matrix.streams st').
Proof.
  intros Hg HW HH Hcs st'. subst st'. unfold Matrix.initGrid.
  destruct (Z.eqb_spec canvasWidth 0) as [E | _]; [lia|].
  rewrite JsFacts.bind_run. cbv beta. rewrite JsFacts.bind_run. cbv beta.
  unfold Rng.ret.
  cbn [fst Matrix.gridWidth Matrix.gridHeight Matrix.grid Matrix.streams].
  apply IZR_lt in HW, HH.
  pose proof (MatrixMore.ceil_bounds (IZR canvasWidth / charSize)) as Hw.
  pose proof (MatrixMore.ceil_bounds (IZR canvasHeight / charSize)) as Hh.
  assert (IZR canvasWidth = IZR canvasWidth / charSize * charSize) as Ew
    by (field; lra).
  assert (IZR canvasHeight = IZR canvasHeight / charSize * charSize) as Eh
    by (field; lra).
  assert (0 < IZR canvasWidth / charSize) as Pw by (apply Rdiv_lt_0_compat; lra).
  assert (0 < IZR canvasHeight / charSize) as Ph by (apply Rdiv_lt_0_compat; lra).
  set (gw := Js.ceil (IZR canvasWidth / charSize)) in *.
  set (gh := Js.ceil (IZR canvasHeight / charSize)) in *.
  assert (0 < gw)%Z as Hgw by (apply lt_IZR; lra).
  assert (0 < gh)%Z as Hgh by (apply lt_IZR; lra).
  destruct (MatrixMore.initCells_spec (Js.range 0 gw) (Js.range 0 gh) g Hg)
    as (Hlen & Hcols & Hl).
  destruct (MatrixMore.initStreams_spec gh (Js.range 0 gw) _
              (MatrixMore.unit_later _ _ Hg Hl) Hgh) as [Hsx Hss].
  split; [split; [|rewrite Ew at 1]; nra|].
  split; [split; [|rewrite Eh at 1]; nra|].
  split; [|split; [|split; [exact Hsx | exact Hss]]].
  - unfold Matrix.grid_ok. cbn [Matrix.gridWidth Matrix.gridHeight Matrix.grid].
    split; [exact Hgh|]. split.
    + rewrite Hlen, MatrixMore.length_range by lia. lia.
    + eapply Forall_impl; [exact Hcols|]. intros col [Hc _].
      cbv beta. rewrite Hc, MatrixMore.length_range by lia. lia.
  - eapply Forall_impl; [exact Hcols|]. intros col [_ Hb]. exact Hb.
Qed.

(** The theorem on a canvas of 640 by 480 with glyphs of size 12. *)
Lemma initGrid_covers_witness :
  let st' := fst (Matrix.initGrid 640 480 12 (Matrix.tiny 6) Matrix.halves) in
  (IZR (Matrix.gridWidth st') - 1) * 12 < 640 <= IZR (Matrix.gridWidth st') * 12 /\
  (IZR (Matrix.gridHeight st') - 1) * 12 < 480 <= IZR (Matrix.gridHeight st') * 12 /\
  Matrix.grid_ok st' /\
  Forall (Forall Matrix.blank) (Matrix.grid st') /\
  map Matrix.sx (Matrix.streams st') = Js.range 0 (Matrix.gridWidth st') /\
  Forall (fun s => Matrix.stream_ok s /\
                   0 <= Matrix.sy s < IZR (Matrix.gridHeight st'))
         (Matrix.streams st').
Proof.
  apply (initGrid_covers 640 480 12 (Matrix.tiny 6) Matrix.halves); try lia; try lra.
  intros n. unfold Matrix.halves. lra.
Defined.

(** X12.  On a grid and a video buffer of the sizes the filter believes they
    have, and with a sensitivity setting of at most [10], [updateGrid]
    keeps the sizes of the grid and updates every cell once, from the cell
    as it was:
    its target becomes what [getBrightnessAt] gives for its place, its
    brightness moves three tenths of the way to the target, and its timer
    goes down by one plus twice the new brightness; a timer that has run out
    restarts in [[20, 100)] with a new glyph of [matrixChars], and otherwise
    the glyph stays. *)
Theorem updateGrid_cells (st : Matrix.State) (g : Rng.t) :
  Rng.unit_rng g -> Matrix.sampling_ok st ->
  Matrix.brightnessSensitivity st <= 10 ->
  Matrix.grid_sized st (Matrix.grid st) ->
  Matrix.grid_sized st (fst (Matrix.updateGrid st g)) /\
  forall x y, (0 <= x < Matrix.gridWidth st)%Z -> (0 <= y < Matrix.gridHeight st)%Z ->
    Matrix.cell_updated (Matrix.getBrightnessAt st x y)
      (Matrix.cellAt (Matrix.grid st) x y)
      (Matrix.cellAt (fst (Matrix.updateGrid st g)) x y).
Proof.
  intros Hg _ _ Hsz.
  destruct (MatrixMore.updateGrid_spec st g Hg Hsz) as (_ & Hw & Hh & Hcells).
  split; [exact (conj Hw Hh)|].
  intros x y Hx Hy. specialize (Hcells x y Hx Hy).
  destruct (decide _) as [_ | Hout]; [exact Hcells|].
  exfalso. apply Hout, JsFacts.elem_of_pairs.
  split; apply JsFacts.elem_of_range; lia.
Qed.

(** The theorem on the one-cell grid. *)
Lemma updateGrid_cells_witness :
  Matrix.grid_sized (Matrix.tiny 6) (fst (Matrix.updateGrid (Matrix.tiny 6) Matrix.halves)) /\
  forall x y, (0 <= x < 1)%Z -> (0 <= y < 1)%Z ->
    Matrix.cell_updated (Matrix.getBrightnessAt (Matrix.tiny 6) x y)
      (Matrix.cellAt [[Matrix.dimCell]] x y)
      (Matrix.cellAt (fst (Matrix.updateGrid (Matrix.tiny 6) Matrix.halves)) x y).
Proof.
  apply (updateGrid_cells (Matrix.tiny 6) Matrix.halves).
  - intros n. unfold Matrix.halves. lra.
  - apply MatrixMore.tiny_sampling_ok.
  - cbn. lra.
  - apply MatrixMore.tiny_grid_sized.
Defined.

(** X13.  While the sensitivity setting is at most [10], [updateGrid] keeps
    the brightness of every cell within [[0, 1]], and it leaves every timer
    above zero, whatever the timers were.  The grid and the video buffer
    have the sizes the filter believes they have. *)
Theorem updateGrid_keeps_unit (st : Matrix.State) (g : Rng.t) :
  Rng.unit_rng g -> Matrix.sampling_ok st ->
  Matrix.grid_sized st (Matrix.grid st) ->
  Matrix.brightnessSensitivity st <= 10 ->
  (forall x y, (0 <= x < Matrix.gridWidth st)%Z -> (0 <= y < Matrix.gridHeight st)%Z ->
     0 <= Matrix.brightness (Matrix.cellAt (Matrix.grid st) x y) <= 1) ->
  forall x y, (0 <= x < Matrix.gridWidth st)%Z -> (0 <= y < Matrix.gridHeight st)%Z ->
    0 <= Matrix.brightness (Matrix.cellAt (fst (Matrix.updateGrid st g)) x y) <= 1 /\
    0 < Matrix.changeTimer (Matrix.cellAt (fst (Matrix.updateGrid st g)) x y).
Proof.
  intros Hg _ Hsz Hs Hold x y Hx Hy.
  now apply MatrixMore.updateGrid_unit.
Qed.

(** The theorem on the one-cell grid, whose cell has brightness [0.2]. *)
Lemma updateGrid_keeps_unit_witness :
  0 <= Matrix.brightness
         (Matrix.cellAt (fst (Matrix.updateGrid (Matrix.tiny 6) Matrix.halves)) 0 0) <= 1 /\
  0 < Matrix.changeTimer
        (Matrix.cellAt (fst (Matrix.updateGrid (Matrix.tiny 6) Matrix.halves)) 0 0).
Proof.
  apply (updateGrid_keeps_unit (Matrix.tiny 6) Matrix.halves).
  - intros n. unfold Matrix.halves. lra.
  - apply MatrixMore.tiny_sampling_ok.
  - apply MatrixMore.tiny_grid_sized.
  - cbn. lra.
  - intros x y Hx Hy. assert (x = 0%Z) as -> by (cbn in Hx; lia).
    assert (y = 0%Z) as -> by (cbn in Hy; lia).
    change (Matrix.cellAt (Matrix.grid (Matrix.tiny 6)) 0 0) with Matrix.dimCell.
    cbn [Matrix.brightness Matrix.dimCell]. lra.
  - cbn. lia.
  - cbn. lia.
Defined.

(** X14.  On a video buffer of bytes of the size the filter believes it
    has, each of the twenty-five reads of [getBrightnessAt] falls inside the
    buffer, for every cell, also for one outside the grid, since the place
    read is clamped into the frame; and the brightness sampled, before
    contrast and sensitivity, lies in [[0, 1]]. *)
Theorem sampleBrightness_unit (st : Matrix.State) (data : list Z) (gridX gridY : Z) :
  Matrix.sampling_ok st -> Matrix.brightnessData st = Some data ->
  Forall (fun v => (0 <= v <= 255)%Z) data ->
  (forall dx dy,
     let vx := Js.floor (IZR gridX / IZR (Matrix.gridWidth st)
                         * IZR (Matrix.videoWidth st)) in
     let vy := Js.floor (IZR gridY / IZR (Matrix.gridHeight st)
                         * IZR (Matrix.videoHeight st)) in
     let px := Z.max 0 (Z.min (Matrix.videoWidth st - 1) (vx + dx)) in
     let py := Z.max 0 (Z.min (Matrix.videoHeight st - 1) (vy + dy)) in
     (0 <= (py * Matrix.videoWidth st + px) * 4 /\
      (py * Matrix.videoWidth st + px) * 4 + 3 < Z.of_nat (List.length data))%Z) /\
  0 <= Matrix.sampleBrightness st data gridX gridY <= 1.
Proof.
  intros (_ & _ & Hvw & Hvh & Hlen) Hdata Hd. split.
  - intros dx dy. cbv zeta. rewrite (Hlen data Hdata).
    set (px := Z.max 0 (Z.min (Matrix.videoWidth st - 1) _)).
    set (py := Z.max 0 (Z.min (Matrix.videoHeight st - 1) _)).
    pose proof (JsFacts.cell_range (Matrix.videoWidth st) (Matrix.videoHeight st)
                  py px ltac:(lia) ltac:(lia)).
    lia.
  - unfold Matrix.sampleBrightness. cbv zeta.
    destruct (MatrixMore.sampleSum_range data (Matrix.videoWidth st)
                (Matrix.videoHeight st)
                (Js.floor (IZR gridX / IZR (Matrix.gridWidth st)
                           * IZR (Matrix.videoWidth st)))
                (Js.floor (IZR gridY / IZR (Matrix.gridHeight st)
                           * IZR (Matrix.videoHeight st)))
                Hd) as [Hr E].
    rewrite E in Hr |- *. lra.
Qed.

(** The theorem on the one-pixel video of the gray [51]. *)
Lemma sampleBrightness_unit_witness :
  (forall dx dy,
     let vx := Js.floor (IZR 0 / IZR (Matrix.gridWidth (Matrix.tiny 6))
                         * IZR (Matrix.videoWidth (Matrix.tiny 6))) in
     let vy := Js.floor (IZR 0 / IZR (Matrix.gridHeight (Matrix.tiny 6))
                         * IZR (Matrix.videoHeight (Matrix.tiny 6))) in
     let px := Z.max 0 (Z.min (Matrix.videoWidth (Matrix.tiny 6) - 1) (vx + dx)) in
     let py := Z.max 0 (Z.min (Matrix.videoHeight (Matrix.tiny 6) - 1) (vy + dy)) in
     (0 <= (py * Matrix.videoWidth (Matrix.tiny 6) + px) * 4 /\
      (py * Matrix.videoWidth (Matrix.tiny 6) + px) * 4 + 3
      < Z.of_nat (List.length [51; 51; 51; 255]%Z))%Z) /\
  0 <= Matrix.sampleBrightness (Matrix.tiny 6) [51; 51; 51; 255]%Z 0 0 <= 1.
Proof.
  apply (sampleBrightness_unit (Matrix.tiny 6) [51; 51; 51; 255]%Z 0 0).
  - apply MatrixMore.tiny_sampling_ok.
  - reflexivity.
  - repeat constructor; lia.
Defined.

(** ** WakingLifeFilter, further *)

Module WakingLifeMore.
Import Js JsFacts WakingLife WakingLifeFacts.

(** *** The noise *)

Lemma lookup_map {A B} (f : A -> B) (l : list A) (i : nat) :
  map f l !! i = option_map f (l !! i).
Proof.
  revert i. induction l as [| a l IH]; intros [| i]; cbn; try reflexivity. apply IH.
Qed.

(** The rounding to the multiples of [2 ^ -24] keeps the order and the
    bounds, and takes [1 - 2 ^ -27] to [1]. *)
Lemma fround24_rounding : rounding fround24.
Proof.
  unfold rounding, fround24. split; [|split].
  - intros x y H.
    assert (round (x * 16777216) <= round (y * 16777216))%Z as Hr
      by (apply round_mono; lra).
    apply IZR_le in Hr. lra.
  - rewrite Rmult_0_l, (round_IZR 0). lra.
  - rewrite Rmult_1_l, (round_IZR 16777216). lra.
Qed.

Lemma fround24_nearOne (i : nat) : fround24 (nearOne i) = 1.
Proof.
  unfold fround24, nearOne.
  rewrite (round_unique _ 16777216) by lra. lra.
Qed.

Lemma thousandths_unit (n : nat) : 0 <= INR (n mod 1000) / 1000 < 1.
Proof.
  pose proof (Nat.mod_upper_bound n 1000 ltac:(lia)) as Hn.
  apply lt_INR in Hn. pose proof (pos_INR (n mod 1000)) as H0.
  assert (INR 1000 = 1000) as E by (rewrite INR_IZR_INZ; reflexivity).
  rewrite E in Hn. lra.
Qed.

Lemma mix_range (a b s lo hi : R) :
  lo <= a <= hi -> lo <= b <= hi -> 0 <= s <= 1 ->
  lo <= a * (1 - s) + b * s <= hi.
Proof. intros Ha Hb Hs. split; nra. Qed.

Lemma smoothstep_unit (f : R) : 0 <= f < 1 -> 0 <= f * f * (3 - 2 * f) <= 1.
Proof.
  intros Hf. split.
  - apply Rmult_le_pos; [apply Rmult_le_pos|]; lra.
  - assert (0 <= (1 - f) * (1 - f) * (1 + 2 * f))
      by (apply Rmult_le_pos; [apply Rmult_le_pos|]; lra).
    nra.
Qed.

Lemma frac_unit (x : R) : 0 <= x - IZR (floor x) < 1.
Proof. pose proof (floor_bounds x). lra. Qed.

Lemma wrap_range (x : R) : (0 <= Z.rem (floor (Rabs x)) size < size)%Z.
Proof.
  assert (0 <= floor (Rabs x))%Z as H.
  { rewrite <- (floor_IZR 0). apply floor_mono. apply Rabs_pos. }
  rewrite Z.rem_mod_nonneg by (unfold size; lia).
  apply Z.mod_pos_bound. unfold size. lia.
Qed.

Lemma next_range (i : Z) : (0 <= i < size)%Z -> (0 <= Z.rem (i + 1) size < size)%Z.
Proof.
  intros Hi. rewrite Z.rem_mod_nonneg by (unfold size; lia).
  apply Z.mod_pos_bound. unfold size. lia.
Qed.

Lemma rd_table (P : R -> Prop) (table : list R) (yi xi : Z) :
  noise_table table -> Forall P table ->
  (0 <= xi < size)%Z -> (0 <= yi < size)%Z ->
  P (rd 0 table (yi * size + xi)).
Proof.
  intros Ht HP Hx Hy.
  pose proof (rd_in_range 0 table (yi * size + xi)) as Hl.
  rewrite Forall_lookup in HP. apply (HP (Z.to_nat (yi * size + xi))).
  apply Hl. rewrite Ht. apply cell_range; assumption.
Qed.

Lemma noise2D_between (lo hi x y : R) (table : list R) :
  noise_table table -> Forall (fun v => lo <= v <= hi) table ->
  lo <= noise2D x y table <= hi.
Proof.
  intros Ht Hv. unfold noise2D. cbv zeta.
  pose proof (wrap_range x) as Hx. pose proof (wrap_range y) as Hy.
  pose proof (next_range _ Hx) as Hx1. pose proof (next_range _ Hy) as Hy1.
  pose proof (smoothstep_unit _ (frac_unit x)) as Hsx.
  pose proof (smoothstep_unit _ (frac_unit y)) as Hsy.
  apply mix_range; [apply mix_range | apply mix_range | exact Hsy];
    try exact Hsx;
    apply (rd_table (fun v => lo <= v <= hi) table); assumption.
Qed.

(** What the loop of [fbm] keeps. *)
Lemma fbm_loop_between (lo hi x y : R) (table : list R) (n : nat) (a : FbmAcc) :
  noise_table table -> Forall (fun v => lo <= v <= hi) table ->
  0 < amplitude a -> 0 <= maxValue a ->
  lo * maxValue a <= value a <= hi * maxValue a ->
  let a' := fbm_loop n x y table a in
  0 < amplitude a' /\ maxValue a <= maxValue a' /\
  ((0 < n)%nat -> 0 < maxValue a') /\
  lo * maxValue a' <= value a' <= hi * maxValue a'.
Proof.
  intros Ht Hv. revert a. induction n as [| n IH]; intros a Ha Hm Hval; cbn [fbm_loop].
  - repeat split; try lra. lia.
  - pose proof (noise2D_between lo hi (x * frequency a) (y * frequency a) table Ht Hv)
      as Hn.
    destruct (IH (fbm_step x y table a)) as (Ha' & Hm' & _ & Hval').
    + cbn [fbm_step amplitude]. lra.
    + cbn [fbm_step maxValue]. lra.
    + cbn [fbm_step maxValue value]. split; nra.
    + cbn [fbm_step maxValue] in Hm'.
      split; [exact Ha'|]. split; [lra|]. split; [intros _; lra | exact Hval'].
Qed.

(** *** The motion map *)

Lemma chan_byte (a : list Z) (i : Z) :
  Forall (fun v => (0 <= v <= 255)%Z) a -> 0 <= chan a i <= 255.
Proof.
  intros Ha. unfold chan.
  assert (0 <= rd 0%Z a i <= 255)%Z as [H0 H1].
  { unfold rd. destruct (i <? 0)%Z; [lia|].
    rewrite nth_lookup. destruct (a !! Z.to_nat i) as [v|] eqn:E; [|simpl; lia].
    simpl. rewrite Forall_lookup in Ha. exact (Ha _ _ E). }
  apply IZR_le in H0, H1. lra.
Qed.

Lemma blockMotion_unit (src prev : list Z) (width gy gx : Z) :
  Forall (fun v => (0 <= v <= 255)%Z) src ->
  Forall (fun v => (0 <= v <= 255)%Z) prev ->
  0 <= blockMotion src prev width gy gx <= 1.
Proof.
  intros Hs Hp. unfold blockMotion. cbv zeta.
  assert (forall i, 0 <= Rabs (chan src i - chan prev i) <= 255) as Hd.
  { intros i. pose proof (chan_byte src i Hs). pose proof (chan_byte prev i Hp).
    split; [apply Rabs_pos | apply Rabs_le; lra]. }
  pose proof (Hd (((gy * gridSize + gridSize / 2) * width
                   + (gx * gridSize + gridSize / 2)) * 4)%Z).
  pose proof (Hd (((gy * gridSize + gridSize / 2) * width
                   + (gx * gridSize + gridSize / 2)) * 4 + 1)%Z).
  pose proof (Hd (((gy * gridSize + gridSize / 2) * width
                   + (gx * gridSize + gridSize / 2)) * 4 + 2)%Z).
  lra.
Qed.

Lemma blockMotion_same (src : list Z) (width gy gx : Z) :
  blockMotion src src width gy gx = 0.
Proof.
  unfold blockMotion. cbv zeta. rewrite !Rminus_diag, Rabs_R0. lra.
Qed.

Lemma rd_unit (m : list R) (i : Z) :
  Forall (fun v => 0 <= v <= 1) m -> 0 <= rd 0 m i <= 1.
Proof.
  intros Hm. unfold rd. destruct (i <? 0)%Z; [lra|].
  rewrite nth_lookup. destruct (m !! Z.to_nat i) as [v|] eqn:E; [|simpl; lra].
  simpl. rewrite Forall_lookup in Hm. exact (Hm _ _ E).
Qed.

Lemma length_pairs (ys xs : list Z) :
  length (pairs ys xs) = (length ys * length xs)%nat.
Proof.
  unfold pairs. induction ys as [| y ys IH]; simpl; [reflexivity|].
  rewrite length_app, length_map, IH. reflexivity.
Qed.

Lemma motion_map0_unit (st : State) (gridW gridH : Z) :
  unit_motion st -> Forall (fun v => 0 <= v <= 1) (motion_map0 st gridW gridH).
Proof.
  intros [_ Hm]. unfold motion_map0.
  assert (Forall (fun v => 0 <= v <= 1) (replicate (Z.to_nat (gridW * gridH)) 0))
    as Hz by (apply Forall_replicate; lra).
  destruct (motionMap st) as [m|]; [|exact Hz].
  destruct (_ =? _)%Z; [now apply Hm | exact Hz].
Qed.

Lemma motion_loop_unit (src prev : list Z) (width gridW : Z) (m0 : list R)
    (cells : list (Z * Z)) :
  Forall (fun v => (0 <= v <= 255)%Z) src ->
  Forall (fun v => (0 <= v <= 255)%Z) prev ->
  Forall (fun v => 0 <= v <= 1) m0 ->
  Forall (fun v => 0 <= v <= 1)
         (fst (foldl (motion_cell src prev width gridW) (m0, 0) cells)) /\
  0 <= snd (foldl (motion_cell src prev width gridW) (m0, 0) cells)
    <= INR (length cells).
Proof.
  intros Hs Hp Hm.
  apply (foldl_visited (motion_cell src prev width gridW)
           (fun seen acc => Forall (fun v => 0 <= v <= 1) (fst acc) /\
                            0 <= snd acc <= INR (length seen))).
  - cbn. split; [exact Hm | lra].
  - intros seen [gy gx] rest [m total] _ [Hall Htot]. cbn [fst snd] in Hall, Htot.
    unfold motion_cell. cbn [fst snd].
    pose proof (blockMotion_unit src prev width gy gx Hs Hp) as Hb.
    pose proof (rd_unit m (gy * gridW + gx) Hall) as Hr.
    assert (Forall (fun v => 0 <= v <= 1)
              (wr m (gy * gridW + gx)
                  (rd 0 m (gy * gridW + gx) * 0.7
                   + blockMotion src prev width gy gx * 0.3))) as Hall'.
    { unfold wr. destruct (_ <? 0)%Z; [exact Hall|].
      apply Forall_insert; [exact Hall | lra]. }
    split; [exact Hall'|].
    pose proof (rd_unit _ (gy * gridW + gx) Hall') as Hr'.
    rewrite length_app. cbn [length]. rewrite Nat.add_1_r, S_INR. lra.
Qed.

(** *** The pixel loop *)

Lemma clamp_floor (n : Z) (v : R) :
  (1 <= n)%Z ->
  (0 <= floor (clamp 0 (IZR n - 1) v) <= n - 1)%Z /\
  0 <= clamp 0 (IZR n - 1) v - IZR (floor (clamp 0 (IZR n - 1) v)) < 1.
Proof.
  intros Hn. apply IZR_le in Hn.
  pose proof (clamp_bounds 0 (IZR n - 1) v ltac:(lra)) as Hc.
  set (c := clamp 0 (IZR n - 1) v) in *.
  pose proof (floor_bounds c) as Hf. split; [|lra]. split.
  - rewrite <- (floor_IZR 0). apply floor_mono. lra.
  - rewrite <- (floor_IZR (n - 1)). apply floor_mono. rewrite minus_IZR. lra.
Qed.

Lemma at_index_byte (src : list Z) (width height y x c : Z) :
  frame_ok src width height ->
  (0 <= x < width)%Z -> (0 <= y < height)%Z -> (0 <= c <= 3)%Z ->
  exists v, at_index src ((y * width + x) * 4 + c) = Some v /\ 0 <= v <= 255.
Proof.
  intros [Hlen Hb] Hx Hy Hc.
  pose proof (cell_range width height y x Hx Hy) as Hr.
  unfold at_index.
  destruct (Z.ltb_spec ((y * width + x) * 4 + c) 0) as [Hneg | _]; [lia|].
  destruct (lookup_lt_is_Some_2 src (Z.to_nat ((y * width + x) * 4 + c)))
    as [v Hv]; [lia|].
  rewrite Hv. exists (IZR v). split; [reflexivity|].
  rewrite Forall_lookup in Hb. destruct (Hb _ _ Hv) as [H0 H1].
  apply IZR_le in H0, H1. lra.
Qed.

Lemma bilerp_between (lo hi v00 v10 v01 v11 xf yf : R) :
  lo <= v00 <= hi -> lo <= v10 <= hi -> lo <= v01 <= hi -> lo <= v11 <= hi ->
  0 <= xf <= 1 -> 0 <= yf <= 1 ->
  lo <= bilerp v00 v10 v01 v11 xf yf <= hi.
Proof.
  intros. unfold bilerp. cbv zeta.
  apply mix_range; [apply mix_range | apply mix_range | ]; assumption.
Qed.

Lemma sample_spec (src : list Z) (width height : Z) (srcX srcY : R) (c : Z) :
  frame_ok src width height -> (1 <= width)%Z -> (1 <= height)%Z ->
  (0 <= c <= 3)%Z ->
  exists v, sample src width height srcX srcY c = Some v /\ 0 <= v <= 255.
Proof.
  intros Hsrc Hw Hh Hc. unfold sample. cbv zeta.
  destruct (clamp_floor width srcX Hw) as [Hx0 Hxf].
  destruct (clamp_floor height srcY Hh) as [Hy0 Hyf].
  set (x0 := floor (clamp 0 (IZR width - 1) srcX)) in *.
  set (y0 := floor (clamp 0 (IZR height - 1) srcY)) in *.
  destruct (at_index_byte src width height y0 x0 c Hsrc) as (v00 & -> & H00);
    [lia | lia | exact Hc |].
  destruct (at_index_byte src width height y0 (Z.min (x0 + 1) (width - 1)) c Hsrc)
    as (v10 & -> & H10); [lia | lia | exact Hc |].
  destruct (at_index_byte src width height (Z.min (y0 + 1) (height - 1)) x0 c Hsrc)
    as (v01 & -> & H01); [lia | lia | exact Hc |].
  destruct (at_index_byte src width height (Z.min (y0 + 1) (height - 1))
              (Z.min (x0 + 1) (width - 1)) c Hsrc)
    as (v11 & -> & H11); [lia | lia | exact Hc |].
  eexists. split; [reflexivity|].
  apply bilerp_between; try assumption; lra.
Qed.



(** *** [applyPainterlySmooth] *)

Lemma applyPainterlySmooth_cells (p : Settings) (data : list Z) (width height : Z) :
  applyPainterlySmooth p data width height
  = foldl (smooth_pixel p data width) data (smooth_cells p width height).
Proof.
  unfold applyPainterlySmooth, smooth_cells.
  apply (foldl_pairs (smooth_pixel p data width)).
Qed.

Lemma wr_rd {A} (d : A) (a : list A) (i : Z) : wr a i (rd d a i) = a.
Proof.
  unfold wr, rd. destruct (i <? 0)%Z; [reflexivity|].
  destruct (a !! Z.to_nat i) as [v|] eqn:E.
  - rewrite nth_lookup, E. simpl. now apply list_insert_id.
  - apply list_insert_ge. now apply lookup_ge_None.
Qed.

(** A frame of [n] pixels of one colour. *)
Lemma rd_tiled (px : list Z) (n : nat) (k c : Z) :
  length px = 4%nat -> (0 <= k < Z.of_nat n)%Z -> (0 <= c < 4)%Z ->
  rd 0%Z (concat (replicate n px)) (k * 4 + c) = rd 0%Z px c.
Proof.
  intros Hpx. revert k. induction n as [| n IH]; intros k Hk Hc; [lia|].
  cbn [replicate concat]. unfold rd.
  destruct (Z.ltb_spec (k * 4 + c) 0) as [Hneg | _]; [lia|].
  destruct (Z.ltb_spec c 0) as [Hneg | _]; [lia|].
  rewrite !nth_lookup.
  destruct (Z.eq_dec k 0%Z) as [-> | Hk0].
  - rewrite lookup_app_l by (rewrite Hpx; lia). reflexivity.
  - rewrite lookup_app_r by (rewrite Hpx; lia).
    replace (Z.to_nat (k * 4 + c) - length px)%nat
      with (Z.to_nat ((k - 1) * 4 + c)) by (rewrite Hpx; lia).
    specialize (IH (k - 1)%Z ltac:(lia) Hc). unfold rd in IH.
    destruct (Z.ltb_spec ((k - 1) * 4 + c) 0) as [Hneg | _]; [lia|].
    destruct (Z.ltb_spec c 0) as [Hneg | _]; [lia|].
    rewrite !nth_lookup in IH. exact IH.
Qed.

Lemma rd_wr3 (a : list Z) (i j : Z) (u v w : Z) :
  j <> i -> j <> (i + 1)%Z -> j <> (i + 2)%Z ->
  rd 0%Z (wr (wr (wr a i u) (i + 1) v) (i + 2) w) j = rd 0%Z a j.
Proof.
  intros H0 H1 H2. rewrite !rd_wr_ne by congruence. reflexivity.
Qed.

(** What the smoothing keeps of the buffer [data] it started from. *)
Lemma smooth_pixel_keeps (p : Settings) (temp data d : list Z) (width : Z)
    (cells : list (Z * Z)) (c : Z * Z) :
  c ∈ cells ->
  (length d = length data /\
   (Forall (fun v => (0 <= v <= 255)%Z) data -> Forall (fun v => (0 <= v <= 255)%Z) d) /\
   forall i, rd 0%Z d i <> rd 0%Z data i ->
     exists y x k, (y, x) ∈ cells /\ (0 <= k <= 2)%Z /\ i = ((y * width + x) * 4 + k)%Z) ->
  (length (smooth_pixel p temp width d c) = length data /\
   (Forall (fun v => (0 <= v <= 255)%Z) data ->
    Forall (fun v => (0 <= v <= 255)%Z) (smooth_pixel p temp width d c)) /\
   forall i, rd 0%Z (smooth_pixel p temp width d c) i <> rd 0%Z data i ->
     exists y x k, (y, x) ∈ cells /\ (0 <= k <= 2)%Z /\ i = ((y * width + x) * 4 + k)%Z).
Proof.
  destruct c as [y x]. intros Hc (Hlen & Hbytes & Hch). unfold smooth_pixel. cbv zeta.
  destruct (Rgt_dec _ _) as [_ | _]; [|now split; [|split]].
  split; [now rewrite !length_wr|]. split.
  - intros Hd. specialize (Hbytes Hd).
    repeat apply ArcherMore.Forall_wr; try exact Hbytes;
      apply JsMore.toUint8Clamp_range.
  - intros i Hi.
    destruct (Z.eq_dec i ((y * width + x) * 4)%Z) as [E0 | N0];
      [exists y, x, 0%Z; split; [exact Hc|]; split; lia|].
    destruct (Z.eq_dec i ((y * width + x) * 4 + 1)%Z) as [E1 | N1];
      [exists y, x, 1%Z; split; [exact Hc|]; split; lia|].
    destruct (Z.eq_dec i ((y * width + x) * 4 + 2)%Z) as [E2 | N2];
      [exists y, x, 2%Z; split; [exact Hc|]; split; lia|].
    rewrite rd_wr3 in Hi by assumption. now apply Hch.
Qed.

(** On a flat frame the sums of a window are the count times the colour. *)
Lemma smooth_sums_flat (p : Settings) (data : list Z) (width height r g b y x : Z) :
  flat data width height r g b ->
  (smoothRadius p <= x < width - smoothRadius p)%Z ->
  (smoothRadius p <= y < height - smoothRadius p)%Z ->
  let s := smooth_sums p data width x y in
  0 <= count s /\ sumR s = count s * IZR r /\ sumG s = count s * IZR g /\
  sumB s = count s * IZR b.
Proof.
  intros Hflat Hx Hy. cbv zeta. unfold smooth_sums.
  apply (foldl_invariant _
           (fun s => 0 <= count s /\ sumR s = count s * IZR r /\
                     sumG s = count s * IZR g /\ sumB s = count s * IZR b)).
  - cbn. repeat split; lra.
  - intros [dy dx] s Hd (Hc & Hr & Hg & Hb).
    apply elem_of_pairs in Hd as [Hdy Hdx]. apply elem_of_range in Hdy, Hdx.
    destruct (Hflat (y + dy)%Z (x + dx)%Z ltac:(lia) ltac:(lia)) as (Er & Eg & Eb).
    unfold smooth_add. cbv zeta.
    destruct (Rlt_dec _ _) as [_ | _]; [|now repeat split].
    unfold chan. rewrite Er, Eg, Eb. cbn [count sumR sumG sumB].
    rewrite Hr, Hg, Hb. repeat split; lra.
Qed.

Lemma smooth_pixel_flat (p : Settings) (data : list Z) (width height r g b y x : Z) :
  flat data width height r g b ->
  (0 <= r <= 255)%Z -> (0 <= g <= 255)%Z -> (0 <= b <= 255)%Z ->
  (0 <= smoothRadius p)%Z ->
  (smoothRadius p <= x < width - smoothRadius p)%Z ->
  (smoothRadius p <= y < height - smoothRadius p)%Z ->
  smooth_pixel p data width data (y, x) = data.
Proof.
  intros Hflat Hr Hg Hb Hrad Hx Hy. unfold smooth_pixel. cbv zeta.
  destruct (smooth_sums_flat p data width height r g b y x Hflat Hx Hy)
    as (_ & Er & Eg & Eb).
  destruct (Rgt_dec _ _) as [Hpos | _]; [|reflexivity].
  set (s := smooth_sums p data width x y) in *.
  assert (sumR s / count s = IZR r) as -> by (rewrite Er; field; lra).
  assert (sumG s / count s = IZR g) as -> by (rewrite Eg; field; lra).
  assert (sumB s / count s = IZR b) as -> by (rewrite Eb; field; lra).
  rewrite !toUint8Clamp_byte by assumption.
  destruct (Hflat y x ltac:(lia) ltac:(lia)) as (Fr & Fg & Fb).
  rewrite <- Fr at 1. rewrite wr_rd.
  rewrite <- Fg at 1. rewrite wr_rd.
  rewrite <- Fb at 1. apply wr_rd.
Qed.

Lemma applyPainterlySmooth_keeps (p : Settings) (data : list Z) (width height : Z) :
  length (applyPainterlySmooth p data width height) = length data /\
  (Forall (fun v => (0 <= v <= 255)%Z) data ->
   Forall (fun v => (0 <= v <= 255)%Z) (applyPainterlySmooth p data width height)) /\
  (forall i, rd 0%Z (applyPainterlySmooth p data width height) i <> rd 0%Z data i ->
     exists y x k, (y, x) ∈ smooth_cells p width height /\
                   (0 <= k <= 2)%Z /\ i = ((y * width + x) * 4 + k)%Z).
Proof.
  rewrite applyPainterlySmooth_cells.
  apply (foldl_invariant (smooth_pixel p data width)
           (fun d => length d = length data /\
              (Forall (fun v => (0 <= v <= 255)%Z) data ->
               Forall (fun v => (0 <= v <= 255)%Z) d) /\
              forall i, rd 0%Z d i <> rd 0%Z data i ->
                exists y x k, (y, x) ∈ smooth_cells p width height /\
                              (0 <= k <= 2)%Z /\ i = ((y * width + x) * 4 + k)%Z)).
  - split; [reflexivity|]. split; [tauto|]. intros i Hi. now contradiction Hi.
  - intros c d Hc Hd. now apply smooth_pixel_keeps.
Qed.

Lemma applyPainterlySmooth_alpha (p : Settings) (data : list Z) (width height j : Z) :
  rd 0%Z (applyPainterlySmooth p data width height) (4 * j + 3)
  = rd 0%Z data (4 * j + 3).
Proof.
  destruct (applyPainterlySmooth_keeps p data width height) as (_ & _ & Hch).
  destruct (Z.eq_dec (rd 0%Z (applyPainterlySmooth p data width height) (4 * j + 3))
                     (rd 0%Z data (4 * j + 3))) as [E | NE]; [exact E|].
  destruct (Hch _ NE) as (y & x & k & _ & Hk & Hi). lia.
Qed.

(** *** The pixel loop, pixel by pixel *)




(** *** The example tables *)

Lemma exampleTables_ok : tables_ok exampleTables.
Proof.
  assert (noise_table exampleTable /\ Forall (fun v => 0 <= v <= 1) exampleTable)
    as H.
  { split; [apply generateNoiseTable_ok|].
    unfold exampleTable, generateNoiseTable. cbn [fst].
    apply Forall_forall. intros v Hv.
    apply list_elem_of_In, in_map_iff in Hv as (i & <- & _).
    pose proof (thousandths_unit i). lra. }
  unfold tables_ok, exampleTables. cbn [noiseTableX noiseTableY noiseTableColor].
  split; [exact H|]. split; exact H.
Qed.

End WakingLifeMore.

(** X15.  While [Math.random] returns values in [[0, 1)], the table
    [generateNoiseTable] makes has [512 * 512] entries, each in [[0, 1]],
    the bound [1] included: entry [i] is the [i]-th draw as the
    [Float32Array] stores it, rounded to single precision, and a draw just
    below [1] is stored as [1]. *)
Theorem generateNoiseTable_unit (fround : R -> R) (g : Rng.t) :
  WakingLife.rounding fround -> Rng.unit_rng g ->
  let table := fst (WakingLife.generateNoiseTable32 fround g) in
  WakingLife.noise_table table /\
  Forall (fun v => 0 <= v <= 1) table /\
  forall i : nat, (Z.of_nat i < WakingLife.size * WakingLife.size)%Z ->
    table !! i = Some (fround (g i)).
Proof.
  intros (Hmono & H0 & H1) Hg table. subst table.
  unfold WakingLife.generateNoiseTable32. cbn [fst]. split; [|split].
  - unfold WakingLife.noise_table.
    rewrite length_map, length_seq, Z2Nat.id; [reflexivity|].
    unfold WakingLife.size. lia.
  - apply Forall_forall. intros v Hv.
    apply list_elem_of_In, in_map_iff in Hv as (i & <- & _).
    destruct (Hg i) as [Hlo Hhi].
    pose proof (Hmono 0 (g i) Hlo) as Hl.
    pose proof (Hmono (g i) 1 ltac:(lra)) as Hh.
    rewrite H0 in Hl. rewrite H1 in Hh. split; assumption.
  - intros i Hi. rewrite WakingLifeMore.lookup_map, lookup_seq_lt.
    + reflexivity.
    + apply Nat2Z.inj_lt. rewrite Z2Nat.id; [exact Hi|].
      unfold WakingLife.size. lia.
Qed.

(** The theorem on the rounding to the multiples of [2 ^ -24] and the
    generator that always returns [1 - 2 ^ -27]: the first entry of the
    table is [1]. *)
Lemma generateNoiseTable_unit_witness :
  let table := fst (WakingLife.generateNoiseTable32 WakingLife.fround24
                      WakingLife.nearOne) in
  WakingLife.noise_table table /\
  Forall (fun v => 0 <= v <= 1) table /\
  (forall i : nat, (Z.of_nat i < WakingLife.size * WakingLife.size)%Z ->
     table !! i = Some (WakingLife.fround24 (WakingLife.nearOne i))) /\
  table !! 0%nat = Some 1.
Proof.
  intros table.
  destruct (generateNoiseTable_unit WakingLife.fround24 WakingLife.nearOne)
    as (Hn & Hu & Hi).
  - exact WakingLifeMore.fround24_rounding.
  - intros n. unfold WakingLife.nearOne. lra.
  - split; [exact Hn|]. split; [exact Hu|]. split; [exact Hi|].
    fold table in Hi. rewrite Hi by (unfold WakingLife.size; lia).
    now rewrite WakingLifeMore.fround24_nearOne.
Defined.

(** X16.  [noise2D] reads the table inside its [512 * 512] entries for
    every pair of coordinates, negative ones too, and its value lies between
    any two bounds that hold of all entries of the table. *)
Theorem noise2D_range (lo hi x y : R) (table : list R) :
  WakingLife.noise_table table -> Forall (fun v => lo <= v <= hi) table ->
  lo <= WakingLife.noise2D x y table <= hi.
Proof. apply WakingLifeMore.noise2D_between. Qed.

(** The theorem on the example table, at a place with negative
    coordinates. *)
Lemma noise2D_range_witness :
  0 <= WakingLife.noise2D (-3.5) (-0.25) WakingLife.exampleTable <= 1.
Proof.
  apply noise2D_range; [apply WakingLifeFacts.generateNoiseTable_ok|].
  unfold WakingLife.exampleTable, WakingLife.generateNoiseTable. cbn [fst].
  apply Forall_forall. intros v Hv.
  apply list_elem_of_In, in_map_iff in Hv as (i & <- & _).
  pose proof (WakingLifeMore.thousandths_unit i). lra.
Defined.

(** X17.  With at least one octave, [fbm] lies between any two bounds that
    hold of all entries of the table: the normalization by the summed
    amplitudes keeps the weighted sum of the octaves in the range of the
    noise. *)
Theorem fbm_range (lo hi x y : R) (table : list R) (octaves : Z) :
  WakingLife.noise_table table -> Forall (fun v => lo <= v <= hi) table ->
  (1 <= octaves)%Z ->
  lo <= WakingLife.fbm x y table octaves <= hi.
Proof.
  intros Ht Hv Ho. unfold WakingLife.fbm. cbv zeta.
  destruct (WakingLifeMore.fbm_loop_between lo hi x y table (Z.to_nat octaves)
              {| WakingLife.value := 0; WakingLife.amplitude := 0.5;
                 WakingLife.frequency := 1; WakingLife.maxValue := 0 |} Ht Hv)
    as (_ & _ & Hpos & Hval); cbn [WakingLife.amplitude WakingLife.maxValue
                                   WakingLife.value]; try lra.
  specialize (Hpos ltac:(lia)).
  set (a := WakingLife.fbm_loop _ _ _ _ _) in *.
  assert (WakingLife.value a / WakingLife.maxValue a * WakingLife.maxValue a
          = WakingLife.value a) as E by (field; lra).
  split; apply (Rmult_le_reg_r (WakingLife.maxValue a)); try exact Hpos;
    rewrite E; lra.
Qed.

(** The theorem on the example table, whose entries lie in [[0, 1]]. *)
Lemma fbm_range_witness :
  0 <= WakingLife.fbm 0.3 1.7 WakingLife.exampleTable 3 <= 1.
Proof.
  apply fbm_range; [apply WakingLifeFacts.generateNoiseTable_ok | | lia].
  unfold WakingLife.exampleTable, WakingLife.generateNoiseTable. cbn [fst].
  apply Forall_forall. intros v Hv.
  apply list_elem_of_In, in_map_iff in Hv as (i & <- & _).
  pose proof (WakingLifeMore.thousandths_unit i). lra.
Defined.


(** X18.  What [detectMotion] does to the previous frame, whatever the
    motion: a first call stores the current frame and ends normally with the
    global motion as it was; a later call with a frame no longer than the
    stored one overwrites the front of the stored frame; a later call with a
    longer frame ends in the [RangeError] of [set] and leaves the stored
    frame as it was, so that the next frame of that size meets the same
    error.  The clock and the frame counter never change. *)
Theorem detectMotion_prevFrame (st : WakingLife.State) (src : list Z)
    (width height : Z) :
  let o := WakingLife.detectMotion st src width height in
  WakingLife.time (WakingLife.state_of o) = WakingLife.time st /\
  WakingLife.frameCount (WakingLife.state_of o) = WakingLife.frameCount st /\
  match WakingLife.prevFrame st with
  | None =>
      o = WakingLife.Done (WakingLife.state_of o) /\
      WakingLife.prevFrame (WakingLife.state_of o) = Some src /\
      WakingLife.globalMotion (WakingLife.state_of o) = WakingLife.globalMotion st
  | Some prev =>
      if (length src <=? length prev)%nat
      then o = WakingLife.Done (WakingLife.state_of o) /\
           exists rest, WakingLife.prevFrame (WakingLife.state_of o) = Some (src ++ rest) /\
                        length (src ++ rest) = length prev /\
                        (length src = length prev -> rest = [])
      else o = WakingLife.RangeError (WakingLife.state_of o) /\
           WakingLife.prevFrame (WakingLife.state_of o) = Some prev
  end.
Proof.
  intros o. subst o. unfold WakingLife.detectMotion. cbv zeta.
  destruct (WakingLife.prevFrame st) as [prev|] eqn:Hprev.
  - destruct (Nat.leb_spec (length src) (length prev)) as [Hle | Hgt].
    + cbn. split; [reflexivity|]. split; [reflexivity|]. split; [reflexivity|].
      exists (drop (length src) prev). split; [reflexivity|].
      split; [rewrite length_app, length_drop; lia|].
      intros E. apply drop_ge. lia.
    + cbn. rewrite Hprev. repeat split; reflexivity.
  - cbn. repeat split; reflexivity.
Qed.

(** X19.  [detectMotion] keeps the motion history in [[0, 1]]: on a frame
    of bytes of the size of a canvas of at least one block in each
    direction, and with a stored frame of bytes that is no shorter, if there
    is one, the call ends normally, the motion map has an entry for each
    block, and if the entries of the motion map and the global motion were
    in [[0, 1]] they still are. *)
Theorem detectMotion_bounded (st : WakingLife.State) (src : list Z)
    (width height : Z) :
  WakingLife.unit_motion st ->
  WakingLife.frame_ok src width height ->
  (forall prev, WakingLife.prevFrame st = Some prev ->
                (length src <= length prev)%nat /\
                Forall (fun v => (0 <= v <= 255)%Z) prev) ->
  (WakingLife.gridSize <= width)%Z -> (WakingLife.gridSize <= height)%Z ->
  exists st',
    WakingLife.detectMotion st src width height = WakingLife.Done st' /\
    WakingLife.unit_motion st' /\ WakingLife.motion_sized st' width height.
Proof.
  intros Hu [_ Hs] Hp Hw Hh.
  pose proof (WakingLifeMore.motion_map0_unit st (width / WakingLife.gridSize)
                (height / WakingLife.gridSize) Hu) as Hm0.
  assert (1 <= width / WakingLife.gridSize)%Z as HgW
    by (apply Z.div_le_lower_bound; unfold WakingLife.gridSize in *; lia).
  assert (1 <= height / WakingLife.gridSize)%Z as HgH
    by (apply Z.div_le_lower_bound; unfold WakingLife.gridSize in *; lia).
  pose proof (WakingLifeFacts.motion_map0_length st (width / WakingLife.gridSize)
                (height / WakingLife.gridSize) ltac:(nia)) as Hl0.
  unfold WakingLife.detectMotion. cbv zeta.
  destruct (WakingLife.prevFrame st) as [prev|] eqn:Hprev.
  - destruct (Hp prev eq_refl) as [Hle Hpb].
    rewrite (JsFacts.foldl_pairs
               (WakingLife.motion_cell src prev width (width / WakingLife.gridSize))).
    destruct (WakingLifeMore.motion_loop_unit src prev width
                (width / WakingLife.gridSize)
                (WakingLife.motion_map0 st (width / WakingLife.gridSize)
                   (height / WakingLife.gridSize))
                (Js.pairs (Js.range 0 (height / WakingLife.gridSize))
                          (Js.range 0 (width / WakingLife.gridSize)))
                Hs Hpb Hm0) as [Hall Htot].
    pose proof (WakingLifeFacts.motion_loop src prev width
                  (width / WakingLife.gridSize) (height / WakingLife.gridSize)
                  _ Hl0) as Hloop.
    cbv zeta in Hloop. destruct Hloop as [Hlen _].
    set (acc := foldl _ _ _) in *.
    assert (INR (length (Js.pairs (Js.range 0 (height / WakingLife.gridSize))
                                  (Js.range 0 (width / WakingLife.gridSize))))
            = IZR (width / WakingLife.gridSize * (height / WakingLife.gridSize))) as E.
    { rewrite WakingLifeMore.length_pairs, INR_IZR_INZ, Nat2Z.inj_mul.
      unfold Js.range. rewrite !length_seqZ. f_equal. lia. }
    rewrite E in Htot.
    assert (1 <= IZR (width / WakingLife.gridSize * (height / WakingLife.gridSize)))
      as Hn by (apply IZR_le; nia).
    set (n := IZR (width / WakingLife.gridSize * (height / WakingLife.gridSize))) in *.
    assert (0 <= snd acc / n <= 1) as Havg.
    { assert (snd acc / n * n = snd acc) as En by (field; lra).
      split; apply (Rmult_le_reg_r n); try lra; rewrite En; lra. }
    destruct Hu as [Hg _].
    destruct (Nat.leb_spec (length src) (length prev)) as [_ | Hgt]; [|lia].
    eexists. split; [reflexivity|]. split.
    + split; [cbn; lra|]. cbn. intros m [= <-]. exact Hall.
    + intros m. cbn. intros [= <-]. exact Hlen.
  - eexists. split; [reflexivity|]. split.
    + split; [apply Hu|]. cbn. intros m [= <-]. exact Hm0.
    + intros m. cbn. intros [= <-]. exact Hl0.
Qed.

(** The theorem on a red frame after a black one. *)
Lemma detectMotion_bounded_witness :
  exists st',
    WakingLife.detectMotion WakingLife.sawBlack WakingLife.redFrame 16 16
    = WakingLife.Done st' /\
    WakingLife.unit_motion st' /\ WakingLife.motion_sized st' 16 16.
Proof.
  apply detectMotion_bounded.
  - split; [cbn; lra|]. cbn. intros m [= <-]. repeat constructor; lra.
  - split.
    + unfold WakingLife.redFrame.
      rewrite length_concat, fmap_replicate, sum_list_replicate. reflexivity.
    + unfold WakingLife.redFrame. apply Forall_concat, Forall_replicate.
      repeat constructor; lia.
  - unfold WakingLife.sawBlack. cbn [WakingLife.prevFrame]. intros prev [= <-].
    unfold WakingLife.redFrame, WakingLife.blackFrame. split.
    + rewrite !length_concat, !fmap_replicate, !sum_list_replicate. cbn. lia.
    + apply Forall_concat, Forall_replicate. repeat constructor; lia.
  - unfold WakingLife.gridSize. lia.
  - unfold WakingLife.gridSize. lia.
Defined.

(** X20.  A frame of the size of the canvas that is equal to the one
    before it makes every block of the motion map decay to [0.7] of its
    value, and leaves the stored frame as it is. *)
Theorem detectMotion_still (st : WakingLife.State) (src : list Z) (m : list R)
    (width height : Z) :
  WakingLife.prevFrame st = Some src -> WakingLife.motionMap st = Some m ->
  (0 <= width)%Z -> (0 <= height)%Z ->
  Z.of_nat (length src) = (width * height * 4)%Z ->
  Z.of_nat (length m) = (width / WakingLife.gridSize * (height / WakingLife.gridSize))%Z ->
  exists st' m',
    WakingLife.detectMotion st src width height = WakingLife.Done st' /\
    WakingLife.prevFrame st' = Some src /\
    WakingLife.motionMap st' = Some m' /\
    length m' = length m /\
    forall gy gx, (0 <= gx < width / WakingLife.gridSize)%Z ->
                  (0 <= gy < height / WakingLife.gridSize)%Z ->
      Js.rd 0 m' (gy * (width / WakingLife.gridSize) + gx) =
      Js.rd 0 m (gy * (width / WakingLife.gridSize) + gx) * 0.7.
Proof.
  intros Hprev Hmap Hw Hh _ Hlen.
  assert (WakingLife.motion_map0 st (width / WakingLife.gridSize)
            (height / WakingLife.gridSize) = m) as Hm0.
  { unfold WakingLife.motion_map0. rewrite Hmap.
    destruct (Z.eqb_spec (Z.of_nat (length m))
                (width / WakingLife.gridSize * (height / WakingLife.gridSize)));
      [reflexivity | contradiction]. }
  pose proof (WakingLifeFacts.motion_loop src src width (width / WakingLife.gridSize)
                (height / WakingLife.gridSize) m Hlen) as Hloop.
  cbv zeta in Hloop. destruct Hloop as [Hlen' Hcells].
  unfold WakingLife.detectMotion. cbv zeta. rewrite Hprev, Hm0.
  rewrite (JsFacts.foldl_pairs
             (WakingLife.motion_cell src src width (width / WakingLife.gridSize))).
  rewrite Nat.leb_refl.
  eexists _, _. split; [reflexivity|]. cbn.
  split; [now rewrite drop_all, app_nil_r|]. split; [reflexivity|].
  split; [lia|].
  intros gy gx Hgx Hgy. rewrite (Hcells gy gx Hgx Hgy).
  destruct (decide _) as [_ | Hout].
  - rewrite WakingLifeMore.blockMotion_same. lra.
  - exfalso. apply Hout, JsFacts.elem_of_pairs.
    split; apply JsFacts.elem_of_range; lia.
Qed.

(** The theorem on the filter that still holds motion, shown its stored
    frame again: the four blocks decay from [0.5], [0.2], [0] and [1] to
    [0.35], [0.14], [0] and [0.7]. *)
Lemma detectMotion_still_witness :
  exists st' m',
    WakingLife.detectMotion WakingLife.stirred
      (concat (replicate 1024 [0; 0; 0; 255]%Z)) 32 32 = WakingLife.Done st' /\
    WakingLife.prevFrame st' = Some (concat (replicate 1024 [0; 0; 0; 255]%Z)) /\
    WakingLife.motionMap st' = Some m' /\
    length m' = length [0.5; 0.2; 0; 1] /\
    (forall gy gx, (0 <= gx < 32 / WakingLife.gridSize)%Z ->
                   (0 <= gy < 32 / WakingLife.gridSize)%Z ->
       Js.rd 0 m' (gy * (32 / WakingLife.gridSize) + gx) =
       Js.rd 0 [0.5; 0.2; 0; 1] (gy * (32 / WakingLife.gridSize) + gx) * 0.7) /\
    Js.rd 0 m' 0 = 0.35 /\ Js.rd 0 m' 1 = 0.14 /\
    Js.rd 0 m' 2 = 0 /\ Js.rd 0 m' 3 = 0.7.
Proof.
  destruct (detectMotion_still WakingLife.stirred
              (concat (replicate 1024 [0; 0; 0; 255]%Z)) [0.5; 0.2; 0; 1] 32 32
              eq_refl eq_refl ltac:(lia) ltac:(lia) eq_refl eq_refl)
    as (st' & m' & Hd & Hp & Hm & Hl & Hcells).
  exists st', m'.
  split; [exact Hd|]. split; [exact Hp|]. split; [exact Hm|].
  split; [exact Hl|]. split; [exact Hcells|].
  assert (forall gy gx : Z, (0 <= gx < 2)%Z -> (0 <= gy < 2)%Z ->
            Js.rd 0 m' (gy * 2 + gx) = Js.rd 0 [0.5; 0.2; 0; 1] (gy * 2 + gx) * 0.7)
    as H by exact Hcells.
  pose proof (H 0%Z 0%Z ltac:(lia) ltac:(lia)) as H0.
  pose proof (H 0%Z 1%Z ltac:(lia) ltac:(lia)) as H1.
  pose proof (H 1%Z 0%Z ltac:(lia) ltac:(lia)) as H2.
  pose proof (H 1%Z 1%Z ltac:(lia) ltac:(lia)) as H3.
  change (Js.rd 0 m' 0 = 0.5 * 0.7) in H0.
  change (Js.rd 0 m' 1 = 0.2 * 0.7) in H1.
  change (Js.rd 0 m' 2 = 0 * 0.7) in H2.
  change (Js.rd 0 m' 3 = 1 * 0.7) in H3.
  rewrite H0, H1, H2, H3. repeat split; lra.
Defined.

(** X21.  While the motion history is in [[0, 1]] and the motion map has an
    entry for each block, the motion multiplier of [draw] lies in
    [[1, 24]] at every pixel, inside the canvas or not. *)
Theorem motionMultiplier_range (st : WakingLife.State) (x y width height : Z) :
  WakingLife.unit_motion st -> WakingLife.motion_sized st width height ->
  1 <= WakingLife.motionMultiplier st x y width height <= 24.
Proof.
  intros [Hg Hm] _. unfold WakingLife.motionMultiplier, WakingLife.getMotionAt.
  cbv zeta.
  destruct (WakingLife.motionMap st) as [m|]; [|lra].
  destruct (_ || _)%bool; [lra|].
  pose proof (WakingLifeMore.rd_unit m
                (y / WakingLife.gridSize * (width / WakingLife.gridSize)
                 + x / WakingLife.gridSize) (Hm m eq_refl)).
  lra.
Qed.

(** The theorem on the filter at rest. *)
Lemma motionMultiplier_range_witness :
  1 <= WakingLife.motionMultiplier WakingLife.atRest 5 7 32 32 <= 24.
Proof.
  apply motionMultiplier_range.
  - split; [cbn; lra|]. cbn. intros m [= <-]. repeat constructor; lra.
  - intros m. cbn. intros [= <-]. reflexivity.
Defined.

(** X22.  One frame of the Matrix filter keeps the filter healthy.  While
    the sensitivity setting is at most [10] and [Math.random] returns values
    in [[0, 1)], if before [draw] the grid has its sizes and brightnesses in
    [[0, 1]] and the streams have speeds in [[0.3, 0.7)] and lengths in
    [[5, 19]], then the same holds after the five updates of [draw],
    whatever the video frame; the pool then holds at most 500 particles,
    every one with life above zero, whatever it held before; and the sizes
    of the grid and the columns of the streams are as they were.  The grid
    and the video buffer have the sizes the filter believes they have, and
    the streams are in columns of the grid. *)
Theorem draw_keeps_healthy (canvasWidth canvasHeight : Z)
    (charSize explosionRate : R) (frame : option (list Z))
    (st : Matrix.State) (g : Rng.t) :
  Rng.unit_rng g -> (0 <= canvasWidth)%Z -> (0 <= canvasHeight)%Z ->
  Matrix.sampling_ok (Matrix.processVideoFrame frame st) ->
  Matrix.brightnessSensitivity st <= 10 ->
  Matrix.grid_sized st (Matrix.grid st) ->
  (forall x y, (0 <= x < Matrix.gridWidth st)%Z -> (0 <= y < Matrix.gridHeight st)%Z ->
     0 <= Matrix.brightness (Matrix.cellAt (Matrix.grid st) x y) <= 1) ->
  Forall (fun s => (0 <= Matrix.sx s < Matrix.gridWidth st)%Z) (Matrix.streams st) ->
  Forall Matrix.stream_ok (Matrix.streams st) ->
  let st' := fst (Matrix.draw canvasWidth canvasHeight charSize explosionRate
                    frame st g) in
  Matrix.healthy st' /\
  Matrix.gridWidth st' = Matrix.gridWidth st /\
  Matrix.gridHeight st' = Matrix.gridHeight st /\
  map Matrix.sx (Matrix.streams st') = map Matrix.sx (Matrix.streams st) /\
  Rng.unit_rng (snd (Matrix.draw canvasWidth canvasHeight charSize explosionRate
                       frame st g)).
Proof.
  intros Hg HW HH _ Hs Hsz Hb _ Hss st'. subst st'. unfold Matrix.draw. cbv zeta.
  set (st1 := Matrix.processVideoFrame frame st).
  assert (Matrix.gridWidth st1 = Matrix.gridWidth st /\
          Matrix.gridHeight st1 = Matrix.gridHeight st /\
          Matrix.grid st1 = Matrix.grid st /\
          Matrix.streams st1 = Matrix.streams st /\
          Matrix.brightnessSensitivity st1 = Matrix.brightnessSensitivity st)
    as (Ew & Eh & Eg & Es & Eb)
    by (subst st1; destruct frame; repeat split; reflexivity).
  assert (Matrix.grid_sized st1 (Matrix.grid st1)) as Hsz1.
  { unfold Matrix.grid_sized. rewrite Ew, Eh, Eg. exact Hsz. }
  rewrite JsFacts.bind_run. cbv beta.
  destruct (MatrixMore.updateGrid_spec st1 g Hg Hsz1) as (Hg1 & Hw1 & Hh1 & _).
  pose proof (fun x y => MatrixMore.updateGrid_unit st1 g x y Hg Hsz1
                           ltac:(rewrite Eb; exact Hs)
                           ltac:(rewrite Ew, Eh, Eg; exact Hb)) as Hb1.
  set (r1 := Matrix.updateGrid st1 g) in *.
  set (st2 := Matrix.set_grid st1 (fst r1)).
  rewrite JsFacts.bind_run. cbv beta.
  change (Matrix.streams st2) with (Matrix.streams st1). rewrite Es.
  destruct (MatrixFacts.updateStreamList_ok st2 (Matrix.streams st) _ Hg1 Hss)
    as [Hss2 Hg2].
  pose proof (MatrixMore.updateStreamList_steps st2 (Matrix.streams st) (snd r1))
    as Hsteps.
  set (r2 := Matrix.updateStreamList st2 (Matrix.streams st) (snd r1)) in *.
  set (st3 := Matrix.set_streams st2 (fst r2)).
  rewrite JsFacts.bind_run. cbv beta.
  pose proof (MatrixMore.checkForExplosions_later canvasWidth canvasHeight charSize
                explosionRate st3 (Matrix.explosions st3) _ Hg2 HW HH) as Hl3.
  set (r3 := Matrix.checkForExplosions canvasWidth canvasHeight charSize
               explosionRate st3 (Matrix.explosions st3) (snd r2)) in *.
  pose proof (MatrixMore.unit_later _ _ Hg2 Hl3) as Hg3.
  rewrite JsFacts.bind_run. cbv beta.
  unfold Rng.ret. cbn [fst snd].
  unfold Matrix.updateExplosions. rewrite JsFacts.bind_run. cbv beta.
  unfold Rng.ret. cbn [fst snd].
  destruct (MatrixMore.updateParticles_aged (fst r3) (snd r3)) as [Hall _].
  destruct (MatrixMore.trim_sub _ _ Hall) as [Hall' _].
  split; [|split; [exact Ew|split; [exact Eh|split]]].
  - unfold Matrix.healthy.
    cbn [Matrix.set_explosions Matrix.set_streams Matrix.set_grid
         Matrix.grid Matrix.gridWidth Matrix.gridHeight Matrix.streams
         Matrix.explosions].
    split; [exact (conj Hw1 Hh1)|]. split; [intros x y Hx Hy; now apply Hb1|].
    split; [exact Hss2|]. split; [apply MatrixFacts.trim_cap|].
    eapply Forall_impl; [exact Hall'|]. intros q [Hq _]. exact Hq.
  - change (map Matrix.sx (fst r2) = map Matrix.sx (Matrix.streams st)).
    clear -Hsteps. induction Hsteps as [| s s' l l' [Hsx _] _ IH]; cbn [map].
    + reflexivity.
    + now rewrite Hsx, IH.
  - intros n.
    assert (Rng.later (snd r3) (snd (Matrix.updateParticles (fst r3) (snd r3))))
      as Hl by apply MatrixMore.updateParticles_later.
    destruct (Hl n) as [m ->]. apply Hg3.
Qed.

(** The theorem on the one-cell filter with one stream and a video frame
    of one gray pixel. *)
Lemma draw_keeps_healthy_witness :
  let st' := fst (Matrix.draw 640 480 12 3 (Some [51; 51; 51; 255]%Z)
                    (Matrix.set_streams (Matrix.tiny 6) [Matrix.farStream])
                    Matrix.halves) in
  Matrix.healthy st' /\
  Matrix.gridWidth st' = 1%Z /\
  Matrix.gridHeight st' = 1%Z /\
  map Matrix.sx (Matrix.streams st') = [0%Z] /\
  Rng.unit_rng (snd (Matrix.draw 640 480 12 3 (Some [51; 51; 51; 255]%Z)
                       (Matrix.set_streams (Matrix.tiny 6) [Matrix.farStream])
                       Matrix.halves)).
Proof.
  apply (draw_keeps_healthy 640 480 12 3 (Some [51; 51; 51; 255]%Z)
           (Matrix.set_streams (Matrix.tiny 6) [Matrix.farStream]) Matrix.halves).
  - intros n. unfold Matrix.halves. lra.
  - lia.
  - lia.
  - exact (MatrixMore.tiny_sampling_ok 6).
  - cbn. lra.
  - exact (MatrixMore.tiny_grid_sized 6).
  - intros x y Hx Hy. assert (x = 0%Z) as -> by (cbn in Hx; lia).
    assert (y = 0%Z) as -> by (cbn in Hy; lia).
    change (Matrix.cellAt
              (Matrix.grid (Matrix.set_streams (Matrix.tiny 6) [Matrix.farStream])) 0 0)
      with Matrix.dimCell.
    cbn [Matrix.brightness Matrix.dimCell]. lra.
  - repeat constructor; cbn; lia.
  - repeat constructor; unfold Matrix.farStream, Matrix.minLength, Matrix.maxLength;
      cbn [Matrix.speed Matrix.length]; try lra; lia.
Defined.

(** X23.  On a frame buffer of bytes of the size of the canvas, the
    bilinear sample of the pixel loop of [draw] reads inside the buffer
    wherever the breathing and the wobble put the source position, and the
    sampled channel lies in [[0, 255]]. *)
Theorem sample_in_frame (src : list Z) (width height : Z) (srcX srcY : R) (c : Z) :
  WakingLife.frame_ok src width height -> (1 <= width)%Z -> (1 <= height)%Z ->
  (0 <= c <= 3)%Z ->
  exists v, WakingLife.sample src width height srcX srcY c = Some v /\ 0 <= v <= 255.
Proof. apply WakingLifeMore.sample_spec. Qed.

(** The theorem on the red frame, at a source position far outside it. *)
Lemma sample_in_frame_witness :
  exists v, WakingLife.sample WakingLife.redFrame 16 16 (-40) 99.5 0 = Some v /\
            0 <= v <= 255.
Proof.
  apply sample_in_frame; try lia. split.
  - unfold WakingLife.redFrame.
    rewrite length_concat, fmap_replicate, sum_list_replicate. reflexivity.
  - unfold WakingLife.redFrame. apply Forall_concat, Forall_replicate.
    repeat constructor; lia.
Defined.



(** X25.  [applyPainterlySmooth] writes only the colour channels of the
    pixels it visits: the buffer keeps its length, bytes stay bytes, every
    entry that differs from the one before the call is the red, green or
    blue channel of a visited pixel, and no alpha entry changes. *)
Theorem smooth_writes_colours (p : WakingLife.Settings) (data : list Z)
    (width height : Z) :
  let out := WakingLife.applyPainterlySmooth p data width height in
  length out = length data /\
  (Forall (fun v => (0 <= v <= 255)%Z) data -> Forall (fun v => (0 <= v <= 255)%Z) out) /\
  (forall i, Js.rd 0%Z out i <> Js.rd 0%Z data i ->
     exists y x k, (y, x) ∈ WakingLife.smooth_cells p width height /\
                   (0 <= k <= 2)%Z /\ i = ((y * width + x) * 4 + k)%Z) /\
  (forall j, Js.rd 0%Z out (4 * j + 3) = Js.rd 0%Z data (4 * j + 3)).
Proof.
  cbv zeta.
  destruct (WakingLifeMore.applyPainterlySmooth_keeps p data width height)
    as (Hlen & Hbytes & Hch).
  split; [exact Hlen|]. split; [exact Hbytes|]. split; [exact Hch|].
  apply WakingLifeMore.applyPainterlySmooth_alpha.
Qed.

(** X26.  A frame of the size of the canvas and of one colour is a fixed
    point of the smoothing, for every setting with which [draw] calls it
    (painterliness above [0.2]): the mean of a window of one colour is that
    colour. *)
Theorem smooth_flat_fixed (p : WakingLife.Settings) (data : list Z)
    (width height r g b : Z) :
  0.2 < WakingLife.painterliness p ->
  Z.of_nat (length data) = (width * height * 4)%Z ->
  WakingLife.flat data width height r g b ->
  (0 <= r <= 255)%Z -> (0 <= g <= 255)%Z -> (0 <= b <= 255)%Z ->
  WakingLife.applyPainterlySmooth p data width height = data.
Proof.
  intros Hp _ Hflat Hr Hg Hb.
  assert (1 <= WakingLife.smoothRadius p)%Z as Hrad.
  { unfold WakingLife.smoothRadius.
    pose proof (JsFacts.floor_mono 1 (1 + WakingLife.painterliness p * 2)
                  ltac:(lra)) as H.
    now rewrite (JsFacts.floor_IZR 1) in H. }
  rewrite WakingLifeMore.applyPainterlySmooth_cells.
  apply (JsFacts.foldl_invariant (WakingLife.smooth_pixel p data width)
           (fun d => d = data)); [reflexivity|].
  intros [y x] d Hc ->.
  apply JsFacts.elem_of_pairs in Hc as [Hy Hx].
  apply ArcherMore.elem_of_rangeStep in Hy as [Hy _]; [|lia].
  apply ArcherMore.elem_of_rangeStep in Hx as [Hx _]; [|lia].
  apply (WakingLifeMore.smooth_pixel_flat p data width height r g b); try assumption.
  lia.
Qed.

(** The theorem on the red frame with the settings of the constructor. *)
Lemma smooth_flat_fixed_witness :
  WakingLife.applyPainterlySmooth WakingLife.defaults WakingLife.redFrame 16 16
  = WakingLife.redFrame.
Proof.
  apply (smooth_flat_fixed WakingLife.defaults WakingLife.redFrame 16 16 255 0 0);
    try lia.
  - cbn. lra.
  - unfold WakingLife.redFrame.
    rewrite length_concat, fmap_replicate, sum_list_replicate. reflexivity.
  - intros y x Hx Hy.
    assert (forall c, (0 <= c < 4)%Z ->
              Js.rd 0%Z WakingLife.redFrame ((y * 16 + x) * 4 + c)
              = Js.rd 0%Z [255; 0; 0; 255]%Z c) as Hrd.
    { intros c Hc. unfold WakingLife.redFrame.
      apply WakingLifeMore.rd_tiled; [reflexivity | lia | lia]. }
    rewrite <- (Z.add_0_r ((y * 16 + x) * 4)) at 1.
    rewrite !Hrd by lia. repeat split; reflexivity.
Defined.



(** X28.  Once the frame is longer than the stored one (the canvas has
    grown since the first frame), [draw] ends in the error of
    [detectMotion] before it reaches the pixel loop, with the clock, the
    frame counter and the stored frame as they were; so the next frame of
    such a size meets the same error, and no image is put on the canvas
    again. *)
Theorem draw_throws_again (p : WakingLife.Settings) (t : WakingLife.Tables)
    (videoWidth : Z) (st : WakingLife.State) (prev src src' : list Z)
    (width height width' height' : Z) :
  videoWidth <> 0%Z ->
  WakingLife.prevFrame st = Some prev ->
  (length prev < length src)%nat -> (length prev < length src')%nat ->
  exists st1 st2,
    WakingLife.draw p t videoWidth st src width height = WakingLife.Thrown st1 /\
    WakingLife.draw p t videoWidth st1 src' width' height' = WakingLife.Thrown st2 /\
    WakingLife.time st2 = WakingLife.time st /\
    WakingLife.frameCount st2 = WakingLife.frameCount st /\
    WakingLife.prevFrame st2 = Some prev.
Proof.
  intros Hv Hprev Hsrc Hsrc'.
  assert (forall s f w h, WakingLife.prevFrame s = Some prev ->
            (length prev < length f)%nat ->
            exists s', WakingLife.draw p t videoWidth s f w h = WakingLife.Thrown s' /\
                       WakingLife.time s' = WakingLife.time s /\
                       WakingLife.frameCount s' = WakingLife.frameCount s /\
                       WakingLife.prevFrame s' = Some prev) as Hstep.
  { intros s f w h Hs Hf. unfold WakingLife.draw, WakingLife.detectMotion.
    destruct (Z.eqb_spec videoWidth 0) as [E | _]; [contradiction|].
    cbv zeta. rewrite Hs.
    destruct (Nat.leb_spec (length f) (length prev)) as [Hle | _]; [lia|].
    eexists. split; [reflexivity|]. cbn. now rewrite Hs. }
  destruct (Hstep st src width height Hprev Hsrc) as (st1 & E1 & Ht1 & Hf1 & Hp1).
  destruct (Hstep st1 src' width' height' Hp1 Hsrc') as (st2 & E2 & Ht2 & Hf2 & Hp2).
  exists st1, st2. split; [exact E1|]. split; [exact E2|].
  split; [congruence|]. split; [congruence | exact Hp2].
Qed.

(** The theorem on a filter that has stored a frame of 16 by 16 pixels and
    is shown frames of 32 by 32. *)
Lemma draw_throws_again_witness :
  exists st1 st2,
    WakingLife.draw WakingLife.defaults
      (WakingLife.mkTables WakingLife.exampleTable WakingLife.exampleTable
         WakingLife.exampleTable)
      640 WakingLife.sawBlack (concat (replicate 1024 [0; 0; 0; 255]%Z)) 32 32
    = WakingLife.Thrown st1 /\
    WakingLife.draw WakingLife.defaults
      (WakingLife.mkTables WakingLife.exampleTable WakingLife.exampleTable
         WakingLife.exampleTable)
      640 st1 (concat (replicate 1024 [0; 0; 0; 255]%Z)) 32 32
    = WakingLife.Thrown st2 /\
    WakingLife.time st2 = WakingLife.time WakingLife.sawBlack /\
    WakingLife.frameCount st2 = WakingLife.frameCount WakingLife.sawBlack /\
    WakingLife.prevFrame st2 = Some WakingLife.blackFrame.
Proof.
  apply (draw_throws_again _ _ 640 WakingLife.sawBlack WakingLife.blackFrame);
    [lia | reflexivity | |];
    unfold WakingLife.blackFrame;
    rewrite !length_concat, !fmap_replicate, !sum_list_replicate; cbn; lia.
Defined.

(** ** The strokes of WakingLifeFilter *)

Module WakingLifeEdges.
Import Js JsFacts WakingLife WakingLifeFacts.

(** *** [Math.atan2] *)

Lemma hypot_pos (x y : R) : x <> 0 -> sqrt (x * x + y * y) = Rabs x * sqrt (1 + (y / x)²).
Proof.
  intros Hx.
  replace (x * x + y * y) with (x² * (1 + (y / x)²)) by (unfold Rsqr; field; exact Hx).
  rewrite sqrt_mult; [| apply Rle_0_sqr | pose proof (Rle_0_sqr (y / x)); lra].
  now rewrite sqrt_Rsqr_abs.
Qed.

Lemma root_pos (r : R) : 0 < sqrt (1 + r²).
Proof. apply sqrt_lt_R0. pose proof (Rle_0_sqr r). lra. Qed.

(** The angle [atan2 y x] is the direction of [(x, y)]. *)
Lemma atan2_direction (y x : R) :
  x <> 0 \/ y <> 0 ->
  cos (atan2 y x) * sqrt (x * x + y * y) = x /\
  sin (atan2 y x) * sqrt (x * x + y * y) = y.
Proof.
  intros Hxy. unfold atan2.
  pose proof (root_pos (y / x)) as Hroot.
  destruct (Rlt_dec 0 x) as [Hpos | Hnpos].
  - rewrite hypot_pos, Rabs_right, cos_atan, sin_atan by lra.
    split; field; lra.
  - destruct (Rlt_dec x 0) as [Hneg | Hnneg].
    + rewrite hypot_pos, Rabs_left by lra.
      destruct (Rle_dec 0 y) as [_ | _].
      * rewrite neg_cos, neg_sin, cos_atan, sin_atan. split; field; lra.
      * rewrite cos_minus, sin_minus, cos_PI, sin_PI, cos_atan, sin_atan.
        split; field; lra.
    + assert (x = 0) as -> by lra.
      replace (0 * 0 + y * y) with (y²) by (unfold Rsqr; ring).
      rewrite sqrt_Rsqr_abs.
      destruct (Rlt_dec 0 y) as [Hy | Hny].
      * rewrite cos_PI2, sin_PI2, Rabs_right by lra. split; ring.
      * destruct (Rlt_dec y 0) as [Hy | Hy0].
        -- rewrite cos_neg, sin_neg, cos_PI2, sin_PI2, Rabs_left by lra. split; ring.
        -- destruct Hxy as [H | H]; [now contradiction H | lra].
Qed.

(** The direction of a stroke, a quarter turn from [atan2 y x], is at right
    angles to [(x, y)], and it is a unit vector. *)
Lemma quarter_turn (y x : R) :
  x <> 0 \/ y <> 0 ->
  cos (atan2 y x + PI / 2) * x + sin (atan2 y x + PI / 2) * y = 0.
Proof.
  intros Hxy. destruct (atan2_direction y x Hxy) as [Hc Hs].
  rewrite cos_plus, sin_plus, cos_PI2, sin_PI2.
  set (h := sqrt (x * x + y * y)) in *.
  set (c := cos (atan2 y x)) in *. set (s := sin (atan2 y x)) in *.
  rewrite <- Hc, <- Hs. ring.
Qed.

Lemma unit_direction (a : R) : cos a * cos a + sin a * sin a = 1.
Proof. pose proof (sin2_cos2 a) as H. unfold Rsqr in H. lra. Qed.

(** *** [detectAndDrawEdges] *)

Lemma sqrt_above (v b : R) : 0 <= b -> sqrt v > b -> b * b < v.
Proof.
  intros Hb Hv. destruct (Rlt_le_dec (b * b) v) as [H | H]; [exact H|].
  exfalso. destruct (Rle_lt_dec 0 v) as [H0 | H0].
  - apply sqrt_le_1 in H; [|exact H0|nra].
    rewrite sqrt_square in H by exact Hb. lra.
  - rewrite sqrt_neg_0 in Hv by lra. lra.
Qed.

Lemma floor_between (lo hi : Z) (v : R) :
  IZR lo <= v <= IZR hi -> (lo <= floor v <= hi)%Z.
Proof.
  intros [H0 H1]. split.
  - rewrite <- (floor_IZR lo). now apply floor_mono.
  - rewrite <- (floor_IZR hi). now apply floor_mono.
Qed.

Lemma getMotionAt_unit (st : State) (x y width height : Z) :
  unit_motion st -> 0 <= getMotionAt st x y width height <= 1.
Proof.
  intros [Hg Hm]. unfold getMotionAt. cbv zeta.
  destruct (motionMap st) as [m|]; [|exact Hg].
  destruct (_ || _)%bool; [exact Hg|].
  apply WakingLifeMore.rd_unit. now apply Hm.
Qed.

Lemma edge_at_spec (p : Settings) (t : Tables) (st : State) (src : list Z)
    (width height x y : Z) (s : EdgeStroke) :
  tables_ok t -> unit_motion st ->
  0 <= wobbleIntensity p -> 0 <= edgeThickness p -> 0.05 <= edgeOpacity p ->
  edge_at p t st src width height x y = Some s ->
  along_edge p src width x y s.
Proof.
  intros ((HtX & HX) & (HtY & HY) & (HtC & HC)) Hu Hwi Het Heo.
  unfold edge_at, along_edge. cbv zeta.
  set (gx := fst (gradient src width x y)).
  set (gy := snd (gradient src width x y)).
  destruct (Rgt_dec _ _) as [Hmag | _]; [|discriminate].
  intros [= <-].
  cbn [fromX fromY toX toY edgeR edgeG edgeB alpha lineWidth].
  pose proof (sqrt_above _ edgeThreshold ltac:(unfold edgeThreshold; lra) Hmag) as Hsq.
  unfold edgeThreshold in Hmag, Hsq |- *.
  assert (gx <> 0 \/ gy <> 0) as Hnz.
  { destruct (Req_dec gx 0) as [Ex | Nx]; [|now left].
    right. intros Ey. rewrite Ex, Ey in Hsq. lra. }
  pose proof (getMotionAt_unit st x y width height Hu) as Hlm.
  destruct Hu as [Hgm _].
  set (lm := getMotionAt st x y width height) in *.
  pose proof (quarter_turn gy gx Hnz) as Hperp.
  pose proof (unit_direction (atan2 gy gx + PI / 2)) as Hdir.
  set (c := cos (atan2 gy gx + PI / 2)) in *.
  set (sn := sin (atan2 gy gx + PI / 2)) in *.
  assert (1.5 <= strokeLen t st width height x y <= 14) as Hlen.
  { unfold strokeLen. fold lm.
    pose proof (WakingLifeMore.noise2D_between 0 1 (IZR x * 0.1) (IZR y * 0.1)
                  (noiseTableX t) HtX HX). nra. }
  set (len := strokeLen t st width height x y) in *.
  assert (1 <= edgeMotionMult st x y width height <= 19) as Hmult
    by (unfold edgeMotionMult; fold lm; lra).
  unfold edgeWobble. cbv zeta. cbn [fst snd].
  set (mult := edgeMotionMult st x y width height) in *.
  set (nX := noise2D _ _ (noiseTableX t)).
  set (nY := noise2D _ _ (noiseTableY t)).
  set (nC := noise2D _ _ (noiseTableColor t)).
  assert (0 <= nX <= 1) as HnX by (apply WakingLifeMore.noise2D_between; assumption).
  assert (0 <= nY <= 1) as HnY by (apply WakingLifeMore.noise2D_between; assumption).
  assert (0 <= nC <= 1) as HnC by (apply WakingLifeMore.noise2D_between; assumption).
  split; [exact Hsq|]. split.
  { replace ((IZR x + (nX - 0.5) * wobbleIntensity p * 4 * mult + c * len
              - (IZR x + (nX - 0.5) * wobbleIntensity p * 4 * mult - c * len)) * gx
             + (IZR y + (nY - 0.5) * wobbleIntensity p * 4 * mult + sn * len
                - (IZR y + (nY - 0.5) * wobbleIntensity p * 4 * mult - sn * len)) * gy)
      with (2 * len * (c * gx + sn * gy)) by ring.
    rewrite Hperp. ring. }
  split.
  { replace ((IZR x + (nX - 0.5) * wobbleIntensity p * 4 * mult - c * len
              + (IZR x + (nX - 0.5) * wobbleIntensity p * 4 * mult + c * len)) / 2
             - IZR x)
      with ((nX - 0.5) * (wobbleIntensity p * 4 * mult)) by field.
    assert (0 <= wobbleIntensity p * 4 * mult <= 76 * wobbleIntensity p) as Hk by nra.
    set (k := wobbleIntensity p * 4 * mult) in *.
    apply Rabs_le. split; nra. }
  split.
  { replace ((IZR y + (nY - 0.5) * wobbleIntensity p * 4 * mult - sn * len
              + (IZR y + (nY - 0.5) * wobbleIntensity p * 4 * mult + sn * len)) / 2
             - IZR y)
      with ((nY - 0.5) * (wobbleIntensity p * 4 * mult)) by field.
    assert (0 <= wobbleIntensity p * 4 * mult <= 76 * wobbleIntensity p) as Hk by nra.
    set (k := wobbleIntensity p * 4 * mult) in *.
    apply Rabs_le. split; nra. }
  split.
  { replace ((IZR x + (nX - 0.5) * wobbleIntensity p * 4 * mult + c * len
              - (IZR x + (nX - 0.5) * wobbleIntensity p * 4 * mult - c * len))
             * (IZR x + (nX - 0.5) * wobbleIntensity p * 4 * mult + c * len
                - (IZR x + (nX - 0.5) * wobbleIntensity p * 4 * mult - c * len))
             + (IZR y + (nY - 0.5) * wobbleIntensity p * 4 * mult + sn * len
                - (IZR y + (nY - 0.5) * wobbleIntensity p * 4 * mult - sn * len))
               * (IZR y + (nY - 0.5) * wobbleIntensity p * 4 * mult + sn * len
                  - (IZR y + (nY - 0.5) * wobbleIntensity p * 4 * mult - sn * len)))
      with (4 * (len * len) * (c * c + sn * sn)) by ring.
    rewrite Hdir. split; nra. }
  split.
  { set (mag := sqrt (gx * gx + gy * gy)) in *.
    unfold Rmin. destruct (Rle_dec 1 (mag / 80)); nra. }
  split; [split; nra|].
  split; [apply floor_between; lra|]. split; apply floor_between; lra.
Qed.

Lemma edgeStrokes_In (p : Settings) (t : Tables) (st : State) (src : list Z)
    (width height : Z) (s : EdgeStroke) :
  In s (edgeStrokes p t st src width height) <->
  exists x y, x ∈ rangeStep edgeStep (width - edgeStep) edgeStep /\
              y ∈ rangeStep edgeStep (height - edgeStep) edgeStep /\
              edge_at p t st src width height x y = Some s.
Proof.
  unfold edgeStrokes. rewrite in_flat_map. split.
  - intros ([y x] & Hc & Hs). cbn [fst snd] in Hs.
    apply list_elem_of_In, elem_of_pairs in Hc as [Hy Hx].
    exists x, y. split; [exact Hx|]. split; [exact Hy|].
    destruct (edge_at p t st src width height x y) as [s'|]; [|contradiction].
    destruct Hs as [-> | []]. reflexivity.
  - intros (x & y & Hx & Hy & Hs). exists (y, x). split.
    + apply list_elem_of_In, elem_of_pairs. now split.
    + cbn [fst snd]. rewrite Hs. now left.
Qed.

(** *** [addSketchyMarks] *)

Lemma sketchyMark_spec (p : Settings) (t : Tables) (st : State)
    (width height : Z) (g : Rng.t) :
  Rng.unit_rng g -> tables_ok t -> (0 <= width)%Z -> (0 <= height)%Z ->
  0.05 <= edgeOpacity p ->
  (forall m, fst (sketchyMark p t st width height g) = Some m ->
             sketched p width height m) /\
  Rng.later g (snd (sketchyMark p t st width height g)).
Proof.
  intros Hg ((HtX & HX) & (HtY & HY) & (HtC & HC)) Hw Hh Heo.
  apply IZR_le in Hw, Hh.
  unfold sketchyMark. cbv beta iota zeta delta [Rng.bind Rng.random Rng.ret].
  cbn [fst snd].
  destruct (Rgt_dec _ _) as [Hn | _]; cbn [fst snd].
  - split; [|intros n; eexists; reflexivity].
    intros m [= <-]. unfold sketched.
    cbn [markFromX markFromY markToX markToY markAlpha markWidth].
    pose proof (Hg 0%nat). pose proof (Hg 1%nat). pose proof (Hg 2%nat).
    pose proof (Hg 3%nat). pose proof (Hg 4%nat).
    set (nC := noise2D _ _ (noiseTableColor t)) in *.
    set (nX := noise2D _ _ (noiseTableX t)).
    set (nY := noise2D _ _ (noiseTableY t)).
    assert (0 <= nX <= 1) as HnX by (apply WakingLifeMore.noise2D_between; assumption).
    assert (0 <= nY <= 1) as HnY by (apply WakingLifeMore.noise2D_between; assumption).
    assert (0 <= nC <= 1) as HnC by (apply WakingLifeMore.noise2D_between; assumption).
    split; [split; nra|]. split; [split; nra|].
    split; [apply Rabs_le; lra|]. split; [apply Rabs_le; lra|].
    split; [split; nra | lra].
  - split; [discriminate|]. intros n; eexists; reflexivity.
Qed.

Lemma sketchyMarks_spec (n : nat) (p : Settings) (t : Tables) (st : State)
    (width height : Z) (g : Rng.t) :
  Rng.unit_rng g -> tables_ok t -> (0 <= width)%Z -> (0 <= height)%Z ->
  0.05 <= edgeOpacity p ->
  Forall (sketched p width height) (fst (sketchyMarks n p t st width height g)) /\
  (length (fst (sketchyMarks n p t st width height g)) <= n)%nat.
Proof.
  intros Hg Ht Hw Hh Heo. revert g Hg.
  induction n as [| n IH]; intros g Hg; cbn [sketchyMarks].
  - unfold Rng.ret. cbn. split; [constructor | lia].
  - rewrite bind_run. cbv beta. rewrite bind_run. cbv beta.
    unfold Rng.ret. cbn [fst].
    destruct (sketchyMark_spec p t st width height g Hg Ht Hw Hh Heo) as [Hm Hl].
    destruct (IH _ (MatrixMore.unit_later _ _ Hg Hl)) as [Hall Hlen].
    destruct (fst (sketchyMark p t st width height g)) as [m|].
    + split; [constructor; [now apply Hm | exact Hall] | cbn [length]; lia].
    + split; [exact Hall | lia].
Qed.

(** *** The definitions on the example frame *)

Lemma stepFrame_ok : frame_ok stepFrame 16 16.
Proof.
  split; [reflexivity|]. unfold stepFrame.
  apply Forall_concat, Forall_replicate, Forall_app.
  split; apply Forall_concat, Forall_replicate; repeat constructor; lia.
Qed.

Lemma gradient_step : gradient stepFrame 16 3 3 = (255, 0).
Proof.
  unfold gradient, lum3, chan, edgeStep. cbv zeta. eval_reads. f_equal; lra.
Qed.

Lemma exampleStroke_drawn (g : Rng.t) :
  In exampleStroke
     (fst (fst (detectAndDrawEdges defaults exampleTables sawBlack stepFrame 16 16 g))).
Proof.
  unfold detectAndDrawEdges.
  destruct (Rlt_dec (edgeOpacity defaults) 0.05) as [H | _]; [cbn in H; lra|].
  change (Z.rem (frameCount sawBlack) 3 =? 0)%Z with false.
  unfold Rng.ret. cbn [fst].
  apply edgeStrokes_In. exists 3%Z, 3%Z.
  split; [apply list_elem_of_here|]. split; [apply list_elem_of_here|].
  unfold exampleStroke.
  destruct (edge_at defaults exampleTables sawBlack stepFrame 16 16 3 3) eqn:E;
    [reflexivity|].
  exfalso. unfold edge_at in E. cbv zeta in E. rewrite gradient_step in E.
  cbn [fst snd] in E.
  destruct (Rgt_dec _ _) as [_ | Hn] in E; [discriminate|].
  apply Hn. replace (255 * 255 + 0 * 0) with (255 * 255) by ring.
  rewrite sqrt_square by lra. unfold edgeThreshold. lra.
Qed.

(** *** The marks on tables of one value *)

Lemma brightTable_ok :
  noise_table brightTable /\ Forall (fun v => 0.9 <= v <= 0.9) brightTable.
Proof.
  unfold brightTable. split.
  - unfold noise_table. rewrite length_replicate. unfold size. lia.
  - apply Forall_replicate. lra.
Qed.

Lemma brightTables_ok : tables_ok brightTables.
Proof.
  destruct brightTable_ok as [Hn Hv].
  assert (Forall (fun v => 0 <= v <= 1) brightTable) as Hu.
  { eapply Forall_impl; [exact Hv|]. cbv beta. intros v H. lra. }
  unfold tables_ok, brightTables. cbn [noiseTableX noiseTableY noiseTableColor].
  split; [split; [exact Hn | exact Hu]|].
  split; split; [exact Hn | exact Hu | exact Hn | exact Hu].
Qed.

Lemma noise2D_bright (x y : R) : noise2D x y brightTable = 0.9.
Proof.
  destruct brightTable_ok as [Hn Hv].
  pose proof (WakingLifeMore.noise2D_between 0.9 0.9 x y brightTable Hn Hv). lra.
Qed.

(** Where the noise is above [0.6] everywhere, every attempt draws its
    mark. *)
Lemma sketchyMarks_all (n : nat) (p : Settings) (t : Tables) (st : State)
    (width height : Z) (g : Rng.t) :
  (forall x y, noise2D x y (noiseTableColor t) > 0.6) ->
  length (fst (sketchyMarks n p t st width height g)) = n.
Proof.
  intros Hn. revert g.
  induction n as [| n IH]; intros g; cbn [sketchyMarks].
  - reflexivity.
  - rewrite bind_run. cbv beta. rewrite bind_run. cbv beta.
    unfold Rng.ret. cbn [fst].
    assert (exists m, fst (sketchyMark p t st width height g) = Some m) as [m ->].
    { unfold sketchyMark. cbv beta iota zeta delta [Rng.bind Rng.random Rng.ret].
      cbn [fst snd].
      destruct (Rgt_dec _ _) as [_ | Hno]; [eexists; reflexivity|].
      exfalso. apply Hno, Hn. }
    cbn [length]. now rewrite IH.
Qed.

Lemma numMarks_defaults : numMarks defaults = 11%Z.
Proof.
  unfold numMarks, defaults. cbn [painterliness].
  replace (5 + 0.6 * 10) with (IZR 11) by lra. apply floor_IZR.
Qed.

(** On the third frame the filter draws its eleven marks. *)
Lemma brightMarks_length (src : list Z) (g : Rng.t) :
  length (snd (fst (detectAndDrawEdges defaults brightTables
                      (tick (tick sawBlack)) src 16 16 g))) = 11%nat.
Proof.
  unfold detectAndDrawEdges.
  destruct (Rlt_dec (edgeOpacity defaults) 0.05) as [H | _]; [cbn in H; lra|].
  change (Z.rem (frameCount (tick (tick sawBlack))) 3 =? 0)%Z with true.
  cbv iota. rewrite bind_run. cbv beta. unfold Rng.ret. cbn [fst snd].
  unfold addSketchyMarks. rewrite sketchyMarks_all.
  - now rewrite numMarks_defaults.
  - intros x y. unfold brightTables. cbn [noiseTableColor].
    rewrite noise2D_bright. lra.
Qed.

End WakingLifeEdges.

(** X29.  Every stroke [detectAndDrawEdges] draws sits on an edge: it
    belongs to a pixel of the sampling grid (every third pixel, three away
    from the sides) where the gradient is longer than [25]; it runs at
    right angles to the gradient, has its middle within [38] times the
    wobble intensity of the pixel and a length between 3 and 28; its
    opacity is in [(0.3125, 1]] times the edge opacity, which is at least
    [0.05]; its line width is between one and three times the edge
    thickness; its colour numbers are in [[20, 50]], [[15, 40]] and
    [[25, 45]].  The frame, the tables and the motion map have their sizes,
    and the tables and the motion history hold values of [[0, 1]]. *)
Theorem edge_strokes_along_edges (p : WakingLife.Settings) (t : WakingLife.Tables)
    (st : WakingLife.State) (src : list Z) (width height : Z) (g : Rng.t)
    (s : WakingLife.EdgeStroke) :
  WakingLife.frame_ok src width height ->
  WakingLife.tables_ok t ->
  WakingLife.unit_motion st -> WakingLife.motion_sized st width height ->
  0 <= WakingLife.wobbleIntensity p -> 0 <= WakingLife.edgeThickness p ->
  In s (fst (fst (WakingLife.detectAndDrawEdges p t st src width height g))) ->
  0.05 <= WakingLife.edgeOpacity p /\
  exists x y,
    (3 <= x < width - 3)%Z /\ (3 <= y < height - 3)%Z /\
    (x mod 3 = 0)%Z /\ (y mod 3 = 0)%Z /\
    WakingLife.edge_at p t st src width height x y = Some s /\
    WakingLife.along_edge p src width x y s.
Proof.
  intros _ Ht Hu _ Hwi Het Hin.
  assert (0.05 <= WakingLife.edgeOpacity p /\
          In s (WakingLife.edgeStrokes p t st src width height)) as [Heo Hs].
  { unfold WakingLife.detectAndDrawEdges in Hin.
    destruct (Rlt_dec (WakingLife.edgeOpacity p) 0.05) as [_ | Heo];
      [now cbn in Hin|].
    split; [lra|].
    destruct (_ =? _)%Z; [rewrite JsFacts.bind_run in Hin|]; exact Hin. }
  split; [exact Heo|].
  apply WakingLifeEdges.edgeStrokes_In in Hs as (x & y & Hx & Hy & Hs).
  apply ArcherMore.elem_of_rangeStep in Hx as [Hx (kx & _ & Ex)];
    [|unfold WakingLife.edgeStep; lia].
  apply ArcherMore.elem_of_rangeStep in Hy as [Hy (ky & _ & Ey)];
    [|unfold WakingLife.edgeStep; lia].
  unfold WakingLife.edgeStep in *.
  exists x, y. split; [lia|]. split; [lia|].
  split; [apply Z.mod_divide; [lia | exists (1 + kx)%Z; lia]|].
  split; [apply Z.mod_divide; [lia | exists (1 + ky)%Z; lia]|].
  split; [exact Hs|].
  now apply (WakingLifeEdges.edge_at_spec p t st src width height x y s).
Qed.

(** The theorem on the stroke at the pixel [(3, 3)] of the frame with a
    black band on the left. *)
Lemma edge_strokes_along_edges_witness :
  0.05 <= WakingLife.edgeOpacity WakingLife.defaults /\
  exists x y,
    (3 <= x < 16 - 3)%Z /\ (3 <= y < 16 - 3)%Z /\
    (x mod 3 = 0)%Z /\ (y mod 3 = 0)%Z /\
    WakingLife.edge_at WakingLife.defaults WakingLife.exampleTables
      WakingLife.sawBlack WakingLife.stepFrame 16 16 x y
    = Some WakingLife.exampleStroke /\
    WakingLife.along_edge WakingLife.defaults WakingLife.stepFrame 16 x y
      WakingLife.exampleStroke.
Proof.
  apply (edge_strokes_along_edges WakingLife.defaults WakingLife.exampleTables
           WakingLife.sawBlack WakingLife.stepFrame 16 16 (fun _ => 0.5)
           WakingLife.exampleStroke).
  - apply WakingLifeEdges.stepFrame_ok.
  - apply WakingLifeMore.exampleTables_ok.
  - split; [cbn; lra|]. cbn. intros m [= <-]. repeat constructor; lra.
  - intros m. cbn. intros [= <-]. reflexivity.
  - cbn. lra.
  - cbn. lra.
  - apply WakingLifeEdges.exampleStroke_drawn.
Defined.

(** X30.  The marks [detectAndDrawEdges] adds are drawn only on every third
    frame and with an edge opacity of at least [0.05]; there are at most
    [floor (5 + 10 * painterliness)] of them; each starts within 2.5 of a
    point of the canvas, ends within 4 of its start in each direction, and
    has an opacity in [(0, 0.12]] times the edge opacity and a line width
    in [[0.5, 1.5)]. *)
Theorem sketchy_marks (p : WakingLife.Settings) (t : WakingLife.Tables)
    (st : WakingLife.State) (src : list Z) (width height : Z) (g : Rng.t) :
  Rng.unit_rng g -> WakingLife.tables_ok t ->
  (0 <= width)%Z -> (0 <= height)%Z ->
  let marks := snd (fst (WakingLife.detectAndDrawEdges p t st src width height g)) in
  (marks <> [] ->
   0.05 <= WakingLife.edgeOpacity p /\ Z.rem (WakingLife.frameCount st) 3 = 0%Z) /\
  (length marks <= Z.to_nat (WakingLife.numMarks p))%nat /\
  Forall (WakingLife.sketched p width height) marks.
Proof.
  intros Hg Ht Hw Hh marks. subst marks. unfold WakingLife.detectAndDrawEdges.
  destruct (Rlt_dec (WakingLife.edgeOpacity p) 0.05) as [_ | Heo].
  { cbn. split; [congruence|]. split; [lia | constructor]. }
  destruct (Z.eqb_spec (Z.rem (WakingLife.frameCount st) 3) 0) as [E | _].
  - rewrite JsFacts.bind_run. cbv beta. unfold Rng.ret. cbn [fst snd].
    unfold WakingLife.addSketchyMarks.
    destruct (WakingLifeEdges.sketchyMarks_spec
                (Z.to_nat (WakingLife.numMarks p)) p t st width height g
                Hg Ht Hw Hh ltac:(lra)) as [Hall Hlen].
    split; [intros _; split; [lra | exact E]|]. split; [exact Hlen | exact Hall].
  - cbn. split; [congruence|]. split; [lia | constructor].
Qed.

(** The theorem on the third frame of a filter with the settings of the
    constructor, over tables on which the noise is [0.9] everywhere: every
    one of the [11] attempts draws its mark. *)
Lemma sketchy_marks_witness :
  let marks :=
    snd (fst (WakingLife.detectAndDrawEdges WakingLife.defaults
                WakingLife.brightTables
                (WakingLife.tick (WakingLife.tick WakingLife.sawBlack))
                WakingLife.redFrame 16 16 (fun _ => 0.5))) in
  length marks = 11%nat /\
  (0.05 <= WakingLife.edgeOpacity WakingLife.defaults /\
   Z.rem (WakingLife.frameCount
            (WakingLife.tick (WakingLife.tick WakingLife.sawBlack))) 3 = 0%Z) /\
  (length marks <= Z.to_nat (WakingLife.numMarks WakingLife.defaults))%nat /\
  Forall (WakingLife.sketched WakingLife.defaults 16 16) marks.
Proof.
  intros marks.
  assert (length marks = 11%nat) as Hlen
    by apply WakingLifeEdges.brightMarks_length.
  destruct (sketchy_marks WakingLife.defaults WakingLife.brightTables
              (WakingLife.tick (WakingLife.tick WakingLife.sawBlack))
              WakingLife.redFrame 16 16 (fun _ => 0.5))
    as (H1 & H2 & H3).
  - intros n. lra.
  - exact WakingLifeEdges.brightTables_ok.
  - lia.
  - lia.
  - split; [exact Hlen|]. split; [|split; [exact H2 | exact H3]].
    apply H1. fold marks. intros E. rewrite E in Hlen. discriminate.
Defined.
